(** * Live traffic visualiser: grid, neighbour generation, searches, cars

    A shallow embedding of [LiveTrafficVisualizer] (grid generation,
    [getNeighbors], the four searches, [moveCars], [handleCanvasClick])
    and the properties proved about it.

    Conventions of the embedding:
    - JavaScript integers are [Z]; car coordinates and speeds, which the
      source holds as fractional numbers, are exact rationals [Q];
    - an array is a [list]; [Set]/[Map] keyed by the string ["x,y"] are
      [gset Point]/[gmap Point _] (the key is injective on integer pairs);
    - a [while] loop is a [Fixpoint] on a fuel argument; the entry points
      fix the fuel and the theorems show it is never exhausted;
    - an uncaught [TypeError] (reading a property of [undefined]) is the
      result [TypeError];
    - [Math.random()] reads the next value of an explicit stream. *)

From Stdlib Require Import Strings.String.
From stdpp Require Import gmap list.
From Stdlib Require Import ZArith QArith Qround Qabs Lia Lqa.

Local Open Scope Z_scope.

(** ** Constants *)

Definition GRID_ROWS : Z := 60.
Definition GRID_COLS : Z := 120.
Definition CELL_SIZE : Z := 8.

(** ** Data model *)

(** [{ x, y }] *)
Record Point := mkPoint { pt_x : Z; pt_y : Z }.

#[global] Instance Point_eq_dec : EqDecision Point.
Proof. solve_decision. Defined.

#[global] Instance Point_countable : Countable Point.
Proof.
  refine (inj_countable' (fun p => (pt_x p, pt_y p))
                         (fun q => mkPoint (fst q) (snd q)) _).
  intros []; reflexivity.
Defined.

(** A grid cell, with the six fields [initializeCityGrid] gives it. *)
Record Cell := mkCell {
  isWall : bool;
  isRoad : bool;
  isVisited : bool;
  isPath : bool;
  hasCar : bool;
  carId : option Z
}.

#[global] Instance Cell_eq_dec : EqDecision Cell.
Proof. solve_decision. Defined.

(** [grid[y][x]]: a list of rows. *)
Abbreviation Grid := (list (list Cell)).

(** Results of code that can throw or, in the model, run out of fuel. *)
Inductive result (A : Type) : Type :=
| Ok (a : A)
| TypeError
| OutOfFuel.
Arguments Ok {A} a.
Arguments TypeError {A}.
Arguments OutOfFuel {A}.

Definition bind {A B} (r : result A) (k : A -> result B) : result B :=
  match r with
  | Ok a => k a
  | TypeError => TypeError
  | OutOfFuel => OutOfFuel
  end.

Notation "x <- r ;; k" := (bind r (fun x => k))
  (at level 100, r at next level, right associativity).

(** [grid[y] && grid[y][x]]: [None] is [undefined] (also for a negative
    index). *)
Definition cell_at (g : Grid) (x y : Z) : option Cell :=
  if (0 <=? y) && (0 <=? x)
  then match g !! Z.to_nat y with
       | Some row => row !! Z.to_nat x
       | None => None
       end
  else None.

(** [for (let i = from; i < bound; i += step) body]: the loop runs at most
    [bound - from] times when [step >= 1]. *)
Fixpoint for_loop {S : Type} (fuel : nat) (i bound step : Z)
    (body : Z -> S -> S) (s : S) : S :=
  match fuel with
  | O => s
  | Datatypes.S n =>
      if i <? bound then for_loop n (i + step) bound step body (body i s)
      else s
  end.

Definition for_ {S : Type} (from bound step : Z) (body : Z -> S -> S) (s : S) : S :=
  for_loop (Z.to_nat (bound - from)) from bound step body s.

(** ** Grid generation *)

Definition wallCell : Cell := mkCell true false false false false None.

(** [c.isWall = false; c.isRoad = true] *)
Definition carve (c : Cell) : Cell :=
  mkCell false true (isVisited c) (isPath c) (hasCar c) (carId c).

(** [newGrid[y][x].isWall = false; newGrid[y][x].isRoad = true] for a cell
    that exists. *)
Definition carveAt (x y : Z) (g : Grid) : Grid :=
  alter (alter carve (Z.to_nat x)) (Z.to_nat y) g.

(** The same under the guard [if (newGrid[y] && newGrid[y][x])]. *)
Definition carveAtIfPresent (x y : Z) (g : Grid) : Grid :=
  match cell_at g x y with
  | Some _ => carveAt x y g
  | None => g
  end.

Definition initializeCityGrid (_ : unit) : Grid :=
  let newGrid : Grid :=
    replicate (Z.to_nat GRID_ROWS) (replicate (Z.to_nat GRID_COLS) wallCell) in
  (* main roads (horizontal) *)
  let newGrid :=
    for_ 8 GRID_ROWS 12 (fun y =>
      for_ 0 GRID_COLS 1 (fun x =>
        for_ 0 2 1 (fun roadY g =>
          if y + roadY <? GRID_ROWS then carveAt x (y + roadY) g else g))) newGrid in
  (* main roads (vertical) *)
  let newGrid :=
    for_ 8 GRID_COLS 16 (fun x =>
      for_ 0 GRID_ROWS 1 (fun y =>
        for_ 0 2 1 (fun roadX g =>
          if x + roadX <? GRID_COLS then carveAt (x + roadX) y g else g))) newGrid in
  (* additional connecting roads *)
  let newGrid :=
    for_ 4 GRID_ROWS 24 (fun y =>
      for_ 0 GRID_COLS 1 (fun x g => carveAtIfPresent x y g)) newGrid in
  let newGrid :=
    for_ 4 GRID_COLS 32 (fun x =>
      for_ 0 GRID_ROWS 1 (fun y g => carveAtIfPresent x y g)) newGrid in
  newGrid.

(** ** Neighbour generation *)

(** The array literal of [getNeighbors]; each entry is destructured as
    [[dx, dy]]. *)
Definition directions : list (Z * Z) := [(0, 1); (1, 0); (0, -1); (-1, 0)].

Fixpoint neighborsLoop (dirs : list (Z * Z)) (node : Point) (currentGrid : Grid)
    (neighbors : list Point) : result (list Point) :=
  match dirs with
  | [] => Ok neighbors
  | (dx, dy) :: rest =>
      let newX := pt_x node + dx in
      let newY := pt_y node + dy in
      if (0 <=? newX) && (newX <? GRID_COLS) && (0 <=? newY) && (newY <? GRID_ROWS)
      then match cell_at currentGrid newX newY with
           | None => TypeError
           | Some c =>
               if negb (isWall c) && negb (hasCar c)
               then neighborsLoop rest node currentGrid (neighbors ++ [mkPoint newX newY])
               else neighborsLoop rest node currentGrid neighbors
           end
      else neighborsLoop rest node currentGrid neighbors
  end.

Definition getNeighbors (node : Point) (currentGrid : Grid) : result (list Point) :=
  neighborsLoop directions node currentGrid [].

(** [Math.abs(node.x - goal.x) + Math.abs(node.y - goal.y)] *)
Definition heuristic (node goal : Point) : Z :=
  Z.abs (pt_x node - pt_x goal) + Z.abs (pt_y node - pt_y goal).

(** ** The searches *)

(** [{ path, exploredCount }] *)
Record PathResult := mkResult { path : list Point; exploredCount : Z }.

(** [current.x === end.x && current.y === end.y] *)
Definition samePoint (a b : Point) : bool :=
  (pt_x a =? pt_x b) && (pt_y a =? pt_y b).

(** Fuel of the path reconstruction loop: one more than the number of
    cells. *)
Definition pathFuel : nat := S (Z.to_nat (GRID_ROWS * GRID_COLS)).

(** [while (curr) { path.unshift(curr); curr = parent.get(key(curr)); }] *)
Fixpoint reconstructPath (fuel : nat) (parent : gmap Point Point)
    (curr : Point) (path : list Point) : result (list Point) :=
  match fuel with
  | O => OutOfFuel
  | S n =>
      let path := curr :: path in
      match parent !! curr with
      | Some p => reconstructPath n parent p path
      | None => Ok path
      end
  end.

(** The [for (const neighbor of neighbors)] loop shared, textually, by
    [runDFS] and [runBFS]: both [push] at the end of the frontier. *)
Fixpoint visitNeighbors (neighbors : list Point) (current : Point)
    (frontier : list Point) (visited : gset Point) (parent : gmap Point Point)
    : list Point * gset Point * gmap Point Point :=
  match neighbors with
  | [] => (frontier, visited, parent)
  | neighbor :: rest =>
      if decide (neighbor ∈ visited)
      then visitNeighbors rest current frontier visited parent
      else visitNeighbors rest current (frontier ++ [neighbor])
             ({[neighbor]} ∪ visited) (<[neighbor := current]> parent)
  end.

(** [stack.pop()]: the last element and the rest. *)
Fixpoint pop {A : Type} (l : list A) : option (list A * A) :=
  match l with
  | [] => None
  | a :: l' =>
      match pop l' with
      | None => Some ([], a)
      | Some (r, z) => Some (a :: r, z)
      end
  end.

Fixpoint dfsLoop (fuel : nat) (currentGrid : Grid) (end_ : Point)
    (stack : list Point) (visited : gset Point) (parent : gmap Point Point)
    (exploredCount : Z) : result PathResult :=
  match fuel with
  | O => OutOfFuel
  | S n =>
      match pop stack with
      | None => Ok (mkResult [] exploredCount)
      | Some (stack, current) =>
          let exploredCount := exploredCount + 1 in
          if samePoint current end_
          then path <- reconstructPath pathFuel parent current [] ;;
               Ok (mkResult path exploredCount)
          else neighbors <- getNeighbors current currentGrid ;;
               let '(stack, visited, parent) :=
                 visitNeighbors neighbors current stack visited parent in
               dfsLoop n currentGrid end_ stack visited parent exploredCount
      end
  end.

(** Fuel of the DFS, BFS and A* loops: every iteration takes a cell that
    is taken only once. *)
Definition searchFuel : nat := S (Z.to_nat (GRID_ROWS * GRID_COLS)).

Definition runDFS (currentGrid : Grid) (start end_ : Point) : result PathResult :=
  dfsLoop searchFuel currentGrid end_ [start] {[start]} ∅ 0.

Fixpoint bfsLoop (fuel : nat) (currentGrid : Grid) (end_ : Point)
    (queue : list Point) (visited : gset Point) (parent : gmap Point Point)
    (exploredCount : Z) : result PathResult :=
  match fuel with
  | O => OutOfFuel
  | S n =>
      match queue with
      | [] => Ok (mkResult [] exploredCount)
      | current :: queue =>
          let exploredCount := exploredCount + 1 in
          if samePoint current end_
          then path <- reconstructPath pathFuel parent current [] ;;
               Ok (mkResult path exploredCount)
          else neighbors <- getNeighbors current currentGrid ;;
               let '(queue, visited, parent) :=
                 visitNeighbors neighbors current queue visited parent in
               bfsLoop n currentGrid end_ queue visited parent exploredCount
      end
  end.

Definition runBFS (currentGrid : Grid) (start end_ : Point) : result PathResult :=
  bfsLoop searchFuel currentGrid end_ [start] {[start]} ∅ 0.

(** [list.sort((a, b) => key(a) - key(b))]: the sort of an array is
    stable, so it is the insertion sort that keeps equal keys in order. *)
Fixpoint insertBy {A : Type} (key : A -> Z) (a : A) (l : list A) : list A :=
  match l with
  | [] => [a]
  | b :: l' => if key a <=? key b then a :: b :: l' else b :: insertBy key a l'
  end.

Definition sortBy {A : Type} (key : A -> Z) (l : list A) : list A :=
  foldr (insertBy key) [] l.

(** An entry of the open set of A*: [{ x, y, f, g, h }]. *)
Record ANode := mkANode { a_pt : Point; a_f : Z; a_g : Z; a_h : Z }.

(** [openSet.find(n => n.x === neighbor.x && n.y === neighbor.y)] *)
Definition findNode (neighbor : Point) (openSet : list ANode) : option ANode :=
  find (fun n => samePoint (a_pt n) neighbor) openSet.

(** [existingNode.g = g; existingNode.f = f] on the node [find] returned,
    which is the first match of the array. *)
Fixpoint updateNode (neighbor : Point) (g f : Z) (openSet : list ANode) : list ANode :=
  match openSet with
  | [] => []
  | n :: rest =>
      if samePoint (a_pt n) neighbor
      then mkANode (a_pt n) f g (a_h n) :: rest
      else n :: updateNode neighbor g f rest
  end.

(** The [for (const neighbor of neighbors)] loop of [runAStar]; [cameFrom]
    keeps the coordinates of [current], the only fields read back. *)
Fixpoint astarNeighbors (neighbors : list Point) (current : ANode) (end_ : Point)
    (openSet : list ANode) (closedSet : gset Point) (cameFrom : gmap Point Point)
    : list ANode * gmap Point Point :=
  match neighbors with
  | [] => (openSet, cameFrom)
  | neighbor :: rest =>
      if decide (neighbor ∈ closedSet)
      then astarNeighbors rest current end_ openSet closedSet cameFrom
      else
        let tentativeG := a_g current + 1 in
        match findNode neighbor openSet with
        | None =>
            let h := heuristic neighbor end_ in
            astarNeighbors rest current end_
              (openSet ++ [mkANode neighbor (tentativeG + h) tentativeG h])
              closedSet (<[neighbor := a_pt current]> cameFrom)
        | Some existingNode =>
            if tentativeG <? a_g existingNode
            then
              let h := heuristic neighbor end_ in
              astarNeighbors rest current end_
                (updateNode neighbor tentativeG (tentativeG + h) openSet)
                closedSet (<[neighbor := a_pt current]> cameFrom)
            else astarNeighbors rest current end_ openSet closedSet cameFrom
        end
  end.

Fixpoint astarLoop (fuel : nat) (currentGrid : Grid) (end_ : Point)
    (openSet : list ANode) (closedSet : gset Point) (cameFrom : gmap Point Point)
    (exploredCount : Z) : result PathResult :=
  match fuel with
  | O => OutOfFuel
  | S n =>
      match sortBy a_f openSet with
      | [] => Ok (mkResult [] exploredCount)
      | current :: openSet =>
          if samePoint (a_pt current) end_
          then path <- reconstructPath pathFuel cameFrom (a_pt current) [] ;;
               Ok (mkResult path exploredCount)
          else
            let closedSet := {[a_pt current]} ∪ closedSet in
            let exploredCount := exploredCount + 1 in
            neighbors <- getNeighbors (a_pt current) currentGrid ;;
            let '(openSet, cameFrom) :=
              astarNeighbors neighbors current end_ openSet closedSet cameFrom in
            astarLoop n currentGrid end_ openSet closedSet cameFrom exploredCount
      end
  end.

Definition runAStar (currentGrid : Grid) (start end_ : Point) : result PathResult :=
  astarLoop searchFuel currentGrid end_
    [mkANode start 0 0 (heuristic start end_)] ∅ ∅ 0.

(** An entry of the priority queue of Dijkstra: [{ x, y, dist }]. *)
Record QEntry := mkQEntry { q_pt : Point; q_dist : Z }.

(** [a < b] on distances, where [None] is [Infinity]. *)
Definition distLt (a b : option Z) : bool :=
  match a, b with
  | Some a, Some b => a <? b
  | Some _, None => true
  | None, _ => false
  end.

(** The [for (const neighbor of neighbors)] loop of [runDijkstra].
    [distances] is the 60 x 120 array of the source read at cells of the
    grid only: a cell absent from the map holds [Infinity]. *)
Fixpoint dijkstraNeighbors (neighbors : list Point) (current : Point)
    (distances : gmap Point Z) (parent : gmap Point Point)
    (priorityQueue : list QEntry) (visited : gset Point)
    : gmap Point Z * gmap Point Point * list QEntry :=
  match neighbors with
  | [] => (distances, parent, priorityQueue)
  | neighbor :: rest =>
      if decide (neighbor ∈ visited)
      then dijkstraNeighbors rest current distances parent priorityQueue visited
      else
        let newDist := (fun d => d + 1) <$> distances !! current in
        if distLt newDist (distances !! neighbor)
        then
          match newDist with
          | Some d =>
              dijkstraNeighbors rest current (<[neighbor := d]> distances)
                (<[neighbor := current]> parent)
                (priorityQueue ++ [mkQEntry neighbor d]) visited
          | None =>
              dijkstraNeighbors rest current distances parent priorityQueue visited
          end
        else dijkstraNeighbors rest current distances parent priorityQueue visited
  end.

Fixpoint dijkstraLoop (fuel : nat) (currentGrid : Grid) (end_ : Point)
    (distances : gmap Point Z) (parent : gmap Point Point)
    (priorityQueue : list QEntry) (visited : gset Point)
    (exploredCount : Z) : result PathResult :=
  match fuel with
  | O => OutOfFuel
  | S n =>
      match sortBy q_dist priorityQueue with
      | [] => Ok (mkResult [] exploredCount)
      | current :: priorityQueue =>
          if decide (q_pt current ∈ visited)
          then dijkstraLoop n currentGrid end_ distances parent priorityQueue
                 visited exploredCount
          else
            let visited := {[q_pt current]} ∪ visited in
            let exploredCount := exploredCount + 1 in
            if samePoint (q_pt current) end_
            then path <- reconstructPath pathFuel parent
                           (mkPoint (pt_x end_) (pt_y end_)) [] ;;
                 Ok (mkResult path exploredCount)
            else
              neighbors <- getNeighbors (q_pt current) currentGrid ;;
              let '(distances, parent, priorityQueue) :=
                dijkstraNeighbors neighbors (q_pt current) distances parent
                  priorityQueue visited in
              dijkstraLoop n currentGrid end_ distances parent priorityQueue
                visited exploredCount
      end
  end.

(** Fuel of the Dijkstra loop: an iteration either finalises a cell, and
    pushes at most four entries, or drops a stale entry. *)
Definition dijkstraFuel : nat := S (5 * Z.to_nat (GRID_ROWS * GRID_COLS)).

(** [distances[start.y][start.x] = 0] throws when row [start.y] does not
    exist. *)
Definition runDijkstra (currentGrid : Grid) (start end_ : Point) : result PathResult :=
  if (0 <=? pt_y start) && (pt_y start <? GRID_ROWS)
  then dijkstraLoop dijkstraFuel currentGrid end_ {[start := 0]} ∅
         [mkQEntry start 0] ∅ 0
  else TypeError.

(** ** Cars and the component state *)

(** [{ id, x, y, direction, speed, color, stuckTime }]; [x], [y] and
    [speed] are finite binary64 values, given as the rationals they are. *)
Record Car := mkCar {
  car_id : Z;
  car_x : Q;
  car_y : Q;
  car_direction : Z;
  car_speed : Q;
  car_color : string;
  car_stuckTime : Z
}.

(** The state the functions below read and set; [null] is [None]. *)
Record AppState := mkAppState {
  st_grid : Grid;
  st_cars : list Car;
  st_startPoint : option Point;
  st_endPoint : option Point;
  st_currentPath : list Point
}.

(** The source of [Math.random()]: the values it will return, in order. *)
Definition Rng := nat -> Q.

Definition random (rng : Rng) : Q * Rng := (rng O, fun n => rng (S n)).

Definition Qltb (a b : Q) : bool := negb (Qle_bool b a).

(** [cars.some(car => Math.floor(car.x) === x && Math.floor(car.y) === y)] *)
Definition carAt (cars : list Car) (x y : Z) : bool :=
  existsb (fun car => (Qfloor (car_x car) =? x) && (Qfloor (car_y car) =? y)) cars.

(** The [currentGrid] of [runPathfinding]: the grid with [hasCar] set from
    the cars. *)
Definition snapshotGrid (grid : Grid) (cars : list Car) : Grid :=
  imap (fun y row =>
    imap (fun x cell =>
      mkCell (isWall cell) (isRoad cell) (isVisited cell) (isPath cell)
             (carAt cars (Z.of_nat x) (Z.of_nat y)) (carId cell)) row) grid.

(** The array literal of [moveCars]: right, down, left, up. *)
Definition carDirections : list (Z * Z) := [(1, 0); (0, 1); (-1, 0); (0, -1)].

(** [directions[car.direction]]: [None] is [undefined]. *)
Definition carDirection (d : Z) : option (Z * Z) :=
  if 0 <=? d then carDirections !! Z.to_nat d else None.

(** *** Numbers

    A number of the source is a binary64 value. A finite one is a
    rational and is carried as that rational. [roundDouble q] is the
    binary64 value nearest to the rational [q], the one with the even
    mantissa when two are as near, subnormal values included; the sum, the
    difference and the product of two numbers in the source are the
    rounded exact ones. The exponent has no upper bound here: where the
    source would get [Infinity], the value here lies beyond every binary64
    value, and the tests of [moveCars] take the two alike (out of the
    grid).

    A value of [Math.random()] is any rational of [0, 1), and under
    [Math.floor] its product with a whole number is the exact one. By 2
    and by 4 the product of a binary64 value is exact
    ([fmul_pow2_exact]); by 26 and by [roadCells.length] the floor of the
    rounded product is an index of the same range ([draw_rounded_range]),
    so these draws reach the same indices. *)

(** [2 ^ e], for any integer [e]. *)
Definition pow2 (e : Z) : Q :=
  if 0 <=? e then inject_Z (2 ^ e) else 1 # Z.to_pos (2 ^ (- e)).

(** The [k] with [2 ^ k <= a < 2 ^ (k + 1)], for [a > 0]. *)
Definition floorLog2 (a : Q) : Z :=
  let k := Z.log2 (Qnum a) - Z.log2 (Zpos (Qden a)) in
  if Qle_bool (pow2 k) a then k else k - 1.

(** The exponent of the last bit of the 53-bit mantissa of [q]; it is
    -1074 for the subnormal values. *)
Definition ulpExponent (q : Q) : Z := Z.max (-1074) (floorLog2 (Qabs q) - 52).

(** The nearest integer, the even one of the two at a half. *)
Definition roundHalfEven (x : Q) : Z :=
  let f := Qfloor x in
  match (x - inject_Z f ?= 1 # 2)%Q with
  | Lt => f
  | Gt => f + 1
  | Eq => if Z.even f then f else f + 1
  end.

Definition roundDouble (q : Q) : Q :=
  if Qeq_bool q 0 then 0%Q
  else
    let e := ulpExponent q in
    Qred (inject_Z (roundHalfEven (q / pow2 e)) * pow2 e).

(** [a + b], [a - b] and [a * b] on numbers. *)
Definition fadd (a b : Q) : Q := roundDouble (a + b).
Definition fsub (a b : Q) : Q := roundDouble (a - b).
Definition fmul (a b : Q) : Q := roundDouble (a * b).

(** Whether a rational is a binary64 value. *)
Definition isDouble (q : Q) : bool := Qeq_bool (roundDouble q) q.

(** The binary64 value just below the one of the literal [0.8]; 8/10
    lies between the two. *)
Definition nearBound : Q := (roundDouble (8 # 10) - pow2 (-53))%Q.

(** The candidate position of a car moving by [(dx, dy)]:
    [car.x + dir.dx * car.speed] and [car.y + dir.dy * car.speed]. *)
Definition candidateX (car : Car) (dx : Z) : Q :=
  fadd (car_x car) (fmul (inject_Z dx) (car_speed car)).
Definition candidateY (car : Car) (dy : Z) : Q :=
  fadd (car_y car) (fmul (inject_Z dy) (car_speed car)).

(** The test [nextCellX < 0 || ... || (grid[..] && grid[..][..] && grid[..][..].isWall)] *)
Definition blockedCell (grid : Grid) (nextCellX nextCellY : Z) : bool :=
  (nextCellX <? 0) || (nextCellX >=? GRID_COLS) ||
  (nextCellY <? 0) || (nextCellY >=? GRID_ROWS) ||
  match cell_at grid nextCellX nextCellY with
  | Some c => isWall c
  | None => false
  end.

(** [prevCars.some(otherCar => otherCar.id !== car.id &&
    Math.abs(otherCar.x - newX) < 0.8 && Math.abs(otherCar.y - newY) < 0.8)];
    the literal [0.8] is the binary64 value nearest to 8/10. *)
Definition collides (prevCars : list Car) (car : Car) (newX newY : Q) : bool :=
  existsb (fun otherCar =>
    negb (car_id otherCar =? car_id car) &&
    Qltb (Qabs (fsub (car_x otherCar) newX)) (roundDouble (8 # 10)) &&
    Qltb (Qabs (fsub (car_y otherCar) newY)) (roundDouble (8 # 10))) prevCars.

Definition setDirection (car : Car) (d : Z) (stuck : Z) : Car :=
  mkCar (car_id car) (car_x car) (car_y car) d (car_speed car) (car_color car) stuck.

Definition setStuck (car : Car) (stuck : Z) : Car :=
  mkCar (car_id car) (car_x car) (car_y car) (car_direction car) (car_speed car)
        (car_color car) stuck.

Definition moveTo (car : Car) (newX newY : Q) (d : Z) : Car :=
  mkCar (car_id car) newX newY d (car_speed car) (car_color car) 0.

(** The callback of [prevCars.map] in [moveCars]. *)
Definition moveCar (grid : Grid) (prevCars : list Car) (car : Car) (rng : Rng)
    : result (Car * Rng) :=
  match carDirection (car_direction car) with
  | None => TypeError
  | Some (dx, dy) =>
      let newX := candidateX car dx in
      let newY := candidateY car dy in
      let nextCellX := Qfloor newX in
      let nextCellY := Qfloor newY in
      if blockedCell grid nextCellX nextCellY
      then
        let '(r, rng) := random rng in
        Ok (setDirection car (Qfloor (r * 4)) 0, rng)
      else if collides prevCars car newX newY
      then
        if car_stuckTime car >? 20
        then
          let '(r, rng) := random rng in
          Ok (setDirection car ((car_direction car + 1 + Qfloor (r * 2)) mod 4) 0, rng)
        else Ok (setStuck car (car_stuckTime car + 1), rng)
      else
        let '(r, rng) := random rng in
        if Qltb r (roundDouble (1 # 1000))
        then
          let '(r', rng) := random rng in
          Ok (moveTo car newX newY (Qfloor (r' * 4)), rng)
        else Ok (moveTo car newX newY (car_direction car), rng)
  end.

(** [prevCars.map(car => ...)], left to right. *)
Fixpoint mapCars (grid : Grid) (prevCars : list Car) (cars : list Car) (rng : Rng)
    : result (list Car * Rng) :=
  match cars with
  | [] => Ok ([], rng)
  | car :: rest =>
      r <- moveCar grid prevCars car rng ;;
      r' <- mapCars grid prevCars rest (snd r) ;;
      Ok (fst r :: fst r', snd r')
  end.

(** [moveCars]: [setCars(prevCars => prevCars.map(...))] with the grid of
    the state. *)
Definition moveCars (st : AppState) (rng : Rng) : result (AppState * Rng) :=
  r <- mapCars (st_grid st) (st_cars st) (st_cars st) rng ;;
  Ok (mkAppState (st_grid st) (fst r) (st_startPoint st) (st_endPoint st)
        (st_currentPath st), snd r).

(** [handleCanvasClick]; [offsetX] is [e.clientX - rect.left] and [offsetY]
    is [e.clientY - rect.top]. *)
Definition clickedCell (offsetX offsetY : Q) : Z * Z :=
  (Qfloor (offsetX / inject_Z CELL_SIZE), Qfloor (offsetY / inject_Z CELL_SIZE)).

Definition handleCanvasClick (offsetX offsetY : Q) (st : AppState) : AppState :=
  let '(x, y) := clickedCell offsetX offsetY in
  if (x <? 0) || (x >=? GRID_COLS) || (y <? 0) || (y >=? GRID_ROWS) then st
  else
    match cell_at (st_grid st) x y with
    | Some c =>
        if negb (isWall c) && negb (carAt (st_cars st) x y)
        then
          match st_startPoint st, st_endPoint st with
          | None, _ =>
              mkAppState (st_grid st) (st_cars st) (Some (mkPoint x y))
                (st_endPoint st) (st_currentPath st)
          | Some _, None =>
              mkAppState (st_grid st) (st_cars st) (st_startPoint st)
                (Some (mkPoint x y)) (st_currentPath st)
          | Some _, Some _ =>
              mkAppState (st_grid st) (st_cars st) (Some (mkPoint x y)) None []
          end
        else st
    | None => st
    end.

(** * Specification vocabulary *)

(** ** Grids, traversable cells, routes *)

(** The shape every grid of the program has: [GRID_ROWS] rows of
    [GRID_COLS] cells. *)
Definition wf_grid (g : Grid) : bool :=
  (Z.of_nat (length g) =? GRID_ROWS) &&
  forallb (fun row => Z.of_nat (length row) =? GRID_COLS) g.

Definition in_bounds (p : Point) : bool :=
  (0 <=? pt_x p) && (pt_x p <? GRID_COLS) && (0 <=? pt_y p) && (pt_y p <? GRID_ROWS).

(** [!isWall && !hasCar] on a cell of the grid. *)
Definition traversable (g : Grid) (p : Point) : bool :=
  match cell_at g (pt_x p) (pt_y p) with
  | Some c => negb (isWall c) && negb (hasCar c)
  | None => false
  end.

(** The four cells around [u], in the order of [directions]. *)
Definition candidates (u : Point) : list Point :=
  map (fun d => mkPoint (pt_x u + fst d) (pt_y u + snd d)) directions.

(** What [getNeighbors] computes on a well-formed grid. *)
Definition nbrs (g : Grid) (u : Point) : list Point :=
  List.filter (fun p => in_bounds p && traversable g p) (candidates u).

(** Two cells that share a side. *)
Definition adjacent (a b : Point) : bool :=
  Z.abs (pt_x a - pt_x b) + Z.abs (pt_y a - pt_y b) =? 1.

Fixpoint chain (l : list Point) : bool :=
  match l with
  | a :: (b :: _) as l' => adjacent a b && chain l'
  | _ => true
  end.

(** A traversable route: a list of cells of the grid, all traversable,
    from [start] to [end_], each next to the one before. *)
Definition is_route (g : Grid) (start end_ : Point) (r : list Point) : bool :=
  bool_decide (head r = Some start) &&
  bool_decide (last r = Some end_) &&
  forallb (fun p => in_bounds p && traversable g p) r &&
  chain r.

(** The cells of the grid. *)
Definition allPoints : list Point :=
  y ← seqZ 0 GRID_ROWS; (fun x => mkPoint x y) <$> seqZ 0 GRID_COLS.

Definition universe : gset Point := list_to_set allPoints.

(** The cells of a car, and the invariant on a car of a grid. *)
Definition carCell (c : Car) : Point := mkPoint (Qfloor (car_x c)) (Qfloor (car_y c)).

Definition onRoad (g : Grid) (c : Car) : bool :=
  in_bounds (carCell c) &&
  match cell_at g (pt_x (carCell c)) (pt_y (carCell c)) with
  | Some cell => negb (isWall cell)
  | None => false
  end.

(** The carving rules of the city grid. *)
Definition horizontalBand (y : Z) : Prop :=
  exists k, 0 <= k /\ (y = 8 + 12 * k \/ y = 8 + 12 * k + 1).
Definition verticalBand (x : Z) : Prop :=
  exists k, 0 <= k /\ (x = 8 + 16 * k \/ x = 8 + 16 * k + 1).
Definition horizontalConnector (y : Z) : Prop := y = 4 \/ y = 28 \/ y = 52.
Definition verticalConnector (x : Z) : Prop := x = 4 \/ x = 36 \/ x = 68 \/ x = 100.

Definition carved (x y : Z) : Prop :=
  horizontalBand y \/ verticalBand x \/ horizontalConnector y \/ verticalConnector x.

Definition carvedb (x y : Z) : bool :=
  ((8 <=? y) && (((y - 8) mod 12 =? 0) || ((y - 8) mod 12 =? 1))) ||
  ((8 <=? x) && (((x - 8) mod 16 =? 0) || ((x - 8) mod 16 =? 1))) ||
  ((y =? 4) || (y =? 28) || (y =? 52)) ||
  ((x =? 4) || (x =? 36) || (x =? 68) || (x =? 100)).

Section SearchSpec.

Variable g : Grid.
Variable start end_ : Point.

(** The set of the cells a search can reach; it is [universe] in the end. *)
Variable U : gset Point.

(** [walk a n b]: [n] steps of [nbrs] lead from [a] to [b]. *)
Inductive walk (a : Point) : nat -> Point -> Prop :=
| walk_O : walk a O a
| walk_S n u v : walk a n u -> v ∈ nbrs g u -> walk a (S n) v.

(** [d] is the least number of steps from [start] to [v]. *)
Definition isDist (v : Point) (d : nat) : Prop :=
  walk start d v /\ forall n, walk start n v -> (d <= n)%nat.

(** [l] lists the cells of a walk from [start] to [v]. *)
Inductive pathTo : Point -> list Point -> Prop :=
| pathTo_start : pathTo start [start]
| pathTo_step u v l : pathTo u l -> v ∈ nbrs g u -> pathTo v (l ++ [v]).

(** What a search returns: no path when [end_] cannot be reached, and
    otherwise the cells of a walk from [start] to [end_]. *)
Definition foundOrNone (r : PathResult) : Prop :=
  0 <= exploredCount r <= GRID_ROWS * GRID_COLS /\
  ((path r = [] /\ forall n, ~ walk start n end_) \/ pathTo end_ (path r)).

(** The same with a shortest walk. *)
Definition shortestOrNone (r : PathResult) : Prop :=
  0 <= exploredCount r <= GRID_ROWS * GRID_COLS /\
  ((path r = [] /\ forall n, ~ walk start n end_) \/
   (exists d, isDist end_ d /\ pathTo end_ (path r) /\ length (path r) = S d)).

(** A search that returns no path has explored exactly the cells that can
    be reached from [start]: its count is their number. *)
Definition exploresAll (r : PathResult) : Prop :=
  path r = [] ->
  exists V : gset Point,
    (forall v, v ∈ V <-> exists n, walk start n v) /\
    exploredCount r = Z.of_nat (size V).

(** *** Invariant of the DFS and BFS loops

    [depth] is a ghost: the number of parent links from a visited cell
    to [start]. Inside the loop over the neighbours of [cur], [todo]
    lists the neighbours not looked at yet; between iterations it is
    empty. *)
Record searchInv (depth : Point -> nat) (cur : Point) (todo : list Point)
    (frontier : list Point) (visited : gset Point) (parent : gmap Point Point)
    (count : Z) : Prop := {
  si_start : start ∈ visited;
  si_universe : visited ⊆ U;
  si_nodup : NoDup frontier;
  si_frontier : forall q, q ∈ frontier -> q ∈ visited;
  si_done : forall v, v ∈ visited -> v ∉ frontier ->
            v <> end_ /\
            forall w, w ∈ nbrs g v -> (v = cur /\ w ∈ todo) \/ w ∈ visited;
  si_parent_start : parent !! start = None /\ depth start = O;
  si_parent : forall v, v ∈ visited -> v <> start ->
            exists p, parent !! v = Some p /\ p ∈ visited /\
                      v ∈ nbrs g p /\ depth v = S (depth p);
  si_depth : forall v, v ∈ visited -> (depth v < size visited)%nat;
  si_count : Z.of_nat (size visited) = count + Z.of_nat (length frontier)
}.

(** The extra invariant of the BFS queue: depths are distances, and the
    queue holds cells of level [lo] followed by cells of level
    [lo + 1]. *)
Record bfsInv (depth : Point -> nat) (lo : nat) (queue : list Point)
    (visited : gset Point) : Prop := {
  bi_dist : forall v, v ∈ visited -> isDist v (depth v);
  bi_levels : exists q1 q2, queue = q1 ++ q2 /\
              (forall q, q ∈ q1 -> depth q = lo) /\
              (forall q, q ∈ q2 -> depth q = S lo)
}.

(** *** Invariant of the Dijkstra loop *)
Record dijkstraInv (cur : Point) (todo : list Point)
    (distances : gmap Point Z) (parent : gmap Point Point)
    (pq : list QEntry) (visited : gset Point) (count : Z) : Prop := {
  di_start : distances !! start = Some 0;
  di_walk : forall w k, distances !! w = Some k ->
            0 <= k /\ walk start (Z.to_nat k) w /\ w ∈ U;
  di_final : forall v, v ∈ visited ->
            v <> end_ /\
            exists d, distances !! v = Some (Z.of_nat d) /\ isDist v d /\
                      (d < size visited)%nat /\
                      forall w, w ∈ nbrs g v ->
                        (v = cur /\ w ∈ todo) \/
                        exists k, distances !! w = Some k /\ k <= Z.of_nat d + 1;
  di_queue : forall e, e ∈ pq ->
            exists k, distances !! q_pt e = Some k /\ k <= q_dist e;
  di_pending : forall w k, distances !! w = Some k -> w ∉ visited ->
            exists e, e ∈ pq /\ q_pt e = w /\ q_dist e = k;
  di_parent_start : parent !! start = None;
  di_parent : forall w k, distances !! w = Some k -> w <> start ->
            exists p d, parent !! w = Some p /\ p ∈ visited /\
                        distances !! p = Some (Z.of_nat d) /\ isDist p d /\
                        k = Z.of_nat d + 1 /\ w ∈ nbrs g p;
  di_count : count = Z.of_nat (size visited)
}.

(** *** Invariant of the A* loop, once [start] is closed *)
Record astarInv (cur : Point) (todo : list Point)
    (openSet : list ANode) (closedSet : gset Point)
    (cameFrom : gmap Point Point) (count : Z) : Prop := {
  ai_nodup : NoDup (a_pt <$> openSet);
  ai_open : forall n, n ∈ openSet ->
            (a_pt n ∉ closedSet) /\ a_pt n ∈ U /\
            a_f n = a_g n + heuristic (a_pt n) end_ /\
            exists p d, cameFrom !! a_pt n = Some p /\ p ∈ closedSet /\
                        isDist p d /\ a_g n = Z.of_nat d + 1 /\
                        a_pt n ∈ nbrs g p;
  ai_start : start ∈ closedSet /\ cameFrom !! start = None;
  ai_universe : closedSet ⊆ U;
  ai_closed : forall v, v ∈ closedSet ->
            v <> end_ /\
            exists d, isDist v d /\ (d < size closedSet)%nat /\
                      forall w, w ∈ nbrs g v ->
                        (v = cur /\ w ∈ todo) \/ w ∈ closedSet \/
                        exists n, n ∈ openSet /\ a_pt n = w /\
                                  a_g n <= Z.of_nat d + 1;
  ai_parent : forall v, v ∈ closedSet -> v <> start ->
            exists p d, cameFrom !! v = Some p /\ p ∈ closedSet /\
                        isDist p d /\ isDist v (S d) /\ v ∈ nbrs g p;
  ai_count : count = Z.of_nat (size closedSet)
}.

End SearchSpec.


(** The check of a grid against the carving rules, cell by cell. *)
Definition cellOk (g : Grid) (x y : Z) : bool :=
  match cell_at g x y with
  | Some c =>
      bool_decide (c = mkCell (negb (carvedb x y)) (carvedb x y) false false false None)
  | None => false
  end.

Definition cellsOk (g : Grid) : bool :=
  forallb (fun y => forallb (fun x => cellOk g x y) (seqZ 0 GRID_COLS))
          (seqZ 0 GRID_ROWS).

(** A snapshot in which every cell is a road without a car. *)
Definition openGrid : Grid :=
  replicate (Z.to_nat GRID_ROWS)
    (replicate (Z.to_nat GRID_COLS) (mkCell false true false false false None)).

(** [directions[car.direction]] is defined. *)
Definition validDirection (c : Car) : bool :=
  (0 <=? car_direction c) && (car_direction c <? 4).

(** The numbers of a car are binary64 values. *)
Definition carNumbers (c : Car) : bool :=
  isDouble (car_x c) && isDouble (car_y c) && isDouble (car_speed c).

(** The random stream after [k] draws. *)
Definition shiftRng (k : nat) (rng : Rng) : Rng := fun n => rng (k + n)%nat.

(** A state with three cars on the city grid, two of them close to each
    other on the road of row 8, and a random stream. *)
Definition demoCars : list Car :=
  [ mkCar 0 (10 # 1) (8 # 1) 0 (1 # 2) "#FF6B6B"%string 0;
    mkCar 1 (21 # 2) (8 # 1) 2 (1 # 4) "#4ECDC4"%string 21;
    mkCar 2 (4 # 1) (3 # 1) 0 (1 # 2) "#45B7D1"%string 5 ].

Definition demoState : AppState :=
  mkAppState (initializeCityGrid tt) demoCars None None [].

Definition demoRng : Rng := fun n => (1 # 2)%Q.

(** The five ways the callback of [moveCars] returns. *)
Inductive moveOutcome (grid : Grid) (prevCars : list Car) (car : Car) (rng : Rng)
    (dx dy : Z) : Car -> Rng -> Prop :=
| mo_blocked :
    blockedCell grid (Qfloor (candidateX car dx)) (Qfloor (candidateY car dy)) = true ->
    moveOutcome grid prevCars car rng dx dy
      (setDirection car (Qfloor (rng O * 4)) 0) (shiftRng 1 rng)
| mo_escalate :
    blockedCell grid (Qfloor (candidateX car dx)) (Qfloor (candidateY car dy)) = false ->
    collides prevCars car (candidateX car dx) (candidateY car dy) = true ->
    car_stuckTime car > 20 ->
    moveOutcome grid prevCars car rng dx dy
      (setDirection car ((car_direction car + 1 + Qfloor (rng O * 2)) mod 4) 0)
      (shiftRng 1 rng)
| mo_wait :
    blockedCell grid (Qfloor (candidateX car dx)) (Qfloor (candidateY car dy)) = false ->
    collides prevCars car (candidateX car dx) (candidateY car dy) = true ->
    car_stuckTime car <= 20 ->
    moveOutcome grid prevCars car rng dx dy
      (setStuck car (car_stuckTime car + 1)) rng
| mo_turn :
    blockedCell grid (Qfloor (candidateX car dx)) (Qfloor (candidateY car dy)) = false ->
    collides prevCars car (candidateX car dx) (candidateY car dy) = false ->
    Qltb (rng O) (roundDouble (1 # 1000)) = true ->
    moveOutcome grid prevCars car rng dx dy
      (moveTo car (candidateX car dx) (candidateY car dy) (Qfloor (rng 1%nat * 4)))
      (shiftRng 2 rng)
| mo_move :
    blockedCell grid (Qfloor (candidateX car dx)) (Qfloor (candidateY car dy)) = false ->
    collides prevCars car (candidateX car dx) (candidateY car dy) = false ->
    Qltb (rng O) (roundDouble (1 # 1000)) = false ->
    moveOutcome grid prevCars car rng dx dy
      (moveTo car (candidateX car dx) (candidateY car dy) (car_direction car))
      (shiftRng 1 rng).

(** [r] is the stream [rng] after some draws. *)
Definition rngSuffix (rng r : Rng) : Prop :=
  exists k, forall n, r n = rng (k + n)%nat.

(** One car of a tick: the callback ran on [car] with the cars of the
    previous tick and some suffix of the random stream. *)
Definition tickOf (grid : Grid) (prevCars : list Car) (rng : Rng)
    (car car' : Car) : Prop :=
  exists dx dy r r',
    carDirection (car_direction car) = Some (dx, dy) /\
    rngSuffix rng r /\
    moveOutcome grid prevCars car r dx dy car' r'.

(** A snapshot with two traversable cells, (0, 0) and (5, 5), in a grid of
    walls: two pockets with no route between them. *)
Definition islandGrid : Grid :=
  carveAt 0 0 (carveAt 5 5
    (replicate (Z.to_nat GRID_ROWS) (replicate (Z.to_nat GRID_COLS) wallCell))).

(** ** The animation loop *)

(** [n] frames of the animation loop: [animate] calls [moveCars] once per
    frame. *)
Fixpoint ticks (n : nat) (st : AppState) (rng : Rng) : result (AppState * Rng) :=
  match n with
  | O => Ok (st, rng)
  | S k => r <- moveCars st rng ;; ticks k (fst r) (snd r)
  end.

(** A car the tick can handle: one of the four directions, a cell of the
    grid that is not a wall, and a [stuckTime] between 0 and 21. *)
Definition carOk (g : Grid) (c : Car) : bool :=
  validDirection c && onRoad g c &&
  (0 <=? car_stuckTime c) && (car_stuckTime c <=? 21).

(** Every value of the random stream is in [0, 1), as [Math.random()]
    promises. *)
Definition rngOk (rng : Rng) : Prop := forall n, (0 <= rng n)%Q /\ (rng n < 1)%Q.

(** ** Selections *)

(** A cell that can be selected: within the bounds, present in the grid
    and not a wall. *)
Definition selectable (g : Grid) (p : Point) : Prop :=
  in_bounds p = true /\
  exists c, cell_at g (pt_x p) (pt_y p) = Some c /\ isWall c = false.

(** The selection of a state is in order: the points that are set are
    selectable cells, and the end point is only set when the start point
    is. *)
Definition selectionOk (st : AppState) : Prop :=
  (forall p, st_startPoint st = Some p -> selectable (st_grid st) p) /\
  (forall p, st_endPoint st = Some p -> selectable (st_grid st) p) /\
  (st_startPoint st = None -> st_endPoint st = None).

(** A sequence of clicks, each given by its offsets in the canvas. *)
Definition clicks (l : list (Q * Q)) (st : AppState) : AppState :=
  foldl (fun s o => handleCanvasClick (fst o) (snd o) s) st l.

(** ** The road network of the city grid *)

(** The cell next to [p] on the way to the crossing at (8, 8): along
    column 8 when [p] is on it, else along the row of [p] when it is a road
    row, else along the column of [p]. *)
Definition stepTo (target v : Z) : Z :=
  if v <? target then v + 1 else if target <? v then v - 1 else v.

Definition roadRow (y : Z) : bool :=
  ((8 <=? y) && (((y - 8) mod 12 =? 0) || ((y - 8) mod 12 =? 1))) ||
  (y =? 4) || (y =? 28) || (y =? 52).

Definition towardHub (p : Point) : Point :=
  if pt_x p =? 8 then mkPoint 8 (stepTo 8 (pt_y p))
  else if roadRow (pt_y p) then mkPoint (stepTo 8 (pt_x p)) (pt_y p)
  else mkPoint (pt_x p) (stepTo 8 (pt_y p)).

(** The check that [towardHub] stays on the roads of a grid and gets
    closer to (8, 8), for every cell of the grid. *)
Definition hubStepOk (g : Grid) (p : Point) : bool :=
  negb (traversable g p) || bool_decide (p = mkPoint 8 8) ||
  (in_bounds (towardHub p) && traversable g (towardHub p) &&
   adjacent p (towardHub p) &&
   (heuristic (towardHub p) (mkPoint 8 8) <? heuristic p (mkPoint 8 8))).

Definition hubStepsOk (g : Grid) : bool := forallb (hubStepOk g) allPoints.

(** ** Spawning the cars *)

Definition CAR_COLORS : list string :=
  [ "#FF6B6B"; "#4ECDC4"; "#45B7D1"; "#96CEB4"; "#FFEAA7";
    "#DDA0DD"; "#FF9F43"; "#6AB04C"; "#EB4D4B"; "#7F8C8D";
    "#E056FD"; "#686DE0"; "#30336B"; "#95A5A6"; "#F1C40F" ]%string.

(** [array[i]] for a number [i]: [None] is [undefined]. *)
Definition lookupIndex {A : Type} (l : list A) (i : Z) : option A :=
  if 0 <=? i then l !! Z.to_nat i else None.

(** The two loops of [generateCars] that collect the road cells, row by
    row; reading [grid[y][x].isRoad] throws when the cell is missing. *)
Definition roadCellsOf (grid : Grid) : result (list Point) :=
  for_ 0 GRID_ROWS 1 (fun y =>
    for_ 0 GRID_COLS 1 (fun x acc =>
      roadCells <- acc ;;
      match cell_at grid x y with
      | Some c => Ok (if isRoad c then roadCells ++ [mkPoint x y] else roadCells)
      | None => TypeError
      end)) (Ok []).

(** The [do ... while] loop that draws a road cell: it stops on a free
    cell or after [maxAttempts] = 10 draws. Reading [randomRoad.x] throws
    when the index is outside [roadCells]. *)
Fixpoint pickRoad (fuel : nat) (roadCells : list Point) (occupiedCells : gset Point)
    (attempts : Z) (rng : Rng) : result (Point * Z * Rng) :=
  match fuel with
  | O => OutOfFuel
  | S n =>
      let '(r, rng) := random rng in
      match lookupIndex roadCells
              (Qfloor (r * inject_Z (Z.of_nat (length roadCells)))) with
      | None => TypeError
      | Some randomRoad =>
          let attempts := attempts + 1 in
          if bool_decide (randomRoad ∈ occupiedCells) && (attempts <? 10)
          then pickRoad n roadCells occupiedCells attempts rng
          else Ok (randomRoad, attempts, rng)
      end
  end.

(** The body of [for (let i = 0; i < numCars; i++)]; [i % 15] is always an
    index of [CAR_COLORS]. *)
Definition spawnCar (roadCells : list Point) (i : Z)
    (s : list Car * gset Point * Rng) : result (list Car * gset Point * Rng) :=
  let '(newCars, occupiedCells, rng) := s in
  pick <- pickRoad 10 roadCells occupiedCells 0 rng ;;
  let '(randomRoad, attempts, rng) := pick in
  if attempts >=? 10 then Ok (newCars, occupiedCells, rng)
  else
    let occupiedCells := {[randomRoad]} ∪ occupiedCells in
    let '(r1, rng) := random rng in
    let direction := Qfloor (r1 * 4) in
    let '(r2, rng) := random rng in
    let speed := fadd (roundDouble (2 # 10)) (fmul r2 (roundDouble (5 # 10))) in
    let color := nth (Z.to_nat (i mod Z.of_nat (length CAR_COLORS))) CAR_COLORS ""%string in
    Ok (newCars ++
          [mkCar i (inject_Z (pt_x randomRoad)) (inject_Z (pt_y randomRoad))
             direction speed color 0],
        occupiedCells, rng).

Definition generateCars (grid : Grid) (rng : Rng) : result (list Car * Rng) :=
  roadCells <- roadCellsOf grid ;;
  let '(r, rng) := random rng in
  let numCars := 50 + Qfloor (r * 26) in
  s <- for_ 0 numCars 1 (fun i acc => s <- acc ;; spawnCar roadCells i s)
         (Ok ([], ∅, rng)) ;;
  Ok (fst (fst s), snd s).

(** ** Path finding from the state, statistics, reset *)

(** [{ nodesExplored, pathLength, executionTime, recalculations }] *)
Record Stats := mkStats {
  nodesExplored : Z;
  pathLength : Z;
  executionTime : Q;
  recalculations : Z
}.

(** The whole state of the component: the part the clicks and the ticks
    work on, and the rest. *)
Record SimState := mkSimState {
  ss_app : AppState;
  ss_algorithm : string;
  ss_isSimulationRunning : bool;
  ss_isPathfinding : bool;
  ss_visitedNodes : gset Point;
  ss_stats : Stats
}.

(** The [if ... else if] chain on [algorithm]; with another string
    [result] stays [undefined]. *)
Definition runAlgorithm (algorithm : string) (currentGrid : Grid)
    (startPoint endPoint : Point) : result (option PathResult) :=
  if String.eqb algorithm "astar" then r <- runAStar currentGrid startPoint endPoint ;; Ok (Some r)
  else if String.eqb algorithm "bfs" then r <- runBFS currentGrid startPoint endPoint ;; Ok (Some r)
  else if String.eqb algorithm "dfs" then r <- runDFS currentGrid startPoint endPoint ;; Ok (Some r)
  else if String.eqb algorithm "dijkstra" then r <- runDijkstra currentGrid startPoint endPoint ;; Ok (Some r)
  else Ok None.

(** [runPathfinding], run to its end without a tick or a click in
    between; [startTime] and [endTime] are the two values of [Date.now()].
    The three setters before the search are applied even when the search
    or the read of [result.path] throws ([result] is [undefined] with an
    unknown algorithm), so the state left behind is returned beside the
    outcome. *)
Definition runPathfinding (startTime endTime : Z) (s : SimState)
    : SimState * result unit :=
  match st_startPoint (ss_app s), st_endPoint (ss_app s) with
  | Some startPoint, Some endPoint =>
      if ss_isPathfinding s then (s, Ok tt)
      else
        let app := ss_app s in
        let started :=
          mkSimState
            (mkAppState (st_grid app) (st_cars app) (st_startPoint app)
               (st_endPoint app) [])
            (ss_algorithm s) (ss_isSimulationRunning s) true ∅ (ss_stats s) in
        let currentGrid := snapshotGrid (st_grid app) (st_cars app) in
        match runAlgorithm (ss_algorithm s) currentGrid startPoint endPoint with
        | Ok (Some r) =>
            let executionTime := (inject_Z (endTime - startTime) / 1000)%Q in
            (mkSimState
               (mkAppState (st_grid app) (st_cars app) (st_startPoint app)
                  (st_endPoint app) (path r))
               (ss_algorithm s) (ss_isSimulationRunning s) false ∅
               (mkStats (exploredCount r) (Z.of_nat (length (path r)))
                  executionTime (recalculations (ss_stats s) + 1)),
             Ok tt)
        | Ok None => (started, TypeError)
        | TypeError => (started, TypeError)
        | OutOfFuel => (started, OutOfFuel)
        end
  | _, _ => (s, Ok tt)
  end.

(** [resetSimulation] *)
Definition resetSimulation (s : SimState) (rng : Rng) : result (SimState * Rng) :=
  let newGrid := initializeCityGrid tt in
  r <- generateCars newGrid rng ;;
  Ok (mkSimState (mkAppState newGrid (fst r) None None [])
        (ss_algorithm s) false (ss_isPathfinding s) (ss_visitedNodes s)
        (mkStats 0 0 0 0), snd r).

(** The state the component is created with: the initial values of its
    [useState] calls. *)
Definition mountState : SimState :=
  mkSimState (mkAppState [] [] None None []) "astar" false false ∅ (mkStats 0 0 0 0).

(** The state after the first effect of the component: the city grid, its
    cars, A* selected, nothing else set. *)
Definition initialState (rng : Rng) : result (SimState * Rng) :=
  let initialGrid := initializeCityGrid tt in
  r <- generateCars initialGrid rng ;;
  Ok (mkSimState (mkAppState initialGrid (fst r) None None [])
        "astar" false false ∅ (mkStats 0 0 0 0), snd r).

(** The road cells of a grid, row by row. *)
Definition roadPoints (g : Grid) : list Point :=
  List.filter (fun p => match cell_at g (pt_x p) (pt_y p) with
                        | Some c => isRoad c
                        | None => false
                        end) allPoints.

(** A random stream that goes round four values. *)
Definition cycleRng : Rng :=
  fun n => nth (n mod 4)%nat [(1 # 3); (7 # 10); (1 # 100); (9 # 10)]%Q 0%Q.

(** What [generateCars] gives a car it spawns before index [i]. *)
Definition spawnedCar (roadCells : list Point) (i : Z) (c : Car) : Prop :=
  carCell c ∈ roadCells /\
  car_x c = inject_Z (pt_x (carCell c)) /\
  car_y c = inject_Z (pt_y (carCell c)) /\
  0 <= car_direction c < 4 /\
  ((2 # 10) <= car_speed c)%Q /\ (car_speed c < (7 # 10))%Q /\
  car_stuckTime c = 0 /\
  0 <= car_id c < i /\
  car_color c ∈ CAR_COLORS /\
  isDouble (car_speed c) = true.

(** Invariant of the spawning loop before index [i]. *)
Definition spawnInv (roadCells : list Point) (rng : Rng) (i : Z)
    (s : list Car * gset Point * Rng) : Prop :=
  rngSuffix rng (snd s) /\
  (forall p, p ∈ snd (fst s) <-> p ∈ map carCell (fst (fst s))) /\
  NoDup (map carCell (fst (fst s))) /\
  NoDup (map car_id (fst (fst s))) /\
  Z.of_nat (length (fst (fst s))) <= i /\
  Forall (spawnedCar roadCells i) (fst (fst s)).

(** A grid of walls: it has no road cell. *)
Definition wallGrid : Grid :=
  replicate (Z.to_nat GRID_ROWS) (replicate (Z.to_nat GRID_COLS) wallCell).

(** The state of the demonstration with both points selected on the road
    of row 8, and a given algorithm. *)
Definition demoSim (algorithm : string) : SimState :=
  mkSimState
    (mkAppState (initializeCityGrid tt) demoCars (Some (mkPoint 8 8))
       (Some (mkPoint 40 8)) [])
    algorithm true false ∅ (mkStats 0 0 0 0).

(** * Proofs *)

(** ** The grid *)

Lemma wf_grid_cell g x y :
  wf_grid g = true -> 0 <= x < GRID_COLS -> 0 <= y < GRID_ROWS ->
  exists c, cell_at g x y = Some c.
Proof.
  unfold wf_grid, cell_at. intros Hwf Hx Hy.
  apply andb_true_iff in Hwf as [Hlen Hrows].
  apply Z.eqb_eq in Hlen.
  replace ((0 <=? y) && (0 <=? x)) with true
    by (symmetry; apply andb_true_iff; split; apply Z.leb_le; lia).
  destruct (lookup_lt_is_Some_2 g (Z.to_nat y)) as [row Hrow]; [lia|].
  rewrite Hrow.
  rewrite forallb_forall in Hrows.
  assert (In row g) as Hin
    by (apply list_elem_of_In, list_elem_of_lookup; eauto).
  apply Hrows, Z.eqb_eq in Hin.
  destruct (lookup_lt_is_Some_2 row (Z.to_nat x)) as [c Hc]; [lia|].
  eauto.
Qed.

Lemma in_bounds_spec p :
  in_bounds p = true <-> 0 <= pt_x p < GRID_COLS /\ 0 <= pt_y p < GRID_ROWS.
Proof.
  unfold in_bounds. rewrite !andb_true_iff, !Z.leb_le, !Z.ltb_lt. lia.
Qed.

Lemma cityGrid_cells : cellsOk (initializeCityGrid tt) = true.
Proof. vm_compute. reflexivity. Qed.

Lemma cellsOk_cell g x y :
  cellsOk g = true -> 0 <= x < GRID_COLS -> 0 <= y < GRID_ROWS ->
  cell_at g x y =
    Some (mkCell (negb (carvedb x y)) (carvedb x y) false false false None).
Proof.
  intros H Hx Hy. unfold cellsOk in H.
  rewrite forallb_forall in H.
  specialize (H y). rewrite forallb_forall in H.
  assert (cellOk g x y = true) as Hok.
  { apply H; apply list_elem_of_In, elem_of_seqZ; lia. }
  clear H. unfold cellOk in Hok.
  destruct (cell_at g x y) as [c|]; [|discriminate].
  apply bool_decide_eq_true in Hok. rewrite Hok. reflexivity.
Qed.

Lemma cityGrid_cell x y :
  0 <= x < GRID_COLS -> 0 <= y < GRID_ROWS ->
  cell_at (initializeCityGrid tt) x y =
    Some (mkCell (negb (carvedb x y)) (carvedb x y) false false false None).
Proof. exact (cellsOk_cell _ x y cityGrid_cells). Qed.

Lemma cityGrid_wf : wf_grid (initializeCityGrid tt) = true.
Proof. vm_compute. reflexivity. Qed.

Lemma carvedb_spec x y :
  0 <= x < GRID_COLS -> 0 <= y < GRID_ROWS ->
  carvedb x y = true <-> carved x y.
Proof.
  unfold GRID_COLS, GRID_ROWS, carvedb, carved, horizontalBand, verticalBand,
    horizontalConnector, verticalConnector.
  intros Hx Hy.
  rewrite !orb_true_iff, !andb_true_iff, !orb_true_iff, !Z.eqb_eq, !Z.leb_le.
  split.
  - intros [[[[H8 Hm]|[H8 Hm]]|H]|H].
    + left. exists ((y - 8) / 12). Z.div_mod_to_equations. lia.
    + right; left. exists ((x - 8) / 16). Z.div_mod_to_equations. lia.
    + right; right; left. lia.
    + right; right; right. lia.
  - intros [(k & Hk & H)|[(k & Hk & H)|[H|H]]].
    + left; left; left. Z.div_mod_to_equations. lia.
    + left; left; right. Z.div_mod_to_equations. lia.
    + left; right. lia.
    + right. lia.
Qed.

(** C4. [initializeCityGrid] takes no input and draws no random number, so
    every call returns the same grid; the grid has 60 rows of 120 cells, and
    the cell at [(x, y)] is a road ([isRoad], not [isWall]) exactly when a
    carving rule covers it and a wall (not a road) otherwise; its other
    fields keep their initial values. *)
Theorem C4_city_grid_roads :
  (forall u1 u2, initializeCityGrid u1 = initializeCityGrid u2) /\
  wf_grid (initializeCityGrid tt) = true /\
  forall x y, 0 <= x < GRID_COLS -> 0 <= y < GRID_ROWS ->
    exists c, cell_at (initializeCityGrid tt) x y = Some c /\
      (isRoad c = true /\ isWall c = false <-> carved x y) /\
      (isWall c = true /\ isRoad c = false <-> ~ carved x y) /\
      isRoad c = negb (isWall c) /\
      isVisited c = false /\ isPath c = false /\ hasCar c = false /\ carId c = None.
Proof.
  split; [intros [] []; reflexivity|]. split; [apply cityGrid_wf|].
  intros x y Hx Hy. eexists. split; [apply cityGrid_cell; assumption|].
  pose proof (carvedb_spec x y Hx Hy) as Hc. simpl.
  destruct (carvedb x y); simpl.
  - assert (carved x y) as Hcv by (by apply Hc).
    repeat split; try done. intros [? _]. discriminate.
  - assert (~ carved x y) as Hcv by (intros Hcv; apply Hc in Hcv; discriminate).
    repeat split; try done. intros [? _]. discriminate.
Qed.

Lemma C4_city_grid_roads_witness :
  exists c, cell_at (initializeCityGrid tt) 9 20 = Some c /\
    (isRoad c = true /\ isWall c = false <-> carved 9 20) /\
    (isWall c = true /\ isRoad c = false <-> ~ carved 9 20) /\
    isRoad c = negb (isWall c) /\
    isVisited c = false /\ isPath c = false /\ hasCar c = false /\ carId c = None.
Proof.
  apply (proj2 (proj2 C4_city_grid_roads) 9 20); unfold GRID_COLS, GRID_ROWS; lia.
Defined.

(** ** Neighbour generation *)

Lemma neighborsLoop_nbrs g u dirs acc :
  wf_grid g = true ->
  neighborsLoop dirs u g acc =
    Ok (acc ++ List.filter (fun p => in_bounds p && traversable g p)
                 (map (fun d => mkPoint (pt_x u + fst d) (pt_y u + snd d)) dirs)).
Proof.
  intros Hwf. revert acc.
  induction dirs as [|[dx dy] dirs IH]; intros acc; simpl.
  - by rewrite app_nil_r.
  - unfold in_bounds at 1, traversable at 1. simpl.
    destruct ((0 <=? pt_x u + dx) && (pt_x u + dx <? GRID_COLS) &&
              (0 <=? pt_y u + dy) && (pt_y u + dy <? GRID_ROWS)) eqn:Hb; simpl.
    + destruct (wf_grid_cell g (pt_x u + dx) (pt_y u + dy) Hwf) as [c Hc].
      { rewrite !andb_true_iff, !Z.leb_le, !Z.ltb_lt in Hb. lia. }
      { rewrite !andb_true_iff, !Z.leb_le, !Z.ltb_lt in Hb. lia. }
      rewrite Hc.
      destruct (negb (isWall c) && negb (hasCar c)).
      * rewrite IH. by rewrite <- app_assoc.
      * apply IH.
    + apply IH.
Qed.

Lemma getNeighbors_nbrs g u :
  wf_grid g = true -> getNeighbors u g = Ok (nbrs g u).
Proof.
  intros Hwf. unfold getNeighbors. by rewrite neighborsLoop_nbrs.
Qed.

Lemma elem_of_nbrs g u v :
  v ∈ nbrs g u <->
  v ∈ candidates u /\ in_bounds v = true /\ traversable g v = true.
Proof.
  unfold nbrs. rewrite list_elem_of_In, filter_In, andb_true_iff.
  by rewrite <- list_elem_of_In.
Qed.

Lemma elem_of_candidates u v :
  v ∈ candidates u <-> adjacent u v = true.
Proof.
  unfold candidates, directions, adjacent. simpl.
  rewrite !elem_of_cons, elem_of_nil, Z.eqb_eq.
  destruct u as [ux uy], v as [vx vy]. simpl. split.
  - intros [H|[H|[H|[H|[]]]]]; inversion H; subst; lia.
  - intros H.
    assert ((vx = ux + 0 /\ vy = uy + 1) \/ (vx = ux + 1 /\ vy = uy + 0) \/
            (vx = ux + 0 /\ vy = uy + -1) \/ (vx = ux + -1 /\ vy = uy + 0))
      as [[-> ->]|[[-> ->]|[[-> ->]|[-> ->]]]] by lia; auto.
Qed.

Lemma nbrs_length g u : (length (nbrs g u) <= 4)%nat.
Proof.
  unfold nbrs. etransitivity; [apply List.filter_length_le|]. reflexivity.
Qed.

(** C2. At the cell (5, 5) of a snapshot where every cell is traversable,
    [getNeighbors] returns the four neighbours in the order South, East,
    North, West: [(5, 6); (6, 5); (5, 4); (4, 5)], not East, South, West,
    North: [(6, 5); (5, 6); (4, 5); (5, 4)]. *)
Theorem C2_getNeighbors_order :
  getNeighbors (mkPoint 5 5) openGrid =
    Ok [mkPoint 5 6; mkPoint 6 5; mkPoint 5 4; mkPoint 4 5] /\
  getNeighbors (mkPoint 5 5) openGrid <>
    Ok [mkPoint 6 5; mkPoint 5 6; mkPoint 4 5; mkPoint 5 4].
Proof.
  assert (getNeighbors (mkPoint 5 5) openGrid =
            Ok [mkPoint 5 6; mkPoint 6 5; mkPoint 5 4; mkPoint 4 5]) as H
    by (vm_compute; reflexivity).
  split; [exact H|]. rewrite H. intros Heq. inversion Heq.
Qed.

(** ** Path reconstruction and start = end *)

Lemma samePoint_spec a b : samePoint a b = true <-> a = b.
Proof.
  unfold samePoint. rewrite andb_true_iff, !Z.eqb_eq.
  destruct a, b; simpl. split; [intros [-> ->]; reflexivity|].
  intros H; inversion H; auto.
Qed.

Lemma samePoint_refl a : samePoint a a = true.
Proof. by apply samePoint_spec. Qed.

Lemma samePoint_false a b : a <> b -> samePoint a b = false.
Proof.
  intros H. destruct (samePoint a b) eqn:E; [|reflexivity].
  by apply samePoint_spec in E.
Qed.

Lemma reconstructPath_root n (parent : gmap Point Point) v acc :
  parent !! v = None -> reconstructPath (S n) parent v acc = Ok (v :: acc).
Proof. intros H. cbn [reconstructPath]. by rewrite H. Qed.

Lemma point_eta p : mkPoint (pt_x p) (pt_y p) = p.
Proof. by destruct p. Qed.

(** One iteration of each loop when the node taken is [end_]. *)
Lemma bfsLoop_at_end n g e queue visited (parent : gmap Point Point) count :
  parent !! e = None ->
  bfsLoop (S n) g e (e :: queue) visited parent count =
    Ok (mkResult [e] (count + 1)).
Proof.
  intros H. cbn [bfsLoop]. rewrite samePoint_refl.
  unfold pathFuel. rewrite reconstructPath_root by exact H. reflexivity.
Qed.

Lemma dfsLoop_at_end n g e visited (parent : gmap Point Point) count :
  parent !! e = None ->
  dfsLoop (S n) g e [e] visited parent count = Ok (mkResult [e] (count + 1)).
Proof.
  intros H. cbn [dfsLoop pop]. rewrite samePoint_refl.
  unfold pathFuel. rewrite reconstructPath_root by exact H. reflexivity.
Qed.

Lemma dijkstraLoop_at_end n g e distances (parent : gmap Point Point) count :
  parent !! e = None ->
  dijkstraLoop (S n) g e distances parent [mkQEntry e 0] ∅ count =
    Ok (mkResult [e] (count + 1)).
Proof.
  intros H. cbn [dijkstraLoop sortBy foldr insertBy q_pt].
  destruct (decide (e ∈ (∅ : gset Point))) as [Hin|_]; [set_solver|].
  rewrite samePoint_refl, point_eta.
  unfold pathFuel. rewrite reconstructPath_root by exact H. reflexivity.
Qed.

Lemma astarLoop_at_end n g e node closed (cameFrom : gmap Point Point) count :
  a_pt node = e -> cameFrom !! e = None ->
  astarLoop (S n) g e [node] closed cameFrom count = Ok (mkResult [e] count).
Proof.
  intros He H. cbn [astarLoop sortBy foldr insertBy]. rewrite He.
  rewrite samePoint_refl.
  unfold pathFuel. rewrite reconstructPath_root by exact H. reflexivity.
Qed.

(** C3. With start = end = [p], a cell of the grid, [runBFS], [runDFS]
    and [runDijkstra] return the path [[p]] with [exploredCount] 1, and
    [runAStar] returns the path [[p]] with [exploredCount] 0: it tests for
    the goal before it counts the node. *)
Theorem C3_start_is_end g p :
  in_bounds p = true ->
  runBFS g p p = Ok (mkResult [p] 1) /\
  runDFS g p p = Ok (mkResult [p] 1) /\
  runDijkstra g p p = Ok (mkResult [p] 1) /\
  runAStar g p p = Ok (mkResult [p] 0).
Proof.
  intros Hb. apply in_bounds_spec in Hb.
  split; [|split; [|split]].
  - unfold runBFS, searchFuel. apply bfsLoop_at_end, lookup_empty.
  - unfold runDFS, searchFuel. apply dfsLoop_at_end, lookup_empty.
  - unfold runDijkstra, dijkstraFuel.
    replace ((0 <=? pt_y p) && (pt_y p <? GRID_ROWS)) with true
      by (symmetry; rewrite andb_true_iff, Z.leb_le, Z.ltb_lt; lia).
    apply dijkstraLoop_at_end, lookup_empty.
  - unfold runAStar, searchFuel. apply astarLoop_at_end; [reflexivity|apply lookup_empty].
Qed.

Lemma C3_start_is_end_witness :
  runBFS openGrid (mkPoint 8 8) (mkPoint 8 8) = Ok (mkResult [mkPoint 8 8] 1) /\
  runDFS openGrid (mkPoint 8 8) (mkPoint 8 8) = Ok (mkResult [mkPoint 8 8] 1) /\
  runDijkstra openGrid (mkPoint 8 8) (mkPoint 8 8) = Ok (mkResult [mkPoint 8 8] 1) /\
  runAStar openGrid (mkPoint 8 8) (mkPoint 8 8) = Ok (mkResult [mkPoint 8 8] 0).
Proof. apply C3_start_is_end. reflexivity. Defined.

(** ** Numbers *)

Local Open Scope Q_scope.

Lemma pow2_nonneg_eq e : (0 <= e)%Z -> pow2 e = inject_Z (2 ^ e).
Proof. intros H. unfold pow2. by rewrite (proj2 (Z.leb_le 0 e) H). Qed.

Lemma pow2_neg_eq e : (e < 0)%Z -> pow2 e == / inject_Z (2 ^ (- e)).
Proof.
  intros H. unfold pow2. rewrite (proj2 (Z.leb_gt 0 e) H).
  assert (0 < 2 ^ (- e))%Z as Hp by (apply Z.pow_pos_nonneg; lia).
  unfold Qeq, Qinv, inject_Z. cbn.
  destruct (2 ^ (- e))%Z eqn:E; try lia. cbn. lia.
Qed.

Lemma pow2_pos e : 0 < pow2 e.
Proof.
  unfold pow2. destruct (0 <=? e)%Z eqn:E.
  - apply Z.leb_le in E. change 0 with (inject_Z 0). rewrite <- Zlt_Qlt.
    apply Z.pow_pos_nonneg; lia.
  - reflexivity.
Qed.

Lemma pow2_succ e : pow2 (e + 1) == 2 * pow2 e.
Proof.
  destruct (Z_lt_le_dec e 0) as [Hn|Hp].
  - destruct (Z.eq_dec e (-1)) as [->|Hne].
    + reflexivity.
    + rewrite !pow2_neg_eq by lia.
      replace (- e)%Z with (- (e + 1) + 1)%Z by lia.
      rewrite Z.pow_add_r by lia. rewrite inject_Z_mult.
      assert (0 < inject_Z (2 ^ (- (e + 1)))).
      { change 0 with (inject_Z 0). rewrite <- Zlt_Qlt. apply Z.pow_pos_nonneg; lia. }
      change (inject_Z (2 ^ 1)) with 2. field. lra.
  - rewrite !pow2_nonneg_eq by lia. rewrite Z.pow_add_r by lia.
    rewrite inject_Z_mult. change (inject_Z (2 ^ 1)) with 2. ring.
Qed.

Lemma pow2_pred e : pow2 (e - 1) == pow2 e * (1 # 2).
Proof.
  pose proof (pow2_succ (e - 1)) as H. replace (e - 1 + 1)%Z with e in H by lia.
  rewrite H. field.
Qed.

Lemma pow2_add a b : pow2 (a + b) == pow2 a * pow2 b.
Proof.
  assert (forall n : nat, forall a, pow2 (a + Z.of_nat n) == pow2 a * pow2 (Z.of_nat n)) as Hn.
  { induction n as [|n IH]; intros a0.
    - rewrite Z.add_0_r. change (pow2 (Z.of_nat 0)) with 1. ring.
    - replace (a0 + Z.of_nat (S n))%Z with (a0 + Z.of_nat n + 1)%Z by lia.
      replace (Z.of_nat (S n)) with (Z.of_nat n + 1)%Z by lia.
      rewrite !pow2_succ, IH. ring. }
  destruct (Z_lt_le_dec b 0) as [Hb|Hb].
  - specialize (Hn (Z.to_nat (- b)) (a + b)%Z).
    replace (a + b + Z.of_nat (Z.to_nat (- b)))%Z with a in Hn by lia.
    pose proof (Hn' := Hn). clear Hn.
    assert (forall n : nat, pow2 (- Z.of_nat n) * pow2 (Z.of_nat n) == 1) as Hinv.
    { induction n as [|n IH]; [reflexivity|].
      replace (Z.of_nat (S n)) with (Z.of_nat n + 1)%Z by lia.
      replace (- (Z.of_nat n + 1))%Z with (- Z.of_nat n - 1)%Z by lia.
      rewrite pow2_succ, pow2_pred. rewrite <- IH. field. }
    specialize (Hinv (Z.to_nat (- b))).
    replace (- Z.of_nat (Z.to_nat (- b)))%Z with b in Hinv by lia.
    rewrite Hn'.
    rewrite <- Qmult_assoc, (Qmult_comm (pow2 (Z.of_nat (Z.to_nat (- b)))) (pow2 b)).
    rewrite Hinv. ring.
  - specialize (Hn (Z.to_nat b) a). by replace (Z.of_nat (Z.to_nat b)) with b in Hn by lia.
Qed.

Lemma pow2_le a b : (a <= b)%Z -> pow2 a <= pow2 b.
Proof.
  intros H. replace b with (a + (b - a))%Z by lia. rewrite pow2_add.
  rewrite <- (Qmult_1_r (pow2 a)) at 1.
  apply Qmult_le_l; [apply pow2_pos|].
  rewrite pow2_nonneg_eq by lia. change 1 with (inject_Z 1). rewrite <- Zle_Qle.
  pose proof (Z.pow_pos_nonneg 2 (b - a)). lia.
Qed.

Lemma pow2_lt a b : (a < b)%Z -> pow2 a < pow2 b.
Proof.
  intros H. apply Qlt_le_trans with (pow2 (a + 1)); [|apply pow2_le; lia].
  rewrite pow2_succ. pose proof (pow2_pos a). lra.
Qed.

Lemma pow2_lt_inv a b : pow2 a < pow2 b -> (a < b)%Z.
Proof.
  intros H. destruct (Z_lt_le_dec a b) as [|Hle]; [done|].
  apply pow2_le in Hle. lra.
Qed.

(** *** Logarithms *)

Lemma Q_as_fraction a : a * inject_Z (Zpos (Qden a)) == inject_Z (Qnum a).
Proof. destruct a as [n d]. unfold Qeq, Qmult, inject_Z. cbn. lia. Qed.

Lemma floorLog2_spec a :
  0 < a -> pow2 (floorLog2 a) <= a /\ a < pow2 (floorLog2 a + 1).
Proof.
  intros Ha. pose proof (Q_as_fraction a) as Hfrac.
  assert (0 < Qnum a)%Z as Hn.
  { destruct a as [n d]. unfold Qlt in Ha. cbn in *. lia. }
  set (n := Qnum a) in *. set (d := Zpos (Qden a)) in *.
  assert (0 < d)%Z as Hd by (unfold d; lia).
  assert (0 < inject_Z d) as HdQ.
  { change 0 with (inject_Z 0). by rewrite <- Zlt_Qlt. }
  destruct (Z.log2_spec n Hn) as [Hn1 Hn2].
  destruct (Z.log2_spec d Hd) as [Hd1 Hd2].
  pose proof (Z.log2_nonneg n) as Hln. pose proof (Z.log2_nonneg d) as Hld.
  set (ln := Z.log2 n) in *. set (ld := Z.log2 d) in *.
  assert (pow2 ln <= inject_Z n) as Hn1'.
  { rewrite pow2_nonneg_eq by lia. by rewrite <- Zle_Qle. }
  assert (inject_Z n < pow2 (ln + 1)) as Hn2'.
  { rewrite pow2_nonneg_eq by lia. rewrite <- Zlt_Qlt. unfold Z.succ in Hn2. lia. }
  assert (pow2 ld <= inject_Z d) as Hd1'.
  { rewrite pow2_nonneg_eq by lia. by rewrite <- Zle_Qle. }
  assert (inject_Z d < pow2 (ld + 1)) as Hd2'.
  { rewrite pow2_nonneg_eq by lia. rewrite <- Zlt_Qlt. unfold Z.succ in Hd2. lia. }
  assert (pow2 (ln - ld - 1) < a) as Hlow.
  { apply (Qmult_lt_r _ _ (inject_Z d) HdQ). rewrite Hfrac.
    apply Qlt_le_trans with (pow2 (ln - ld - 1) * pow2 (ld + 1)).
    - apply Qmult_lt_l; [apply pow2_pos|exact Hd2'].
    - rewrite <- pow2_add. by replace (ln - ld - 1 + (ld + 1))%Z with ln by lia. }
  assert (a < pow2 (ln - ld + 1)) as Hhigh.
  { apply (Qmult_lt_r _ _ (inject_Z d) HdQ). rewrite Hfrac.
    apply Qlt_le_trans with (pow2 (ln - ld + 1) * pow2 ld).
    - rewrite <- pow2_add. by replace (ln - ld + 1 + ld)%Z with (ln + 1)%Z by lia.
    - apply Qmult_le_l; [apply pow2_pos|exact Hd1']. }
  unfold floorLog2. fold n. fold d. fold ln. fold ld.
  destruct (Qle_bool (pow2 (ln - ld)) a) eqn:E.
  - apply Qle_bool_iff in E. by split.
  - assert (~ pow2 (ln - ld) <= a) as E'.
    { intros H. apply Qle_bool_iff in H. congruence. }
    apply Qnot_le_lt in E'. split; [by apply Qlt_le_weak|].
    by replace (ln - ld - 1 + 1)%Z with (ln - ld)%Z by lia.
Qed.

Lemma floorLog2_unique a k :
  pow2 k <= a -> a < pow2 (k + 1) -> floorLog2 a = k.
Proof.
  intros H1 H2. assert (0 < a) as Ha by (pose proof (pow2_pos k); lra).
  destruct (floorLog2_spec a Ha) as [H3 H4].
  assert (floorLog2 a < k + 1)%Z by (apply pow2_lt_inv; lra).
  assert (k < floorLog2 a + 1)%Z by (apply pow2_lt_inv; lra).
  lia.
Qed.

Lemma floorLog2_comp a b : 0 < a -> a == b -> floorLog2 a = floorLog2 b.
Proof.
  intros Ha Hab. destruct (floorLog2_spec a Ha) as [H1 H2].
  symmetry. apply floorLog2_unique; by rewrite <- Hab.
Qed.

Lemma floorLog2_mono a b : 0 < a -> a <= b -> (floorLog2 a <= floorLog2 b)%Z.
Proof.
  intros Ha Hab. destruct (floorLog2_spec a Ha) as [H1 _].
  destruct (floorLog2_spec b) as [_ H2]; [lra|].
  assert (floorLog2 a < floorLog2 b + 1)%Z by (apply pow2_lt_inv; lra). lia.
Qed.

Lemma floorLog2_lt a m : 0 < a -> a < pow2 m -> (floorLog2 a < m)%Z.
Proof.
  intros Ha H. destruct (floorLog2_spec a Ha) as [H1 _].
  apply pow2_lt_inv. lra.
Qed.

Lemma floorLog2_ge a m : pow2 m <= a -> (m <= floorLog2 a)%Z.
Proof.
  intros H. assert (0 < a) as Ha by (pose proof (pow2_pos m); lra).
  destruct (floorLog2_spec a Ha) as [_ H2].
  assert (m < floorLog2 a + 1)%Z by (apply pow2_lt_inv; lra). lia.
Qed.

(** *** The exponent of the last bit *)

Lemma Qabs_gt_0 q : ~ q == 0 -> 0 < Qabs q.
Proof.
  intros Hq. pose proof (Qabs_nonneg q) as H.
  destruct (Qeq_dec (Qabs q) 0) as [E|E]; [|lra].
  exfalso. apply Hq. destruct (Qlt_le_dec q 0) as [Hn|Hp].
  - rewrite Qabs_neg in E by lra. lra.
  - rewrite Qabs_pos in E by lra. lra.
Qed.

Lemma ulpExponent_min q : (-1074 <= ulpExponent q)%Z.
Proof. unfold ulpExponent. lia. Qed.

Lemma ulpExponent_upper q : ~ q == 0 -> Qabs q < pow2 (ulpExponent q + 53).
Proof.
  intros Hq. destruct (floorLog2_spec _ (Qabs_gt_0 q Hq)) as [_ H].
  eapply Qlt_le_trans; [exact H|]. apply pow2_le. unfold ulpExponent. lia.
Qed.

Lemma ulpExponent_lower q :
  ~ q == 0 -> (-1074 < ulpExponent q)%Z -> pow2 (ulpExponent q + 52) <= Qabs q.
Proof.
  intros Hq He. destruct (floorLog2_spec _ (Qabs_gt_0 q Hq)) as [H _].
  unfold ulpExponent in *.
  replace (Z.max (-1074) (floorLog2 (Qabs q) - 52) + 52)%Z
    with (floorLog2 (Qabs q)) by lia.
  exact H.
Qed.

Lemma ulpExponent_comp a b : ~ a == 0 -> a == b -> ulpExponent a = ulpExponent b.
Proof.
  intros Ha Hab. unfold ulpExponent.
  rewrite (floorLog2_comp (Qabs a) (Qabs b)); [done|by apply Qabs_gt_0|by rewrite Hab].
Qed.

Lemma ulpExponent_opp q : ~ q == 0 -> ulpExponent (- q) = ulpExponent q.
Proof.
  intros Hq. unfold ulpExponent.
  rewrite (floorLog2_comp (Qabs (- q)) (Qabs q)); [done| |apply Qabs_opp].
  apply Qabs_gt_0. lra.
Qed.

Lemma ulpExponent_mono a b :
  ~ a == 0 -> Qabs a <= Qabs b -> (ulpExponent a <= ulpExponent b)%Z.
Proof.
  intros Ha Hab. unfold ulpExponent.
  pose proof (floorLog2_mono _ _ (Qabs_gt_0 a Ha) Hab). lia.
Qed.

Lemma ulpExponent_lt q m :
  ~ q == 0 -> Qabs q < pow2 (m + 53) -> (-1074 <= m)%Z -> (ulpExponent q <= m)%Z.
Proof.
  intros Hq H Hm. pose proof (floorLog2_lt _ _ (Qabs_gt_0 q Hq) H).
  unfold ulpExponent. lia.
Qed.

Lemma ulpExponent_ge q m : pow2 (m + 52) <= Qabs q -> (m <= ulpExponent q)%Z.
Proof. intros H. apply floorLog2_ge in H. unfold ulpExponent. lia. Qed.

(** *** The nearest integer *)

Lemma roundHalfEven_spec x :
  inject_Z (roundHalfEven x) - (1 # 2) <= x /\ x <= inject_Z (roundHalfEven x) + (1 # 2).
Proof.
  unfold roundHalfEven. pose proof (Qfloor_le x) as H1. pose proof (Qlt_floor x) as H2.
  rewrite inject_Z_plus in H2. change (inject_Z 1) with 1 in H2.
  destruct (Qcompare_spec (x - inject_Z (Qfloor x)) (1 # 2)) as [E|E|E].
  - destruct (Z.even (Qfloor x)); [lra|].
    rewrite inject_Z_plus. change (inject_Z 1) with 1. lra.
  - lra.
  - rewrite inject_Z_plus. change (inject_Z 1) with 1. lra.
Qed.

Lemma roundHalfEven_comp x y : x == y -> roundHalfEven x = roundHalfEven y.
Proof.
  intros H. unfold roundHalfEven. rewrite (Qfloor_comp _ _ H).
  assert ((x - inject_Z (Qfloor y) ?= 1 # 2) = (y - inject_Z (Qfloor y) ?= 1 # 2)) as ->;
    [|done].
  apply Qcompare_comp; [by rewrite H|reflexivity].
Qed.

Lemma roundHalfEven_Z z : roundHalfEven (inject_Z z) = z.
Proof.
  unfold roundHalfEven. rewrite Qfloor_Z.
  destruct (Qcompare_spec (inject_Z z - inject_Z z) (1 # 2)) as [E|E|E]; [lra|done|lra].
Qed.

Lemma roundHalfEven_below x m : x < inject_Z m - (1 # 2) -> (roundHalfEven x < m)%Z.
Proof.
  intros H. destruct (roundHalfEven_spec x) as [H1 _].
  rewrite Zlt_Qlt. lra.
Qed.

Lemma roundHalfEven_above x m : inject_Z m + (1 # 2) < x -> (m < roundHalfEven x)%Z.
Proof.
  intros H. destruct (roundHalfEven_spec x) as [_ H2].
  rewrite Zlt_Qlt. lra.
Qed.

Lemma roundHalfEven_mono x y : x <= y -> (roundHalfEven x <= roundHalfEven y)%Z.
Proof.
  intros H. destruct (Z_le_gt_dec (roundHalfEven x) (roundHalfEven y)) as [|Hgt]; [done|].
  exfalso. destruct (roundHalfEven_spec x) as [Hx _].
  destruct (roundHalfEven_spec y) as [_ Hy].
  assert (inject_Z (roundHalfEven y) + 1 <= inject_Z (roundHalfEven x)) as Hz.
  { change 1 with (inject_Z 1). rewrite <- inject_Z_plus, <- Zle_Qle. lia. }
  assert (x == y) as E by lra.
  apply roundHalfEven_comp in E. lia.
Qed.

Lemma roundHalfEven_opp x : roundHalfEven (- x) = (- roundHalfEven x)%Z.
Proof.
  destruct (Qeq_dec x (inject_Z (Qfloor x))) as [E|E].
  - rewrite (roundHalfEven_comp x _ E), roundHalfEven_Z.
    rewrite (roundHalfEven_comp (- x) (inject_Z (- Qfloor x))), roundHalfEven_Z; [done|].
    rewrite inject_Z_opp. by rewrite <- E.
  - pose proof (Qfloor_le x) as H1. pose proof (Qlt_floor x) as H2.
    rewrite inject_Z_plus in H2. change (inject_Z 1) with 1 in H2.
    assert (Qfloor (- x) = - Qfloor x - 1)%Z as Hf.
    { assert (Qfloor (- x) < - Qfloor x)%Z.
      { rewrite Zlt_Qlt. pose proof (Qfloor_le (- x)). rewrite inject_Z_opp. lra. }
      assert (- Qfloor x - 1 <= Qfloor (- x))%Z; [|lia].
      assert (inject_Z (- Qfloor x - 1) <= - x) as H3.
      { unfold Z.sub. rewrite !inject_Z_plus, !inject_Z_opp. change (inject_Z 1) with 1. lra. }
      apply Qfloor_resp_le in H3. by rewrite Qfloor_Z in H3. }
    unfold roundHalfEven. rewrite Hf.
    assert (- x - inject_Z (- Qfloor x - 1) == 1 - (x - inject_Z (Qfloor x))) as Hr.
    { unfold Z.sub. rewrite !inject_Z_plus, !inject_Z_opp. change (inject_Z 1) with 1. ring. }
    destruct (Qcompare_spec (x - inject_Z (Qfloor x)) (1 # 2)) as [E1|E1|E1];
      destruct (Qcompare_spec (- x - inject_Z (- Qfloor x - 1)) (1 # 2)) as [E2|E2|E2];
      try lra; try lia.
    replace (- Qfloor x - 1)%Z with (- (Qfloor x + 1))%Z by lia.
    rewrite Z.even_opp, Z.even_add. change (Z.even 1) with false.
    destruct (Z.even (Qfloor x)); cbn; lia.
Qed.

(** *** Rounding *)

Lemma pow2_nonzero e : ~ pow2 e == 0.
Proof. pose proof (pow2_pos e). lra. Qed.

Lemma scale_le a b e : a <= b -> a / pow2 e <= b / pow2 e.
Proof.
  intros H. unfold Qdiv. apply Qmult_le_compat_r; [exact H|].
  apply Qinv_le_0_compat, Qlt_le_weak, pow2_pos.
Qed.

Lemma scale_lt a b e : a < b -> a / pow2 e < b / pow2 e.
Proof.
  intros H. unfold Qdiv. apply Qmult_lt_r; [|exact H].
  apply Qinv_lt_0_compat, pow2_pos.
Qed.

Lemma scale_pow2 m e : pow2 m / pow2 e == pow2 (m - e).
Proof.
  replace m with ((m - e) + e)%Z at 1 by lia. rewrite pow2_add.
  field. apply pow2_nonzero.
Qed.

Lemma scale_cancel x e : x / pow2 e * pow2 e == x.
Proof. field. apply pow2_nonzero. Qed.

Lemma roundDouble_0 q : q == 0 -> roundDouble q = 0.
Proof.
  intros H. unfold roundDouble. apply Qeq_bool_iff in H. by rewrite H.
Qed.

Lemma roundDouble_eq q :
  ~ q == 0 ->
  roundDouble q == inject_Z (roundHalfEven (q / pow2 (ulpExponent q))) * pow2 (ulpExponent q).
Proof.
  intros H. unfold roundDouble.
  destruct (Qeq_bool q 0) eqn:E; [apply Qeq_bool_iff in E; contradiction|].
  cbv zeta. apply Qred_correct.
Qed.

Lemma roundDouble_comp a b : a == b -> roundDouble a == roundDouble b.
Proof.
  intros H. destruct (Qeq_dec a 0) as [E|E].
  - rewrite (roundDouble_0 a E), (roundDouble_0 b); [reflexivity|by rewrite <- H].
  - assert (~ b == 0) as E' by (by rewrite <- H).
    rewrite (roundDouble_eq a E), (roundDouble_eq b E').
    rewrite (ulpExponent_comp a b E H).
    rewrite (roundHalfEven_comp (a / pow2 (ulpExponent b)) (b / pow2 (ulpExponent b)));
      [reflexivity|by rewrite H].
Qed.

#[global] Instance roundDouble_proper : Proper (Qeq ==> Qeq) roundDouble.
Proof. intros a b H. by apply roundDouble_comp. Qed.

Lemma roundDouble_opp q : roundDouble (- q) == - roundDouble q.
Proof.
  destruct (Qeq_dec q 0) as [E|E].
  - rewrite (roundDouble_0 q E), (roundDouble_0 (- q)); [reflexivity|lra].
  - assert (~ - q == 0) as E' by lra.
    rewrite (roundDouble_eq q E), (roundDouble_eq (- q) E'), (ulpExponent_opp q E).
    rewrite (roundHalfEven_comp (- q / pow2 (ulpExponent q)) (- (q / pow2 (ulpExponent q)))).
    + rewrite roundHalfEven_opp, inject_Z_opp. ring.
    + field. apply pow2_nonzero.
Qed.

Lemma roundDouble_nonneg q : 0 <= q -> 0 <= roundDouble q.
Proof.
  intros H. destruct (Qeq_dec q 0) as [E|E].
  - rewrite (roundDouble_0 q E). lra.
  - rewrite (roundDouble_eq q E). apply Qmult_le_0_compat; [|apply Qlt_le_weak, pow2_pos].
    change 0 with (inject_Z 0). rewrite <- Zle_Qle.
    rewrite <- (roundHalfEven_Z 0). apply roundHalfEven_mono.
    change (inject_Z 0) with 0. unfold Qdiv. apply Qmult_le_0_compat; [exact H|].
    apply Qinv_le_0_compat, Qlt_le_weak, pow2_pos.
Qed.

Lemma roundDouble_mono_pos a b : 0 < a -> a <= b -> roundDouble a <= roundDouble b.
Proof.
  intros Ha Hab.
  assert (~ a == 0) as Ea by lra. assert (~ b == 0) as Eb by lra.
  rewrite (roundDouble_eq a Ea), (roundDouble_eq b Eb).
  pose proof (ulpExponent_mono a b Ea) as He.
  rewrite !Qabs_pos in He by lra. specialize (He Hab).
  set (ea := ulpExponent a) in *. set (eb := ulpExponent b) in *.
  destruct (Z.eq_dec ea eb) as [E|E].
  - rewrite E. apply Qmult_le_compat_r; [|apply Qlt_le_weak, pow2_pos].
    rewrite <- Zle_Qle. apply roundHalfEven_mono. by apply scale_le.
  - apply Qle_trans with (pow2 (eb + 52)).
    + apply Qle_trans with (pow2 (ea + 53)); [|apply pow2_le; lia].
      replace (ea + 53)%Z with (53 + ea)%Z by lia.
      rewrite pow2_add. apply Qmult_le_compat_r; [|apply Qlt_le_weak, pow2_pos].
      rewrite (pow2_nonneg_eq 53) by lia. rewrite <- Zle_Qle.
      rewrite <- (roundHalfEven_Z (2 ^ 53)). apply roundHalfEven_mono.
      rewrite <- (pow2_nonneg_eq 53) by lia.
      assert (pow2 (ea + 53) / pow2 ea == pow2 53) as <-.
      { rewrite scale_pow2. by replace (ea + 53 - ea)%Z with 53%Z by lia. }
      apply scale_le, Qlt_le_weak.
      pose proof (ulpExponent_upper a Ea) as Hu. rewrite Qabs_pos in Hu by lra. exact Hu.
    + replace (eb + 52)%Z with (52 + eb)%Z by lia.
      rewrite pow2_add. apply Qmult_le_compat_r; [|apply Qlt_le_weak, pow2_pos].
      rewrite (pow2_nonneg_eq 52) by lia. rewrite <- Zle_Qle.
      rewrite <- (roundHalfEven_Z (2 ^ 52)). apply roundHalfEven_mono.
      rewrite <- (pow2_nonneg_eq 52) by lia.
      assert (pow2 (eb + 52) / pow2 eb == pow2 52) as <-.
      { rewrite scale_pow2. by replace (eb + 52 - eb)%Z with 52%Z by lia. }
      apply scale_le.
      pose proof (ulpExponent_lower b Eb) as Hl. rewrite Qabs_pos in Hl by lra.
      apply Hl. pose proof (ulpExponent_min a) as Hm. fold ea in Hm. fold eb. lia.
Qed.

Lemma roundDouble_mono a b : a <= b -> roundDouble a <= roundDouble b.
Proof.
  intros Hab. destruct (Qlt_le_dec 0 a) as [Ha|Ha].
  - by apply roundDouble_mono_pos.
  - destruct (Qlt_le_dec b 0) as [Hb|Hb].
    + assert (roundDouble (- b) <= roundDouble (- a)) as H.
      { apply roundDouble_mono_pos; lra. }
      rewrite !roundDouble_opp in H. lra.
    + pose proof (roundDouble_nonneg b Hb).
      assert (0 <= roundDouble (- a)) as H' by (apply roundDouble_nonneg; lra).
      rewrite roundDouble_opp in H'. lra.
Qed.

(** The integers up to [2 ^ 53] are numbers. *)
Lemma roundDouble_Z z : (Z.abs z <= 2 ^ 53)%Z -> roundDouble (inject_Z z) == inject_Z z.
Proof.
  assert (forall z, 0 < z <= 2 ^ 53 -> roundDouble (inject_Z z) == inject_Z z)%Z as Hpos.
  { clear z. intros z Hz.
    assert (0 < inject_Z z) as Hq.
    { change 0 with (inject_Z 0). rewrite <- Zlt_Qlt. lia. }
    assert (~ inject_Z z == 0) as E by lra.
    rewrite (roundDouble_eq _ E). set (e := ulpExponent (inject_Z z)).
    destruct (Z.eq_dec z (2 ^ 53)) as [->|Hne].
    - assert (e = 1%Z) as ->.
      { assert (e <= 1)%Z.
        { apply ulpExponent_lt; [exact E| |lia]. rewrite Qabs_pos by lra.
          rewrite pow2_nonneg_eq by lia. rewrite <- Zlt_Qlt. lia. }
        assert (1 <= e)%Z; [|lia].
        apply ulpExponent_ge. rewrite Qabs_pos by lra.
        rewrite pow2_nonneg_eq by lia. apply Qle_refl. }
      rewrite (roundHalfEven_comp _ (inject_Z (2 ^ 52))).
      + rewrite roundHalfEven_Z. change (pow2 1) with 2.
        change 2 with (inject_Z 2). rewrite <- inject_Z_mult. reflexivity.
      + change (pow2 1) with 2. change 2 with (inject_Z 2).
        replace (2 ^ 53)%Z with (2 ^ 52 * 2)%Z by lia. rewrite inject_Z_mult.
        field.
    - assert (e <= 0)%Z as He.
      { apply ulpExponent_lt; [exact E| |lia]. rewrite Qabs_pos by lra.
        rewrite pow2_nonneg_eq by lia. rewrite <- Zlt_Qlt. lia. }
      rewrite (roundHalfEven_comp _ (inject_Z (z * 2 ^ (- e)))).
      + rewrite roundHalfEven_Z, inject_Z_mult.
        rewrite <- (pow2_nonneg_eq (- e)) by lia.
        rewrite <- Qmult_assoc, <- pow2_add.
        replace (- e + e)%Z with 0%Z by lia. change (pow2 0) with 1. ring.
      + rewrite inject_Z_mult, <- (pow2_nonneg_eq (- e)) by lia.
        assert (pow2 (- e) * pow2 e == 1) as H1.
        { rewrite <- pow2_add. by replace (- e + e)%Z with 0%Z by lia. }
        apply (Qmult_inj_r _ _ (pow2 e) (pow2_nonzero e)).
        rewrite scale_cancel, <- Qmult_assoc, H1. ring. }
  intros Hz. destruct (Z_dec z 0) as [[Hn|Hp]|E0].
  - assert (roundDouble (inject_Z (- z)) == inject_Z (- z)) as H.
    { apply Hpos. lia. }
    rewrite inject_Z_opp, roundDouble_opp in H. lra.
  - apply Hpos. lia.
  - subst z. reflexivity.
Qed.

(** *** Numbers on the grid of their last bit *)

Lemma isDouble_spec q : isDouble q = true <-> roundDouble q == q.
Proof. unfold isDouble. apply Qeq_bool_iff. Qed.

Lemma isDouble_opp q : isDouble q = true -> isDouble (- q) = true.
Proof. rewrite !isDouble_spec. intros H. by rewrite roundDouble_opp, H. Qed.

Lemma isDouble_Z z : (Z.abs z <= 2 ^ 53)%Z -> isDouble (inject_Z z) = true.
Proof. intros H. by apply isDouble_spec, roundDouble_Z. Qed.

Lemma double_grid x :
  isDouble x = true -> ~ x == 0 ->
  exists M, x == inject_Z M * pow2 (ulpExponent x).
Proof.
  intros Hx E. apply isDouble_spec in Hx. rewrite (roundDouble_eq x E) in Hx.
  eexists. symmetry. exact Hx.
Qed.

Lemma Z_on_grid z e : (e <= 0)%Z -> inject_Z z == inject_Z (z * 2 ^ (- e)) * pow2 e.
Proof.
  intros He. rewrite inject_Z_mult, <- (pow2_nonneg_eq (- e)) by lia.
  rewrite <- Qmult_assoc, <- pow2_add. replace (- e + e)%Z with 0%Z by lia.
  change (pow2 0) with 1. ring.
Qed.

Lemma grid_coarser M e e' :
  (e' <= e)%Z -> inject_Z M * pow2 e == inject_Z (M * 2 ^ (e - e')) * pow2 e'.
Proof.
  intros He. rewrite inject_Z_mult, <- (pow2_nonneg_eq (e - e')) by lia.
  rewrite <- Qmult_assoc, <- pow2_add. by replace (e - e' + e')%Z with e by lia.
Qed.

Lemma grid_gap M K p :
  0 < p -> inject_Z M * p < inject_Z K * p -> inject_Z M * p + p <= inject_Z K * p.
Proof.
  intros Hp H. assert (M < K)%Z as HMK.
  { destruct (Z_lt_le_dec M K) as [|Hle]; [done|]. exfalso.
    rewrite Zle_Qle in Hle. apply (Qmult_le_compat_r _ _ p) in Hle; lra. }
  assert (inject_Z M + 1 <= inject_Z K) as HQ.
  { change 1 with (inject_Z 1). rewrite <- inject_Z_plus, <- Zle_Qle. lia. }
  apply (Qmult_le_compat_r _ _ p) in HQ; lra.
Qed.

Lemma round_le_grid q K :
  ~ q == 0 ->
  q < inject_Z K * pow2 (ulpExponent q) + pow2 (ulpExponent q) * (1 # 2) ->
  roundDouble q <= inject_Z K * pow2 (ulpExponent q).
Proof.
  intros E H. rewrite (roundDouble_eq q E). set (e := ulpExponent q) in *.
  apply Qmult_le_compat_r; [|apply Qlt_le_weak, pow2_pos].
  rewrite <- Zle_Qle. assert (roundHalfEven (q / pow2 e) < K + 1)%Z; [|lia].
  apply roundHalfEven_below. rewrite inject_Z_plus. change (inject_Z 1) with 1.
  apply (Qmult_lt_r _ _ (pow2 e) (pow2_pos e)). rewrite scale_cancel.
  assert ((inject_Z K + 1 - (1 # 2)) * pow2 e == inject_Z K * pow2 e + pow2 e * (1 # 2)) as ->
    by field.
  exact H.
Qed.

Lemma round_ge_grid q K :
  ~ q == 0 ->
  inject_Z K * pow2 (ulpExponent q) - pow2 (ulpExponent q) * (1 # 2) < q ->
  inject_Z K * pow2 (ulpExponent q) <= roundDouble q.
Proof.
  intros E H. rewrite (roundDouble_eq q E). set (e := ulpExponent q) in *.
  apply Qmult_le_compat_r; [|apply Qlt_le_weak, pow2_pos].
  rewrite <- Zle_Qle. assert (K - 1 < roundHalfEven (q / pow2 e))%Z; [|lia].
  apply roundHalfEven_above. unfold Z.sub. rewrite inject_Z_plus, inject_Z_opp.
  change (inject_Z 1) with 1.
  apply (Qmult_lt_r _ _ (pow2 e) (pow2_pos e)). rewrite scale_cancel.
  assert ((inject_Z K + - (1) + (1 # 2)) * pow2 e == inject_Z K * pow2 e - pow2 e * (1 # 2)) as ->
    by field.
  exact H.
Qed.

Lemma inject_Z_pred_mul K p : inject_Z (K - 1) * p == inject_Z K * p - p.
Proof.
  unfold Z.sub. rewrite inject_Z_plus, inject_Z_opp. change (inject_Z 1) with 1. ring.
Qed.

Lemma inject_Z_succ_mul K p : inject_Z (K + 1) * p == inject_Z K * p + p.
Proof. rewrite inject_Z_plus. change (inject_Z 1) with 1. ring. Qed.

(** Rounding does not reach an integer from more than half a last bit
    away. *)
Lemma round_lt_Z q N :
  ~ q == 0 -> (ulpExponent q <= 0)%Z ->
  q < inject_Z N - pow2 (ulpExponent q - 1) ->
  roundDouble q < inject_Z N.
Proof.
  intros E He H. set (e := ulpExponent q) in *.
  pose proof (pow2_pos e) as Hp. rewrite pow2_pred in H.
  pose proof (Z_on_grid N e He) as HN.
  pose proof (round_le_grid q (N * 2 ^ (- e) - 1) E) as Hr. fold e in Hr.
  rewrite inject_Z_pred_mul in Hr.
  remember (inject_Z (N * 2 ^ (- e)) * pow2 e) as m eqn:Hm. clear Hm.
  clearbody e. assert (roundDouble q <= m - pow2 e) by (apply Hr; lra). lra.
Qed.

Lemma round_gt_Z q N :
  ~ q == 0 -> (ulpExponent q <= 0)%Z ->
  inject_Z N + pow2 (ulpExponent q - 1) < q ->
  inject_Z N < roundDouble q.
Proof.
  intros E He H. set (e := ulpExponent q) in *.
  pose proof (pow2_pos e) as Hp. rewrite pow2_pred in H.
  pose proof (Z_on_grid N e He) as HN.
  pose proof (round_ge_grid q (N * 2 ^ (- e) + 1) E) as Hr. fold e in Hr.
  rewrite inject_Z_succ_mul in Hr.
  remember (inject_Z (N * 2 ^ (- e)) * pow2 e) as m eqn:Hm. clear Hm.
  clearbody e. assert (m + pow2 e <= roundDouble q) by (apply Hr; lra). lra.
Qed.

Lemma pow2_ge_2 e : (1 <= e)%Z -> 2 <= pow2 e.
Proof. intros H. change 2 with (pow2 1). by apply pow2_le. Qed.

(** A number from [2 ^ 53] on takes in what is less than 1. *)
Lemma absorb_up y s :
  isDouble y = true -> pow2 53 <= y -> 0 <= s -> s < 1 ->
  roundDouble (y + s) <= y.
Proof.
  intros Hy Hbig Hs0 Hs1. pose proof (pow2_pos 53) as H53.
  assert (~ y == 0) as Ey by lra. assert (~ y + s == 0) as Eq by lra.
  destruct (double_grid y Hy Ey) as [M HM].
  set (e := ulpExponent y) in *.
  assert (1 <= e)%Z as He.
  { apply ulpExponent_ge. by rewrite Qabs_pos by lra. }
  pose proof (pow2_ge_2 e He) as Hp.
  assert (y + pow2 e <= pow2 (e + 53)) as Hroom.
  { pose proof (ulpExponent_upper y Ey) as Hu. fold e in Hu. rewrite Qabs_pos in Hu by lra.
    replace (e + 53)%Z with (53 + e)%Z in * by lia. rewrite pow2_add in *.
    rewrite (pow2_nonneg_eq 53) in * by lia. rewrite HM in *.
    apply grid_gap; [apply pow2_pos|exact Hu]. }
  assert (ulpExponent (y + s) = e) as Heq.
  { assert (ulpExponent (y + s) <= e)%Z.
    { apply ulpExponent_lt; [exact Eq| |lia]. rewrite Qabs_pos by lra. lra. }
    assert (e <= ulpExponent (y + s))%Z; [|lia].
    apply ulpExponent_mono; [exact Ey|]. rewrite !Qabs_pos by lra. lra. }
  pose proof (round_le_grid (y + s) M Eq) as Hr. rewrite Heq in Hr.
  rewrite HM at 2. apply Hr. lra.
Qed.

Lemma absorb_down y s :
  isDouble y = true -> 0 <= s -> s < 1 -> pow2 53 <= y - s ->
  y <= roundDouble (y - s).
Proof.
  intros Hy Hs0 Hs1 Hbig. pose proof (pow2_pos 53) as H53.
  assert (~ y == 0) as Ey by lra. assert (~ y - s == 0) as Et by lra.
  destruct (double_grid y Hy Ey) as [M HM].
  set (e := ulpExponent y) in *. set (e' := ulpExponent (y - s)).
  assert (1 <= e')%Z as He'.
  { apply ulpExponent_ge. by rewrite Qabs_pos by lra. }
  assert (e' <= e)%Z as Hee.
  { apply ulpExponent_mono; [exact Et|]. rewrite !Qabs_pos by lra. lra. }
  pose proof (pow2_ge_2 e' He') as Hp.
  rewrite (grid_coarser M e e' Hee) in HM.
  pose proof (round_ge_grid (y - s) (M * 2 ^ (e - e')) Et) as Hr. fold e' in Hr.
  rewrite HM at 1. apply Hr. lra.
Qed.

(** A number below 1 is at most [1 - 2 ^ -53]. *)
Lemma double_below_1 s :
  isDouble s = true -> 0 <= s -> s < 1 -> s <= 1 - pow2 (-53).
Proof.
  intros Hd Hs0 Hs1. destruct (Qeq_dec s 0) as [E|E].
  { rewrite E. assert (pow2 (-53) <= pow2 0) by (apply pow2_le; lia).
    change (pow2 0) with 1 in H. lra. }
  destruct (double_grid s Hd E) as [M HM]. set (e := ulpExponent s) in *.
  assert (e <= -53)%Z as He.
  { apply ulpExponent_lt; [exact E| |lia]. rewrite Qabs_pos by lra.
    by replace (-53 + 53)%Z with 0%Z by lia. }
  destruct (Z.eq_dec e (-53)) as [E53|Hne].
  - rewrite E53 in HM. pose proof (Z_on_grid 1 (-53) ltac:(lia)) as H1.
    change (inject_Z 1) with 1 in H1.
    assert (inject_Z M * pow2 (-53) + pow2 (-53)
            <= inject_Z (1 * 2 ^ (- -53)) * pow2 (-53)) as Hg.
    { apply grid_gap; [apply pow2_pos|]. rewrite <- H1, <- HM. exact Hs1. }
    rewrite <- H1, <- HM in Hg. lra.
  - pose proof (ulpExponent_upper s E) as Hu. fold e in Hu. rewrite Qabs_pos in Hu by lra.
    assert (pow2 (e + 53) <= pow2 (-1)) as H1 by (apply pow2_le; lia).
    assert (pow2 (-53) <= pow2 (-1)) as H2 by (apply pow2_le; lia).
    change (pow2 (-1)) with (1 # 2) in *. lra.
Qed.

(** A number from [2 ^ 53] on is an even integer. *)
Lemma double_big_even y :
  isDouble y = true -> pow2 53 <= y -> exists J, y == inject_Z (2 * J).
Proof.
  intros Hy Hbig. pose proof (pow2_pos 53) as H53.
  assert (~ y == 0) as Ey by lra.
  destruct (double_grid y Hy Ey) as [M HM]. set (e := ulpExponent y) in *.
  assert (1 <= e)%Z as He.
  { apply ulpExponent_ge. by rewrite Qabs_pos by lra. }
  exists (M * 2 ^ (e - 1))%Z. rewrite HM.
  rewrite (grid_coarser M e 1 He). change (pow2 1) with (inject_Z 2).
  rewrite <- inject_Z_mult. apply inject_Z_injective. lia.
Qed.

(** *** One step of a number below 1 *)

Lemma grid_above_Z x z :
  isDouble x = true -> ~ x == 0 -> (ulpExponent x <= 0)%Z ->
  x < inject_Z z -> x + pow2 (ulpExponent x) <= inject_Z z.
Proof.
  intros Hx E He Hlt. destruct (double_grid x Hx E) as [M HM].
  pose proof (Z_on_grid z _ He) as Hz.
  pose proof (grid_gap M (z * 2 ^ (- ulpExponent x)) _ (pow2_pos (ulpExponent x))) as Hg.
  remember (inject_Z (z * 2 ^ (- ulpExponent x)) * pow2 (ulpExponent x)) as kp eqn:Hkp.
  clear Hkp. assert (inject_Z M * pow2 (ulpExponent x) + pow2 (ulpExponent x) <= kp)
    by (apply Hg; lra).
  lra.
Qed.

Lemma grid_below_Z x z :
  isDouble x = true -> ~ x == 0 -> (ulpExponent x <= 0)%Z ->
  inject_Z z < x -> inject_Z z + pow2 (ulpExponent x) <= x.
Proof.
  intros Hx E He Hlt. destruct (double_grid x Hx E) as [M HM].
  pose proof (Z_on_grid z _ He) as Hz.
  pose proof (grid_gap (z * 2 ^ (- ulpExponent x)) M _ (pow2_pos (ulpExponent x))) as Hg.
  remember (inject_Z (z * 2 ^ (- ulpExponent x)) * pow2 (ulpExponent x)) as kp eqn:Hkp.
  clear Hkp. assert (kp + pow2 (ulpExponent x) <= inject_Z M * pow2 (ulpExponent x))
    by (apply Hg; lra).
  lra.
Qed.

Lemma pow2_53_Z : pow2 53 == inject_Z (2 ^ 53).
Proof. reflexivity. Qed.

Lemma Qfloor_lt_inject q k : q < inject_Z k -> (Qfloor q < k)%Z.
Proof.
  intros Hq. pose proof (Qfloor_le q) as Hf.
  rewrite Zlt_Qlt. by eapply Qle_lt_trans.
Qed.

Lemma Qfloor_bounds x :
  inject_Z (Qfloor x) <= x /\ x < inject_Z (Qfloor x) + 1.
Proof.
  split; [apply Qfloor_le|]. pose proof (Qlt_floor x) as H.
  rewrite inject_Z_plus in H. exact H.
Qed.

(** The sum of a number and of a number of [0, 1) rounds below the
    second integer above the first number. *)
Lemma step_up_upper x s :
  isDouble x = true -> isDouble s = true -> 0 <= s -> s < 1 ->
  roundDouble (x + s) < inject_Z (Qfloor x + 2).
Proof.
  intros Hx Hs Hs0 Hs1. destruct (Qfloor_bounds x) as [Hn1 Hn2].
  set (n := Qfloor x) in *. rewrite inject_Z_plus. change (inject_Z 2) with 2.
  pose proof (proj1 (isDouble_spec s) Hs) as Hrs.
  pose proof (pow2_pos 53) as H53. pose proof pow2_53_Z as H53Z.
  destruct (Qlt_le_dec x 0) as [Hneg|Hpos].
  - (* x < 0 *)
    destruct (Z_le_gt_dec (-1) n) as [Hn|Hn].
    + assert (roundDouble (x + s) <= roundDouble s) as H by (apply roundDouble_mono; lra).
      assert (-1 <= inject_Z n) as HnQ.
      { change (-1) with (inject_Z (-1)). rewrite <- Zle_Qle. lia. }
      lra.
    + set (y := - x). set (P := (- (n + 2))%Z).
      assert (isDouble y = true) as Hy by (by apply isDouble_opp).
      assert (inject_Z P == - inject_Z n - 2) as HP.
      { unfold P. rewrite inject_Z_opp, inject_Z_plus. change (inject_Z 2) with 2. ring. }
      assert (0 <= inject_Z P) as HP0.
      { change 0 with (inject_Z 0). rewrite <- Zle_Qle. unfold P. lia. }
      assert (inject_Z P + 1 < y) as Hy1 by (unfold y; lra).
      assert (inject_Z P < roundDouble (y - s)) as Hgoal.
      { assert (~ y == 0) as Ey by lra. assert (~ y - s == 0) as Et by lra.
        destruct (Qlt_le_dec y (pow2 53)) as [Hsmall|Hbig].
        - assert (ulpExponent y <= 0)%Z as Hey.
          { apply ulpExponent_lt; [exact Ey| |lia]. rewrite Qabs_pos by lra. exact Hsmall. }
          assert (ulpExponent (y - s) <= ulpExponent y)%Z as Het.
          { apply ulpExponent_mono; [exact Et|]. rewrite !Qabs_pos by lra. lra. }
          pose proof (grid_below_Z y (P + 1) Hy Ey Hey) as Hg.
          rewrite inject_Z_plus in Hg. change (inject_Z 1) with 1 in Hg.
          specialize (Hg Hy1).
          apply round_gt_Z; [exact Et|lia|].
          assert (pow2 (ulpExponent (y - s) - 1) <= pow2 (ulpExponent y)) as Hle
            by (apply pow2_le; lia).
          lra.
        - destruct (double_big_even y Hy Hbig) as [J HJ].
          destruct (Z_le_gt_dec (P + 1) (2 ^ 53 - 1)) as [HPs|HPb].
          + assert (inject_Z (P + 1) <= y - s) as Hle.
            { apply Qle_trans with (inject_Z (2 ^ 53 - 1)); [by rewrite <- Zle_Qle|].
              unfold Z.sub. rewrite inject_Z_plus, <- H53Z. change (inject_Z (- (1))) with (-1).
              lra. }
            apply roundDouble_mono in Hle.
            rewrite roundDouble_Z in Hle by (unfold P in *; lia).
            rewrite inject_Z_plus in Hle. change (inject_Z 1) with 1 in Hle. lra.
          + assert (inject_Z (P + 2) <= y) as Hy2.
            { rewrite HJ, <- Zle_Qle.
              assert (P + 1 < 2 * J)%Z; [|lia].
              rewrite Zlt_Qlt, <- HJ. rewrite inject_Z_plus. exact Hy1. }
            assert (pow2 53 <= y - s) as Hbig'.
            { rewrite inject_Z_plus in Hy2. change (inject_Z 2) with 2 in Hy2.
              assert (inject_Z (2 ^ 53) <= inject_Z (P + 1)) as Hc
                by (rewrite <- Zle_Qle; lia).
              rewrite inject_Z_plus in Hc. change (inject_Z 1) with 1 in Hc. lra. }
            pose proof (absorb_down y s Hy Hs0 Hs1 Hbig'). lra. }
      assert (roundDouble (x + s) == - roundDouble (y - s)) as ->.
      { rewrite <- roundDouble_opp. apply roundDouble_comp. unfold y. ring. }
      lra.
  - (* 0 <= x *)
    assert (0 <= inject_Z n) as Hn0.
    { change 0 with (inject_Z 0). rewrite <- Zle_Qle.
      rewrite <- (Qfloor_Z 0). by apply Qfloor_resp_le. }
    destruct (Qeq_dec x 0) as [E0|E0].
    { assert (roundDouble (x + s) == roundDouble s) as -> by (apply roundDouble_comp; lra).
      lra. }
    destruct (Qlt_le_dec x (pow2 53)) as [Hsmall|Hbig].
    + assert (0 < x) as Hx0 by lra.
      assert (ulpExponent x <= 0)%Z as Hex.
      { apply ulpExponent_lt; [exact E0| |lia]. rewrite Qabs_pos by lra. exact Hsmall. }
      pose proof (grid_above_Z x (n + 1) Hx E0 Hex) as Hg.
      rewrite inject_Z_plus in Hg. change (inject_Z 1) with 1 in Hg. specialize (Hg Hn2).
      assert (~ x + s == 0) as Eq by lra.
      assert (x + s < pow2 53) as Hq53.
      { destruct (Z.eq_dec (ulpExponent x) 0) as [Ee|Ee].
        - pose proof (grid_above_Z x (2 ^ 53) Hx E0 Hex) as Hg'.
          rewrite Ee in Hg'. change (pow2 0) with 1 in Hg'.
          rewrite <- H53Z in Hg'. specialize (Hg' Hsmall). lra.
        - pose proof (ulpExponent_upper x E0) as Hu. rewrite Qabs_pos in Hu by lra.
          assert (pow2 (ulpExponent x + 53) <= pow2 52) as H1 by (apply pow2_le; lia).
          assert (pow2 53 == 2 * pow2 52) as H2 by (apply (pow2_succ 52)).
          assert (1 <= pow2 52) as H3 by (change 1 with (pow2 0); apply pow2_le; lia).
          lra. }
      assert (ulpExponent (x + s) <= 0)%Z as Heq.
      { apply ulpExponent_lt; [exact Eq| |lia]. rewrite Qabs_pos by lra. exact Hq53. }
      apply (Qlt_le_trans _ (inject_Z (n + 2))).
      2:{ rewrite inject_Z_plus. change (inject_Z 2) with 2. apply Qle_refl. }
      apply round_lt_Z; [exact Eq|exact Heq|].
      rewrite inject_Z_plus. change (inject_Z 2) with 2.
      destruct (Qlt_le_dec x 1) as [Hx1|Hx1].
      * assert (n = 0%Z) as Hn.
        { assert (n < 1)%Z; [|rewrite Zle_Qle in *; change (inject_Z 0) with 0 in *].
          - rewrite Zlt_Qlt. change (inject_Z 1) with 1. lra.
          - assert (0 <= n)%Z by (rewrite Zle_Qle; exact Hn0). lia. }
        assert (ulpExponent (x + s) <= -52)%Z as He52.
        { apply ulpExponent_lt; [exact Eq| |lia]. rewrite Qabs_pos by lra.
          change (pow2 (-52 + 53)) with 2. lra. }
        pose proof (double_below_1 s Hs Hs0 Hs1) as Hs53.
        assert (pow2 (ulpExponent (x + s) - 1) <= pow2 (-53)) as Hp
          by (apply pow2_le; lia).
        rewrite Hn. change (inject_Z 0) with 0. lra.
      * assert (ulpExponent (x + s) <= ulpExponent x + 1)%Z as He1.
        { apply ulpExponent_lt; [exact Eq| |pose proof (ulpExponent_min x); lia].
          rewrite Qabs_pos by lra.
          pose proof (ulpExponent_upper x E0) as Hu. rewrite Qabs_pos in Hu by lra.
          replace (ulpExponent x + 1 + 53)%Z with (ulpExponent x + 53 + 1)%Z by lia.
          rewrite pow2_succ. lra. }
        assert (pow2 (ulpExponent (x + s) - 1) <= pow2 (ulpExponent x)) as Hp
          by (apply pow2_le; lia).
        lra.
    + pose proof (absorb_up x s Hx Hbig Hs0 Hs1). lra.
Qed.

Lemma step_down_lower x s :
  isDouble x = true -> 0 <= s -> s < 1 ->
  inject_Z (Qfloor x - 1) <= roundDouble (x - s).
Proof.
  intros Hx Hs0 Hs1. destruct (Qfloor_bounds x) as [Hn1 Hn2].
  set (n := Qfloor x) in *.
  pose proof (pow2_pos 53) as H53. pose proof pow2_53_Z as H53Z.
  assert (inject_Z (n - 1) == inject_Z n - 1) as Hn'.
  { unfold Z.sub. rewrite inject_Z_plus, inject_Z_opp. change (inject_Z 1) with 1. ring. }
  destruct (Z_le_gt_dec (Z.abs (n - 1)) (2 ^ 53)) as [Hmid|Hout].
  - rewrite <- (roundDouble_Z (n - 1) Hmid). apply roundDouble_mono. lra.
  - destruct (Z_lt_le_dec 0 n) as [Hp|Hm].
    + assert (inject_Z (2 ^ 53 + 2) <= inject_Z n) as Hbig by (rewrite <- Zle_Qle; lia).
      rewrite inject_Z_plus, <- H53Z in Hbig. change (inject_Z 2) with 2 in Hbig.
      assert (pow2 53 <= x - s) as Hbig' by lra.
      pose proof (absorb_down x s Hx Hs0 Hs1 Hbig'). lra.
    + assert (inject_Z n <= - inject_Z (2 ^ 53)) as Hbig.
      { rewrite <- inject_Z_opp, <- Zle_Qle. lia. }
      rewrite <- H53Z in Hbig.
      set (y := - x). assert (isDouble y = true) as Hy by (by apply isDouble_opp).
      assert (roundDouble (x - s) == - roundDouble (y + s)) as ->.
      { rewrite <- roundDouble_opp. apply roundDouble_comp. unfold y. ring. }
      assert (roundDouble (y + s) <= - inject_Z n); [|lra].
      destruct (Qlt_le_dec y (pow2 53)) as [Hsmall|Hlarge].
      * destruct (Qlt_le_dec (pow2 53) (y + s)) as [Hover|Hunder].
        -- assert (isDouble (pow2 53) = true) as H53d.
           { apply isDouble_spec. rewrite H53Z. apply roundDouble_Z. lia. }
           pose proof (absorb_up (pow2 53) (y + s - pow2 53) H53d (Qle_refl _)) as Ha.
           assert (roundDouble (pow2 53 + (y + s - pow2 53)) == roundDouble (y + s)) as Hc
             by (apply roundDouble_comp; ring).
           rewrite Hc in Ha. assert (roundDouble (y + s) <= pow2 53) by (apply Ha; lra).
           lra.
        -- apply roundDouble_mono in Hunder.
           assert (roundDouble (pow2 53) == pow2 53) as Hr.
           { rewrite H53Z. apply roundDouble_Z. lia. }
           lra.
      * pose proof (absorb_up y s Hy Hlarge Hs0 Hs1). unfold y in *. lra.
Qed.

Lemma step_up x s :
  isDouble x = true -> isDouble s = true -> 0 <= s -> s < 1 ->
  (Qfloor x <= Qfloor (roundDouble (x + s)) <= Qfloor x + 1)%Z.
Proof.
  intros Hx Hs Hs0 Hs1. split.
  - apply Qfloor_resp_le. rewrite <- (proj1 (isDouble_spec x) Hx) at 1.
    apply roundDouble_mono. lra.
  - pose proof (step_up_upper x s Hx Hs Hs0 Hs1) as H.
    apply Qfloor_lt_inject in H. lia.
Qed.

Lemma step_down x s :
  isDouble x = true -> 0 <= s -> s < 1 ->
  (Qfloor x - 1 <= Qfloor (roundDouble (x - s)) <= Qfloor x)%Z.
Proof.
  intros Hx Hs0 Hs1. split.
  - pose proof (step_down_lower x s Hx Hs0 Hs1) as H.
    apply Qfloor_resp_le in H. by rewrite Qfloor_Z in H.
  - apply Qfloor_resp_le. rewrite <- (proj1 (isDouble_spec x) Hx) at 2.
    apply roundDouble_mono. lra.
Qed.

(** *** The distance test *)

Lemma roundDouble_nonpos q : q <= 0 -> roundDouble q <= 0.
Proof.
  intros H. assert (0 <= roundDouble (- q)) as H' by (apply roundDouble_nonneg; lra).
  rewrite roundDouble_opp in H'. lra.
Qed.

Lemma Qabs_roundDouble q : Qabs (roundDouble q) == roundDouble (Qabs q).
Proof.
  destruct (Qlt_le_dec q 0) as [Hn|Hp].
  - rewrite (Qabs_neg q) by lra. rewrite Qabs_neg by (apply roundDouble_nonpos; lra).
    by rewrite roundDouble_opp.
  - rewrite (Qabs_pos q) by lra. by rewrite Qabs_pos by (by apply roundDouble_nonneg).
Qed.

Lemma nearBound_double : roundDouble nearBound == nearBound.
Proof. apply Qeq_bool_iff. vm_compute. reflexivity. Qed.

Lemma nearBound_lt : nearBound < roundDouble (8 # 10) /\ nearBound < 8 # 10.
Proof. split; vm_compute; reflexivity. Qed.

(** When the test [Math.abs(a - b) < 0.8] holds, [a] and [b] are at less
    than 0.8 from each other. *)
Lemma near_sound a b :
  Qabs (fsub a b) < roundDouble (8 # 10) -> Qabs (a - b) < 8 # 10.
Proof.
  unfold fsub. rewrite Qabs_roundDouble. intros H.
  destruct (Qlt_le_dec (Qabs (a - b)) (8 # 10)) as [|Hge]; [done|].
  apply roundDouble_mono in Hge. lra.
Qed.

(** The test holds when they are at [nearBound] or less. *)
Lemma near_complete a b :
  Qabs (a - b) <= nearBound -> Qabs (fsub a b) < roundDouble (8 # 10).
Proof.
  unfold fsub. rewrite Qabs_roundDouble. intros H.
  apply roundDouble_mono in H. rewrite nearBound_double in H.
  pose proof nearBound_lt. lra.
Qed.

Lemma on_grid_double_pos M e :
  (-1074 <= e)%Z -> (0 < M < 2 ^ 53)%Z -> isDouble (inject_Z M * pow2 e) = true.
Proof.
  intros He HM. apply isDouble_spec. set (y := inject_Z M * pow2 e).
  pose proof (pow2_pos e) as Hpe.
  assert (0 < y) as Hy0.
  { unfold y. apply Qmult_lt_0_compat; [|exact Hpe].
    change 0 with (inject_Z 0). rewrite <- Zlt_Qlt. lia. }
  assert (~ y == 0) as E by lra.
  assert (Qabs y < pow2 (e + 53)) as Hy.
  { rewrite Qabs_pos by lra. unfold y.
    rewrite Z.add_comm, pow2_add. apply Qmult_lt_r; [exact Hpe|].
    rewrite (pow2_nonneg_eq 53) by lia. rewrite <- Zlt_Qlt. lia. }
  pose proof (ulpExponent_lt y e E Hy He) as He'.
  rewrite (roundDouble_eq y E).
  assert (y == inject_Z (M * 2 ^ (e - ulpExponent y)) * pow2 (ulpExponent y)) as Hg
    by (unfold y; by apply grid_coarser).
  assert (y / pow2 (ulpExponent y) == inject_Z (M * 2 ^ (e - ulpExponent y))) as Hs.
  { rewrite Hg at 1. field. apply pow2_nonzero. }
  rewrite (roundHalfEven_comp _ _ Hs), roundHalfEven_Z. by rewrite <- Hg.
Qed.

Lemma on_grid_double M e :
  (-1074 <= e)%Z -> (Z.abs M <= 2 ^ 53)%Z -> isDouble (inject_Z M * pow2 e) = true.
Proof.
  intros He HM.
  assert (forall N, (0 < N <= 2 ^ 53)%Z -> isDouble (inject_Z N * pow2 e) = true) as Hpos.
  { intros N HN. destruct (Z.eq_dec N (2 ^ 53)) as [->|Hne].
    - apply isDouble_spec.
      assert (inject_Z (2 ^ 53) * pow2 e == inject_Z (2 ^ 52) * pow2 (e + 1)) as Hq.
      { rewrite pow2_succ. change (2 ^ 53)%Z with (2 * 2 ^ 52)%Z.
        rewrite inject_Z_mult. change (inject_Z 2) with 2. ring. }
      rewrite (roundDouble_comp _ _ Hq), Hq. apply isDouble_spec.
      apply on_grid_double_pos; lia.
    - apply on_grid_double_pos; lia. }
  destruct (Z.lt_trichotomy M 0) as [Hn|[->|Hp]].
  - apply isDouble_spec.
    assert (inject_Z M * pow2 e == - (inject_Z (- M) * pow2 e)) as Hq
      by (rewrite inject_Z_opp; ring).
    rewrite (roundDouble_comp _ _ Hq), Hq. apply isDouble_spec, isDouble_opp, Hpos. lia.
  - apply isDouble_spec. rewrite (roundDouble_0 (inject_Z 0 * pow2 e)); ring.
  - apply Hpos. lia.
Qed.

Lemma mantissa_bound q :
  ~ q == 0 -> (Z.abs (roundHalfEven (q / pow2 (ulpExponent q))) <= 2 ^ 53)%Z.
Proof.
  intros E. pose proof (ulpExponent_upper q E) as Hu. set (e := ulpExponent q) in *.
  assert (pow2 (e + 53) / pow2 e == inject_Z (2 ^ 53)) as H53.
  { rewrite scale_pow2. replace (e + 53 - e)%Z with 53%Z by lia. apply pow2_53_Z. }
  assert (q / pow2 e <= inject_Z (2 ^ 53)) as Hhi.
  { rewrite <- H53. apply scale_le. pose proof (Qle_Qabs q). lra. }
  assert (inject_Z (- 2 ^ 53) <= q / pow2 e) as Hlo.
  { rewrite inject_Z_opp, <- H53.
    assert (- (pow2 (e + 53) / pow2 e) == (- pow2 (e + 53)) / pow2 e) as ->
      by (field; apply pow2_nonzero).
    apply scale_le. pose proof (Qle_Qabs (- q)) as H. rewrite Qabs_opp in H. lra. }
  apply roundHalfEven_mono in Hhi, Hlo. rewrite roundHalfEven_Z in Hhi, Hlo. lia.
Qed.

(** A rounded number is a binary64 value: rounding it again changes nothing. *)
Lemma roundDouble_idem q : isDouble (roundDouble q) = true.
Proof.
  destruct (Qeq_dec q 0) as [E|E]; [by rewrite (roundDouble_0 q E)|].
  apply isDouble_spec.
  rewrite (roundDouble_comp _ _ (roundDouble_eq q E)), (roundDouble_eq q E).
  apply isDouble_spec, on_grid_double; [apply ulpExponent_min|by apply mantissa_bound].
Qed.

Lemma candidateX_double car dx : isDouble (candidateX car dx) = true.
Proof. apply roundDouble_idem. Qed.

Lemma candidateY_double car dy : isDouble (candidateY car dy) = true.
Proof. apply roundDouble_idem. Qed.

Lemma double_mantissa x :
  isDouble x = true -> ~ x == 0 ->
  exists M, (Z.abs M <= 2 ^ 53)%Z /\ x == inject_Z M * pow2 (ulpExponent x).
Proof.
  intros Hx E. apply isDouble_spec in Hx.
  exists (roundHalfEven (x / pow2 (ulpExponent x))).
  split; [by apply mantissa_bound|].
  rewrite <- (roundDouble_eq x E). by rewrite Hx.
Qed.

(** A binary64 value times a power of two is one: [Math.random() * 4] and
    [Math.random() * 2] are exact. *)
Lemma fmul_pow2_exact r k :
  isDouble r = true -> (0 <= k)%Z -> fmul r (inject_Z (2 ^ k)) == r * inject_Z (2 ^ k).
Proof.
  intros Hr Hk. unfold fmul. apply isDouble_spec.
  destruct (Qeq_dec r 0) as [E|E].
  { apply isDouble_spec. rewrite (roundDouble_0 (r * inject_Z (2 ^ k))); rewrite E; ring. }
  destruct (double_mantissa r Hr E) as (M & HM & Hg).
  assert (r * inject_Z (2 ^ k) == inject_Z M * pow2 (ulpExponent r + k)) as Hq.
  { rewrite pow2_add, <- (pow2_nonneg_eq k Hk). rewrite Hg at 1. ring. }
  apply isDouble_spec. rewrite (roundDouble_comp _ _ Hq), Hq. apply isDouble_spec.
  apply on_grid_double; [pose proof (ulpExponent_min r); lia|exact HM].
Qed.

(** The floor of a rounded draw times a length is an index below the
    length, as the floor of the exact product is. *)
Lemma draw_rounded_range r n :
  isDouble r = true -> 0 <= r -> r < 1 -> (0 < n <= 2 ^ 53)%Z ->
  (0 <= Qfloor (fmul r (inject_Z n)) < n)%Z.
Proof.
  intros Hr H0 H1 Hn. unfold fmul. set (q := r * inject_Z n).
  assert (0 < inject_Z n) as Hn0 by (change 0 with (inject_Z 0); rewrite <- Zlt_Qlt; lia).
  assert (1 <= inject_Z n) as Hn1 by (change 1 with (inject_Z 1); rewrite <- Zle_Qle; lia).
  assert (inject_Z n <= pow2 53) as Hn53 by (rewrite pow2_53_Z, <- Zle_Qle; lia).
  assert (0 <= q) as Hq0 by (apply Qmult_le_0_compat; lra).
  pose proof (double_below_1 r Hr H0 H1) as Hr1.
  pose proof (pow2_pos (-53)) as Hp.
  assert (q <= inject_Z n - inject_Z n * pow2 (-53)) as Hq1.
  { assert (inject_Z n - inject_Z n * pow2 (-53) == (1 - pow2 (-53)) * inject_Z n) as -> by ring.
    unfold q. apply Qmult_le_compat_r; lra. }
  assert (0 < inject_Z n * pow2 (-53)) as Hgap by (apply Qmult_lt_0_compat; lra).
  split.
  - pose proof (roundDouble_nonneg q Hq0) as H.
    rewrite <- (Qfloor_Z 0) at 1. apply Qfloor_resp_le. exact H.
  - apply Qfloor_lt_inject.
    destruct (Qeq_dec q 0) as [E|E]; [rewrite (roundDouble_0 q E); lra|].
    assert (Qabs q == q) as Habs by (apply Qabs_pos; lra).
    assert (ulpExponent q <= 0)%Z as He.
    { apply ulpExponent_lt; [exact E| |lia]. rewrite Habs. change (0 + 53)%Z with 53%Z. lra. }
    apply round_lt_Z; [exact E|exact He|].
    assert (pow2 (ulpExponent q - 1) < inject_Z n * pow2 (-53)); [|lra].
    assert (pow2 (ulpExponent q + 52) < inject_Z n) as Hlow.
    { destruct (Z.eq_dec (ulpExponent q) (-1074)) as [->|Hne].
      - assert (pow2 (-1074 + 52) < pow2 0) by (apply pow2_lt; lia).
        change (pow2 0) with 1 in *. lra.
      - pose proof (ulpExponent_min q).
        pose proof (ulpExponent_lower q E ltac:(lia)) as Hl. rewrite Habs in Hl. lra. }
    replace (ulpExponent q - 1)%Z with (ulpExponent q + 52 + -53)%Z by lia.
    rewrite pow2_add. apply Qmult_lt_r; [exact Hp|exact Hlow].
Qed.

Local Close Scope Q_scope.

(** ** The tick of the cars *)

Lemma Qltb_spec a b : Qltb a b = true <-> (a < b)%Q.
Proof.
  unfold Qltb. rewrite negb_true_iff. split.
  - intros H. apply Qnot_le_lt. intros Hle.
    apply Qle_bool_iff in Hle. congruence.
  - intros H. destruct (Qle_bool b a) eqn:E; [|reflexivity].
    apply Qle_bool_iff in E. exfalso. by apply (Qlt_not_le a b).
Qed.

Lemma Qfloor_scaled_range u k :
  0 < k -> (0 <= u)%Q -> (u < 1)%Q -> 0 <= Qfloor (u * inject_Z k) < k.
Proof.
  intros Hk H0 H1. split.
  - change 0 with (Qfloor (inject_Z 0)). apply Qfloor_resp_le.
    apply Qmult_le_0_compat; [exact H0|].
    change 0%Q with (inject_Z 0). rewrite <- Zle_Qle. lia.
  - rewrite Zlt_Qlt. eapply Qle_lt_trans; [apply Qfloor_le|].
    apply Qlt_le_trans with (1 * inject_Z k)%Q.
    + apply Qmult_lt_r; [|exact H1].
      change 0%Q with (inject_Z 0). rewrite <- Zlt_Qlt. lia.
    + rewrite Qmult_1_l. apply Qle_refl.
Qed.

Lemma validDirection_spec c :
  validDirection c = true <-> 0 <= car_direction c < 4.
Proof. unfold validDirection. rewrite andb_true_iff, Z.leb_le, Z.ltb_lt. lia. Qed.

Lemma carDirection_valid d :
  0 <= d < 4 -> exists dx dy, carDirection d = Some (dx, dy).
Proof.
  intros H. unfold carDirection.
  assert (d = 0 \/ d = 1 \/ d = 2 \/ d = 3) as [-> | [-> | [-> | ->]]] by lia;
    simpl; eauto.
Qed.

Lemma moveCar_outcome grid prevCars car rng dx dy :
  carDirection (car_direction car) = Some (dx, dy) ->
  exists car' rng',
    moveCar grid prevCars car rng = Ok (car', rng') /\
    moveOutcome grid prevCars car rng dx dy car' rng'.
Proof.
  intros Hd. unfold moveCar. rewrite Hd. cbn [random].
  destruct (blockedCell _ _ _) eqn:Hb.
  { eexists _, _. split; [reflexivity|]. by apply mo_blocked. }
  destruct (collides _ _ _ _) eqn:Hc.
  - destruct (car_stuckTime car >? 20) eqn:Hs.
    + eexists _, _. split; [reflexivity|]. apply mo_escalate; auto.
      apply Z.gtb_lt in Hs. lia.
    + eexists _, _. split; [reflexivity|]. apply mo_wait; auto.
      rewrite Z.gtb_ltb in Hs. apply Z.ltb_ge in Hs. lia.
  - destruct (Qltb (rng O) (roundDouble (1 # 1000))) eqn:Hr.
    + eexists _, _. split; [reflexivity|]. by apply mo_turn.
    + eexists _, _. split; [reflexivity|]. by apply mo_move.
Qed.

(** The test on the draw of a move plays no part in most proofs. *)
Ltac forget_draws :=
  repeat match goal with H : Qltb _ _ = _ |- _ => clear H end.

Lemma moveCar_error grid prevCars car rng :
  carDirection (car_direction car) = None ->
  moveCar grid prevCars car rng = TypeError.
Proof. intros Hd. unfold moveCar. by rewrite Hd. Qed.

Lemma rngSuffix_refl rng : rngSuffix rng rng.
Proof. by exists O. Qed.

Lemma rngSuffix_trans a b c : rngSuffix a b -> rngSuffix b c -> rngSuffix a c.
Proof.
  intros [j Hj] [k Hk]. exists (j + k)%nat. intros n.
  rewrite Hk, Hj. f_equal. lia.
Qed.

Lemma moveOutcome_suffix grid prevCars car rng dx dy car' rng' :
  moveOutcome grid prevCars car rng dx dy car' rng' -> rngSuffix rng rng'.
Proof.
  intros []; forget_draws; try apply rngSuffix_refl;
    first [by exists 1%nat | by exists 2%nat].
Qed.

Lemma mapCars_outcome grid prevCars cars rng :
  forallb validDirection cars = true ->
  exists cars' rng',
    mapCars grid prevCars cars rng = Ok (cars', rng') /\
    rngSuffix rng rng' /\
    Forall2 (tickOf grid prevCars rng) cars cars'.
Proof.
  revert rng. induction cars as [|car cars IH]; intros rng Hv.
  - exists [], rng. split; [reflexivity|]. split; [apply rngSuffix_refl|constructor].
  - cbn [forallb] in Hv. apply andb_true_iff in Hv as [Hd Hv].
    apply validDirection_spec, carDirection_valid in Hd as (dx & dy & Hd).
    destruct (moveCar_outcome grid prevCars car rng dx dy Hd)
      as (car' & rng1 & Hm & Ho).
    destruct (IH rng1 Hv) as (cars' & rng2 & Hmap & Hs & Hall).
    pose proof (moveOutcome_suffix _ _ _ _ _ _ _ _ Ho) as Hs1.
    exists (car' :: cars'), rng2.
    cbn [mapCars]. rewrite Hm. cbn [bind snd fst]. rewrite Hmap. cbn [bind snd fst].
    split; [reflexivity|]. split; [by eapply rngSuffix_trans|].
    constructor.
    + exists dx, dy, rng, rng1. split; [exact Hd|]. split; [apply rngSuffix_refl|exact Ho].
    + eapply Forall2_impl; [exact Hall|].
      intros c c' (dx' & dy' & r & r' & Hd' & Hsuf & Ho').
      exists dx', dy', r, r'. split; [exact Hd'|]. split; [|exact Ho'].
      by eapply rngSuffix_trans.
Qed.

Lemma moveCars_outcome st rng :
  forallb validDirection (st_cars st) = true ->
  exists cars' rng',
    moveCars st rng =
      Ok (mkAppState (st_grid st) cars' (st_startPoint st) (st_endPoint st)
            (st_currentPath st), rng') /\
    Forall2 (tickOf (st_grid st) (st_cars st) rng) (st_cars st) cars'.
Proof.
  intros Hv.
  destruct (mapCars_outcome (st_grid st) (st_cars st) (st_cars st) rng Hv)
    as (cars' & rng' & Hmap & _ & Hall).
  exists cars', rng'. unfold moveCars. rewrite Hmap. by split.
Qed.

Lemma moveOutcome_frame grid prevCars car rng dx dy car' rng' :
  moveOutcome grid prevCars car rng dx dy car' rng' ->
  car_id car' = car_id car /\ car_color car' = car_color car /\
  car_speed car' = car_speed car.
Proof. intros []; forget_draws; done. Qed.

(** C10. When every car has one of the four directions, [moveCars]
    returns a car list of the same length, in which the car at each index
    has the [id], [color] and [speed] of the input car at that index; the
    grid of the state is the same, as are the start point, the end point
    and the current path. *)
Theorem C10_tick_frame st rng :
  forallb validDirection (st_cars st) = true ->
  exists st' rng',
    moveCars st rng = Ok (st', rng') /\
    length (st_cars st') = length (st_cars st) /\
    (forall i c, st_cars st !! i = Some c ->
       exists c', st_cars st' !! i = Some c' /\
         car_id c' = car_id c /\ car_color c' = car_color c /\
         car_speed c' = car_speed c) /\
    st_grid st' = st_grid st /\
    st_startPoint st' = st_startPoint st /\
    st_endPoint st' = st_endPoint st /\
    st_currentPath st' = st_currentPath st.
Proof.
  intros Hv.
  destruct (moveCars_outcome st rng Hv) as (cars' & rng' & Hm & Hall).
  eexists _, rng'. split; [exact Hm|]. cbn [st_cars st_grid st_startPoint
    st_endPoint st_currentPath].
  split; [symmetry; by eapply Forall2_length|].
  split; [|by repeat split].
  intros i c Hi.
  destruct (Forall2_lookup_l _ _ _ _ _ Hall Hi) as (c' & Hi' & Hc).
  exists c'. split; [exact Hi'|].
  destruct Hc as (dx & dy & r & r' & _ & _ & Ho).
  by eapply moveOutcome_frame.
Qed.

Lemma C10_tick_frame_witness :
  exists st' rng',
    moveCars demoState demoRng = Ok (st', rng') /\
    length (st_cars st') = length (st_cars demoState) /\
    (forall i c, st_cars demoState !! i = Some c ->
       exists c', st_cars st' !! i = Some c' /\
         car_id c' = car_id c /\ car_color c' = car_color c /\
         car_speed c' = car_speed c) /\
    st_grid st' = st_grid demoState /\
    st_startPoint st' = st_startPoint demoState /\
    st_endPoint st' = st_endPoint demoState /\
    st_currentPath st' = st_currentPath demoState.
Proof. apply C10_tick_frame. reflexivity. Defined.

Lemma blockedCell_false grid x y :
  wf_grid grid = true -> blockedCell grid x y = false ->
  in_bounds (mkPoint x y) = true /\
  exists c, cell_at grid x y = Some c /\ isWall c = false.
Proof.
  intros Hwf Hb. unfold blockedCell in Hb.
  rewrite !orb_false_iff in Hb. destruct Hb as [[[[H1 H2] H3] H4] H5].
  apply Z.ltb_ge in H1, H3. rewrite Z.geb_leb in H2, H4.
  apply Z.leb_gt in H2, H4.
  split; [apply in_bounds_spec; simpl; lia|].
  destruct (wf_grid_cell grid x y Hwf) as [c Hc]; [lia..|].
  rewrite Hc in H5. eauto.
Qed.

Lemma moveOutcome_onRoad grid prevCars car rng dx dy car' rng' :
  wf_grid grid = true ->
  moveOutcome grid prevCars car rng dx dy car' rng' ->
  onRoad grid car = true -> onRoad grid car' = true.
Proof.
  intros Hwf Ho Hr.
  destruct Ho as [Hb|Hb Hc Hs|Hb Hc Hs|Hb Hc Hq|Hb Hc Hq]; try exact Hr;
    apply (blockedCell_false _ _ _ Hwf) in Hb as (Hin & c & Hc' & Hw);
    unfold onRoad, carCell; cbn [moveTo car_x car_y pt_x pt_y];
    rewrite Hin, Hc', Hw; reflexivity.
Qed.

Lemma moveOutcome_blocked grid prevCars car rng dx dy car' rng' :
  moveOutcome grid prevCars car rng dx dy car' rng' ->
  blockedCell grid (Qfloor (candidateX car dx)) (Qfloor (candidateY car dy)) = true ->
  car' = setDirection car (Qfloor (rng O * 4)) 0.
Proof. intros [] Hb; congruence. Qed.

(** C6. On a grid of 60 rows of 120 cells, when the cell of every car
    (the floor of its position) is in the grid and not a wall, and every
    car has one of the four directions, [moveCars] returns cars whose cells
    are all in the grid and not walls; a car whose candidate cell is out of
    the grid or a wall keeps its position. The candidate is the one the
    source computes, in binary64 arithmetic. *)
Theorem C6_cars_stay_on_roads st rng :
  wf_grid (st_grid st) = true ->
  forallb validDirection (st_cars st) = true ->
  forallb (onRoad (st_grid st)) (st_cars st) = true ->
  exists st' rng',
    moveCars st rng = Ok (st', rng') /\
    forallb (onRoad (st_grid st')) (st_cars st') = true /\
    forall i c c' dx dy,
      st_cars st !! i = Some c -> st_cars st' !! i = Some c' ->
      carDirection (car_direction c) = Some (dx, dy) ->
      blockedCell (st_grid st) (Qfloor (candidateX c dx))
        (Qfloor (candidateY c dy)) = true ->
      car_x c' = car_x c /\ car_y c' = car_y c.
Proof.
  intros Hwf Hv Hr.
  destruct (moveCars_outcome st rng Hv) as (cars' & rng' & Hm & Hall).
  eexists _, rng'. split; [exact Hm|]. cbn [st_cars st_grid].
  split.
  - rewrite forallb_forall in Hr. apply forallb_forall. intros c' Hin.
    apply list_elem_of_In, list_elem_of_lookup in Hin as [i Hi].
    destruct (Forall2_lookup_r _ _ _ _ _ Hall Hi) as (c & Hc & Ht).
    destruct Ht as (dx & dy & r & r' & _ & _ & Ho).
    eapply moveOutcome_onRoad; [exact Hwf|exact Ho|].
    apply Hr, list_elem_of_In, list_elem_of_lookup. eauto.
  - intros i c c' dx dy Hc Hc' Hd Hb.
    destruct (Forall2_lookup_l _ _ _ _ _ Hall Hc) as (c2 & Hc2 & Ht).
    assert (c2 = c') as -> by congruence.
    destruct Ht as (dx' & dy' & r & r' & Hd' & _ & Ho).
    assert (dx' = dx /\ dy' = dy) as [-> ->] by (split; congruence).
    rewrite (moveOutcome_blocked _ _ _ _ _ _ _ _ Ho Hb). by split.
Qed.

Lemma C6_cars_stay_on_roads_witness :
  exists st' rng',
    moveCars demoState demoRng = Ok (st', rng') /\
    forallb (onRoad (st_grid st')) (st_cars st') = true /\
    forall i c c' dx dy,
      st_cars demoState !! i = Some c -> st_cars st' !! i = Some c' ->
      carDirection (car_direction c) = Some (dx, dy) ->
      blockedCell (st_grid demoState) (Qfloor (candidateX c dx))
        (Qfloor (candidateY c dy)) = true ->
      car_x c' = car_x c /\ car_y c' = car_y c.
Proof.
  apply C6_cars_stay_on_roads; vm_compute; reflexivity.
Defined.

Lemma collides_spec prevCars car newX newY :
  collides prevCars car newX newY = true <->
  exists other, other ∈ prevCars /\ car_id other <> car_id car /\
    (Qabs (fsub (car_x other) newX) < roundDouble (8 # 10))%Q /\
    (Qabs (fsub (car_y other) newY) < roundDouble (8 # 10))%Q.
Proof.
  unfold collides. rewrite existsb_exists. split.
  - intros (o & Hin & H). exists o.
    rewrite !andb_true_iff, negb_true_iff, Z.eqb_neq, !Qltb_spec in H.
    rewrite list_elem_of_In. tauto.
  - intros (o & Hin & H). exists o.
    rewrite !andb_true_iff, negb_true_iff, Z.eqb_neq, !Qltb_spec.
    rewrite <- list_elem_of_In. tauto.
Qed.

(** C7. In a tick, for the car at each index whose candidate cell is in
    the grid and not a wall: the collision test is made against the car
    list the tick started from; it holds exactly when a car of that list
    with another [id] is at less than 0.8 from the candidate position on
    the x axis and on the y axis, the candidate and the two distances
    being the ones the source computes in binary64 arithmetic: when it
    holds the two exact distances are below 0.8, and it does hold when
    they are at most [nearBound], the binary64 value before that of 0.8;
    a car for which it holds and whose [stuckTime] is at most 20 is
    returned unchanged but for [stuckTime], one more; with [stuckTime]
    above 20 it is returned at the same position with [stuckTime] 0 and
    direction [(direction + 1 + r) mod 4], where [r], 0 or 1, is the floor
    of twice a value of the random stream; a car for which it does not
    hold is at its candidate position. *)
Theorem C7_collision_rule st rng :
  forallb validDirection (st_cars st) = true ->
  (forall n, 0 <= rng n)%Q -> (forall n, rng n < 1)%Q ->
  exists st' rng',
    moveCars st rng = Ok (st', rng') /\
    forall i car, st_cars st !! i = Some car ->
      exists car' dx dy,
        st_cars st' !! i = Some car' /\
        carDirection (car_direction car) = Some (dx, dy) /\
        let newX := candidateX car dx in
        let newY := candidateY car dy in
        blockedCell (st_grid st) (Qfloor newX) (Qfloor newY) = false ->
        (collides (st_cars st) car newX newY = true <->
         exists other, other ∈ st_cars st /\ car_id other <> car_id car /\
           (Qabs (fsub (car_x other) newX) < roundDouble (8 # 10))%Q /\
           (Qabs (fsub (car_y other) newY) < roundDouble (8 # 10))%Q) /\
        (collides (st_cars st) car newX newY = true ->
         exists other, other ∈ st_cars st /\ car_id other <> car_id car /\
           (Qabs (car_x other - newX) < 8 # 10)%Q /\
           (Qabs (car_y other - newY) < 8 # 10)%Q) /\
        ((exists other, other ∈ st_cars st /\ car_id other <> car_id car /\
            (Qabs (car_x other - newX) <= nearBound)%Q /\
            (Qabs (car_y other - newY) <= nearBound)%Q) ->
         collides (st_cars st) car newX newY = true) /\
        (collides (st_cars st) car newX newY = true ->
         car_stuckTime car <= 20 ->
         car' = setStuck car (car_stuckTime car + 1)) /\
        (collides (st_cars st) car newX newY = true ->
         car_stuckTime car > 20 ->
         exists k r, r = Qfloor (rng k * 2) /\ (r = 0 \/ r = 1) /\
           car' = setDirection car ((car_direction car + 1 + r) mod 4) 0) /\
        (collides (st_cars st) car newX newY = false ->
         car_x car' = newX /\ car_y car' = newY /\ car_stuckTime car' = 0).
Proof.
  intros Hv Hr0 Hr1.
  destruct (moveCars_outcome st rng Hv) as (cars' & rng' & Hm & Hall).
  eexists _, rng'. split; [exact Hm|]. cbn [st_cars st_grid].
  intros i car Hi.
  destruct (Forall2_lookup_l _ _ _ _ _ Hall Hi) as (car' & Hi' & Ht).
  destruct Ht as (dx & dy & r & r' & Hd & [k Hk] & Ho).
  exists car', dx, dy. split; [exact Hi'|]. split; [exact Hd|].
  cbv zeta. intros Hb. split; [apply collides_spec|].
  split.
  { intros (o & Hin & Hid & Hx & Hy) % collides_spec. exists o.
    split; [exact Hin|]. split; [exact Hid|].
    split; [exact (near_sound _ _ Hx)|exact (near_sound _ _ Hy)]. }
  split.
  { intros (o & Hin & Hid & Hx & Hy). apply collides_spec. exists o.
    split; [exact Hin|]. split; [exact Hid|].
    split; [exact (near_complete _ _ Hx)|exact (near_complete _ _ Hy)]. }
  destruct Ho as [Hb'|_ Hc Hs|_ Hc Hs|_ Hc Hq|_ Hc Hq]; [congruence|..].
  - split; [intros; lia|]. split; [|congruence].
    intros _ _. exists (k + 0)%nat, (Qfloor (rng (k + 0)%nat * 2)).
    split; [reflexivity|]. rewrite <- Hk. split; [|reflexivity].
    pose proof (Qfloor_scaled_range (r O) 2) as Hrange.
    rewrite Hk in Hrange. rewrite Hk.
    specialize (Hrange ltac:(lia) (Hr0 _) (Hr1 _)).
    change (inject_Z 2) with (2 : Q) in Hrange. lia.
  - split; [auto|]. split; [intros; lia|congruence].
  - forget_draws. split; [congruence|]. split; [congruence|]. by intros _.
  - forget_draws. split; [congruence|]. split; [congruence|]. by intros _.
Qed.

Lemma C7_collision_rule_witness :
  exists st' rng',
    moveCars demoState demoRng = Ok (st', rng') /\
    forall i car, st_cars demoState !! i = Some car ->
      exists car' dx dy,
        st_cars st' !! i = Some car' /\
        carDirection (car_direction car) = Some (dx, dy) /\
        let newX := candidateX car dx in
        let newY := candidateY car dy in
        blockedCell (st_grid demoState) (Qfloor newX) (Qfloor newY) = false ->
        (collides (st_cars demoState) car newX newY = true <->
         exists other, other ∈ st_cars demoState /\ car_id other <> car_id car /\
           (Qabs (fsub (car_x other) newX) < roundDouble (8 # 10))%Q /\
           (Qabs (fsub (car_y other) newY) < roundDouble (8 # 10))%Q) /\
        (collides (st_cars demoState) car newX newY = true ->
         exists other, other ∈ st_cars demoState /\ car_id other <> car_id car /\
           (Qabs (car_x other - newX) < 8 # 10)%Q /\
           (Qabs (car_y other - newY) < 8 # 10)%Q) /\
        ((exists other, other ∈ st_cars demoState /\ car_id other <> car_id car /\
            (Qabs (car_x other - newX) <= nearBound)%Q /\
            (Qabs (car_y other - newY) <= nearBound)%Q) ->
         collides (st_cars demoState) car newX newY = true) /\
        (collides (st_cars demoState) car newX newY = true ->
         car_stuckTime car <= 20 ->
         car' = setStuck car (car_stuckTime car + 1)) /\
        (collides (st_cars demoState) car newX newY = true ->
         car_stuckTime car > 20 ->
         exists k r, r = Qfloor (demoRng k * 2) /\ (r = 0 \/ r = 1) /\
           car' = setDirection car ((car_direction car + 1 + r) mod 4) 0) /\
        (collides (st_cars demoState) car newX newY = false ->
         car_x car' = newX /\ car_y car' = newY /\ car_stuckTime car' = 0).
Proof.
  apply C7_collision_rule.
  - reflexivity.
  - intros n. unfold demoRng, Qle. simpl. lia.
  - intros n. unfold demoRng, Qlt. simpl. lia.
Defined.

(** ** Clicks *)

(** C9. A click on a cell of the grid that is a wall, or on which a car
    stands (the floor of its position is the cell), returns the state
    unchanged. A click on a cell that is neither sets the start point when
    there is none; sets the end point when there is a start point and no
    end point; and, when both are set, sets the start point to the clicked
    cell, clears the end point and empties the current path. Nothing else
    of the state changes. *)
Theorem C9_click_selects_points offsetX offsetY st x y c :
  clickedCell offsetX offsetY = (x, y) ->
  in_bounds (mkPoint x y) = true ->
  cell_at (st_grid st) x y = Some c ->
  (isWall c = true \/ carAt (st_cars st) x y = true ->
   handleCanvasClick offsetX offsetY st = st) /\
  (isWall c = false -> carAt (st_cars st) x y = false ->
   (st_startPoint st = None ->
    handleCanvasClick offsetX offsetY st =
      mkAppState (st_grid st) (st_cars st) (Some (mkPoint x y))
        (st_endPoint st) (st_currentPath st)) /\
   (forall s, st_startPoint st = Some s -> st_endPoint st = None ->
    handleCanvasClick offsetX offsetY st =
      mkAppState (st_grid st) (st_cars st) (Some s)
        (Some (mkPoint x y)) (st_currentPath st)) /\
   (forall s e, st_startPoint st = Some s -> st_endPoint st = Some e ->
    handleCanvasClick offsetX offsetY st =
      mkAppState (st_grid st) (st_cars st) (Some (mkPoint x y)) None [])).
Proof.
  intros Hxy Hb Hc. apply in_bounds_spec in Hb. cbn [pt_x pt_y] in Hb.
  unfold handleCanvasClick. rewrite Hxy.
  replace ((x <? 0) || (x >=? GRID_COLS) || (y <? 0) || (y >=? GRID_ROWS))
    with false.
  2:{ symmetry. rewrite !orb_false_iff, !Z.geb_leb, !Z.ltb_ge, !Z.leb_gt. lia. }
  rewrite Hc. split.
  - intros [Hw|Hcar].
    + by rewrite Hw.
    + rewrite Hcar. by rewrite andb_false_r.
  - intros Hw Hcar. rewrite Hw, Hcar. cbn [negb andb].
    split; [|split].
    + intros Hs. by rewrite Hs.
    + intros s Hs He. by rewrite Hs, He.
    + intros s e Hs He. by rewrite Hs, He.
Qed.

Lemma C9_click_selects_points_witness :
  (isWall (mkCell false true false false false None) = true \/
   carAt (st_cars demoState) 20 8 = true ->
   handleCanvasClick (165 # 1) (70 # 1) demoState = demoState) /\
  (isWall (mkCell false true false false false None) = false ->
   carAt (st_cars demoState) 20 8 = false ->
   (st_startPoint demoState = None ->
    handleCanvasClick (165 # 1) (70 # 1) demoState =
      mkAppState (st_grid demoState) (st_cars demoState) (Some (mkPoint 20 8))
        (st_endPoint demoState) (st_currentPath demoState)) /\
   (forall s, st_startPoint demoState = Some s -> st_endPoint demoState = None ->
    handleCanvasClick (165 # 1) (70 # 1) demoState =
      mkAppState (st_grid demoState) (st_cars demoState) (Some s)
        (Some (mkPoint 20 8)) (st_currentPath demoState)) /\
   (forall s e, st_startPoint demoState = Some s -> st_endPoint demoState = Some e ->
    handleCanvasClick (165 # 1) (70 # 1) demoState =
      mkAppState (st_grid demoState) (st_cars demoState) (Some (mkPoint 20 8)) None [])).
Proof.
  apply (C9_click_selects_points (165 # 1) (70 # 1) demoState 20 8).
  - reflexivity.
  - reflexivity.
  - vm_compute. reflexivity.
Defined.

(** ** Lists: [pop] and the stable sort *)

Lemma pop_None {A} (l : list A) : pop l = None <-> l = [].
Proof.
  destruct l as [|a l]; [done|]. simpl.
  destruct (pop l) as [[r z]|]; done.
Qed.

Lemma pop_Some {A} (l r : list A) z : pop l = Some (r, z) <-> l = r ++ [z].
Proof.
  revert r z. induction l as [|a l IH]; intros r z; simpl.
  - split; [done|]. by destruct r.
  - destruct (pop l) as [[r' z']|] eqn:E.
    + split.
      * intros [= <- <-]. simpl. f_equal. by apply IH.
      * intros H. destruct r as [|b r]; simpl in H.
        -- injection H as _ ->. simpl in E. discriminate.
        -- injection H as -> H. apply IH in H. congruence.
    + apply pop_None in E. subst l. split.
      * by intros [= <- <-].
      * intros H. destruct r as [|b r]; simpl in H.
        -- by injection H as ->.
        -- injection H as _ H. by destruct r.
Qed.

Lemma insertBy_perm {A} (key : A -> Z) a l : insertBy key a l ≡ₚ a :: l.
Proof.
  induction l as [|b l IH]; simpl; [done|].
  destruct (key a <=? key b); [done|].
  rewrite IH. apply Permutation_swap.
Qed.

Lemma sortBy_perm {A} (key : A -> Z) l : sortBy key l ≡ₚ l.
Proof.
  induction l as [|a l IH]; simpl; [done|].
  unfold sortBy in *. simpl. rewrite insertBy_perm. by rewrite IH.
Qed.

Lemma insertBy_head_min {A} (key : A -> Z) a l :
  (forall h t, l = h :: t -> forall b, b ∈ l -> key h <= key b) ->
  forall h t, insertBy key a l = h :: t ->
  forall b, b ∈ a :: l -> key h <= key b.
Proof.
  intros Hl h t. destruct l as [|c l]; simpl.
  - intros [= <- <-] b Hb. apply list_elem_of_singleton in Hb. subst. lia.
  - specialize (Hl c l eq_refl).
    destruct (key a <=? key c) eqn:E.
    + apply Z.leb_le in E. intros [= <- <-] b Hb.
      apply elem_of_cons in Hb as [->|Hb]; [lia|].
      specialize (Hl b Hb). lia.
    + apply Z.leb_gt in E. intros [= <- <-] b Hb.
      apply elem_of_cons in Hb as [->|Hb]; [lia|]. by apply Hl.
Qed.

Lemma sortBy_head_min {A} (key : A -> Z) l h t :
  sortBy key l = h :: t -> forall b, b ∈ l -> key h <= key b.
Proof.
  revert h t. induction l as [|a l IH]; intros h t; [done|].
  unfold sortBy in *. simpl. intros H b Hb.
  eapply insertBy_head_min in H.
  - exact H.
  - intros h' t' Heq b' Hb'. eapply IH; [exact Heq|].
    by rewrite <- (sortBy_perm key l).
  - apply elem_of_cons in Hb as [->|Hb]; [by left|].
    right. by rewrite (sortBy_perm key l).
Qed.

Lemma sortBy_nil {A} (key : A -> Z) l : sortBy key l = [] <-> l = [].
Proof.
  split; [|by intros ->].
  intros H. apply Permutation_nil. by rewrite <- (sortBy_perm key l), H.
Qed.

(** ** The cells of the grid *)

Lemma elem_of_allPoints p : p ∈ allPoints <-> in_bounds p = true.
Proof.
  unfold allPoints. rewrite list_elem_of_bind, in_bounds_spec. split.
  - intros (y & Hp & Hy). apply list_elem_of_fmap in Hp as (x & -> & Hx).
    apply elem_of_seqZ in Hx, Hy. simpl. lia.
  - intros [Hx Hy]. exists (pt_y p). split.
    + apply list_elem_of_fmap. exists (pt_x p). split; [by destruct p|].
      apply elem_of_seqZ. lia.
    + apply elem_of_seqZ. lia.
Qed.

Lemma elem_of_universe p : p ∈ universe <-> in_bounds p = true.
Proof. unfold universe. by rewrite elem_of_list_to_set, elem_of_allPoints. Qed.

Lemma size_list_to_set_le (l : list Point) :
  (size (list_to_set l : gset Point) <= length l)%nat.
Proof.
  induction l as [|a l IH].
  - rewrite list_to_set_nil, size_empty. reflexivity.
  - rewrite list_to_set_cons. cbn [length].
    destruct (decide (a ∈ (list_to_set l : gset Point))) as [Hin|Hout].
    + assert ({[a]} ∪ list_to_set l = (list_to_set l : gset Point)) as Heq.
      { apply leibniz_equiv. apply subseteq_union_1. by apply singleton_subseteq_l. }
      rewrite Heq. lia.
    + rewrite size_union by set_solver. rewrite size_singleton. lia.
Qed.

Lemma allPoints_length : length allPoints = Z.to_nat (GRID_ROWS * GRID_COLS).
Proof. vm_compute. reflexivity. Qed.

Lemma universe_size : (size universe <= Z.to_nat (GRID_ROWS * GRID_COLS))%nat.
Proof.
  unfold universe. rewrite <- allPoints_length. apply size_list_to_set_le.
Qed.

(** ** Walks, distances and routes *)

Section Walks.

Variable g : Grid.
Variable start end_ : Point.

Lemma nbrs_in_bounds u v : v ∈ nbrs g u -> in_bounds v = true.
Proof. intros H. by apply elem_of_nbrs in H as (_ & ? & _). Qed.

Lemma nbrs_universe u v : v ∈ nbrs g u -> v ∈ universe.
Proof. intros H. by apply elem_of_universe, (nbrs_in_bounds u). Qed.

Lemma nbrs_adjacent u v : v ∈ nbrs g u -> adjacent u v = true.
Proof. intros H. by apply elem_of_nbrs in H as (? % elem_of_candidates & _). Qed.

Lemma heuristic_step u v :
  v ∈ nbrs g u -> heuristic u end_ <= 1 + heuristic v end_.
Proof.
  intros H % nbrs_adjacent. unfold adjacent in H. apply Z.eqb_eq in H.
  unfold heuristic. lia.
Qed.

Lemma heuristic_walk a n b :
  walk g a n b -> heuristic a end_ <= Z.of_nat n + heuristic b end_.
Proof.
  induction 1 as [|n u v _ IH Hv]; [lia|].
  apply heuristic_step in Hv. lia.
Qed.

Lemma walk_trans a n b m c :
  walk g a n b -> walk g b m c -> walk g a (n + m) c.
Proof.
  intros Hab Hbc. induction Hbc as [|m u v _ IH Hv].
  - by rewrite Nat.add_0_r.
  - rewrite Nat.add_succ_r. by eapply walk_S.
Qed.

Lemma isDist_unique v d d' :
  isDist g start v d -> isDist g start v d' -> d = d'.
Proof.
  intros [H1 H2] [H1' H2']. apply H2 in H1'. apply H2' in H1. lia.
Qed.

Lemma isDist_start : isDist g start start O.
Proof. split; [constructor|]. intros; lia. Qed.

Lemma isDist_step u v d d' :
  isDist g start u d -> v ∈ nbrs g u -> isDist g start v d' -> (d' <= S d)%nat.
Proof.
  intros [Hu _] Hv [_ Hmin]. apply Hmin. by eapply walk_S.
Qed.

Lemma pathTo_walk v l :
  pathTo g start v l -> exists n, length l = S n /\ walk g start n v.
Proof.
  induction 1 as [|u v l _ (n & Hl & Hw) Hv].
  - exists O. split; [done|constructor].
  - exists (S n). split; [rewrite length_app; simpl; lia|].
    by eapply walk_S.
Qed.

Lemma walk_pathTo n v :
  walk g start n v -> exists l, pathTo g start v l /\ length l = S n.
Proof.
  induction 1 as [|n u v _ (l & Hp & Hl) Hv].
  - exists [start]. split; [constructor|done].
  - exists (l ++ [v]). split; [by eapply pathTo_step|].
    rewrite length_app. simpl. lia.
Qed.

Lemma pathTo_last v l : pathTo g start v l -> last l = Some v.
Proof. induction 1; [done|]. apply last_snoc. Qed.

Lemma pathTo_head v l : pathTo g start v l -> head l = Some start.
Proof.
  induction 1 as [|u v l _ IH _]; [done|].
  destruct l; [done|]. exact IH.
Qed.

Lemma chain_snoc l u v :
  last l = Some u -> chain l = true -> adjacent u v = true ->
  chain (l ++ [v]) = true.
Proof.
  induction l as [|a l IH]; [done|].
  destruct l as [|b l].
  - intros [= ->] _ Hadj. simpl. by rewrite Hadj.
  - intros Hlast Hch Hadj. 
    change (chain ((a :: b :: l) ++ [v])) with (adjacent a b && chain ((b :: l) ++ [v])).
    change (chain (a :: b :: l)) with (adjacent a b && chain (b :: l)) in Hch.
    apply andb_true_iff in Hch as [-> Hch]. simpl.
    apply IH; auto.
Qed.

(** The cells of a walk from a traversable start are a route. *)
Lemma pathTo_route v l :
  in_bounds start = true -> traversable g start = true ->
  pathTo g start v l -> is_route g start v l = true.
Proof.
  intros Hb Ht Hp. unfold is_route.
  rewrite !andb_true_iff, !bool_decide_eq_true.
  split; [split; [split|]|].
  - by eapply pathTo_head.
  - by eapply pathTo_last.
  - induction Hp as [|u v l _ IH Hv].
    + simpl. by rewrite Hb, Ht.
    + rewrite forallb_app, IH. simpl.
      apply elem_of_nbrs in Hv as (_ & -> & ->). done.
  - induction Hp as [|u v l Hp IH Hv]; [done|].
    eapply chain_snoc; [by eapply pathTo_last|exact IH|by eapply nbrs_adjacent].
Qed.

Lemma route_walk_from a r n :
  walk g start n a -> head r = Some a ->
  forallb (fun p => in_bounds p && traversable g p) r = true ->
  chain r = true ->
  forall e, last r = Some e -> walk g start (n + length r - 1) e.
Proof.
  revert a n. induction r as [|b r IH]; intros a n Hw Hh Hall Hch e Hl; [done|].
  injection Hh as ->.
  destruct r as [|c r].
  - injection Hl as <-. simpl. by replace (n + 1 - 1)%nat with n by lia.
  - change (chain (a :: c :: r)) with (adjacent a c && chain (c :: r)) in Hch.
    apply andb_true_iff in Hch as [Hadj Hch].
    cbn [forallb] in Hall. apply andb_true_iff in Hall as [_ Hall].
    assert (c ∈ nbrs g a) as Hc.
    { apply elem_of_nbrs. cbn [forallb] in Hall.
      apply andb_true_iff in Hall as [Hc _]. apply andb_true_iff in Hc as [? ?].
      split; [by apply elem_of_candidates|done]. }
    replace (n + length (a :: c :: r) - 1)%nat
      with (S n + length (c :: r) - 1)%nat by (simpl; lia).
    eapply (IH c (S n)); eauto. by eapply walk_S.
Qed.

(** A route gives a walk with one step less than it has cells. *)
Lemma route_walk r e :
  is_route g start e r = true -> walk g start (length r - 1) e.
Proof.
  unfold is_route. rewrite !andb_true_iff, !bool_decide_eq_true.
  intros [[[Hh Hl] Hall] Hch].
  apply (route_walk_from start r O); auto. constructor.
Qed.

Lemma route_nonempty r e : is_route g start e r = true -> r <> [].
Proof.
  unfold is_route. rewrite !andb_true_iff, !bool_decide_eq_true.
  intros [[[Hh _] _] _] ->. discriminate.
Qed.

End Walks.

(** ** Adding a cell to a set *)

Lemma in_add_l (w : Point) (V : gset Point) : w ∈ {[w]} ∪ V.
Proof. apply elem_of_union. left. by apply elem_of_singleton. Qed.

Lemma in_add_r (w v : Point) (V : gset Point) : v ∈ V -> v ∈ {[w]} ∪ V.
Proof. intros H. apply elem_of_union. by right. Qed.

Lemma in_add_inv (w v : Point) (V : gset Point) :
  v ∈ {[w]} ∪ V -> v <> w -> v ∈ V.
Proof. intros [H % elem_of_singleton|H] % elem_of_union; done. Qed.

Lemma size_add (w : Point) (V : gset Point) :
  w ∉ V -> size ({[w]} ∪ V) = S (size V).
Proof.
  intros H. rewrite size_union.
  - by rewrite size_singleton.
  - intros x Hx % elem_of_singleton. by subst.
Qed.

Lemma add_subseteq (w : Point) (V U : gset Point) :
  w ∈ U -> V ⊆ U -> {[w]} ∪ V ⊆ U.
Proof.
  intros Hw HV x [Hx % elem_of_singleton|Hx] % elem_of_union; [by subst|].
  by apply HV.
Qed.

(** ** Soundness of the DFS and BFS loops *)

Lemma pathTo_nonempty g start v : ~ pathTo g start v [].
Proof. intros H. apply pathTo_walk in H as (n & Hl & _). discriminate. Qed.

Section Search.

Variable g : Grid.
Variable start end_ : Point.
Variable U : gset Point.
Hypothesis Hwf : wf_grid g = true.
Hypothesis Hstart : in_bounds start = true.
Hypothesis HUstart : start ∈ U.
Hypothesis HUnbrs : forall u v, v ∈ nbrs g u -> v ∈ U.
Hypothesis HUsize : (size U < pathFuel)%nat.

Lemma sizeU_Z : Z.of_nat (size U) <= GRID_ROWS * GRID_COLS.
Proof. unfold pathFuel, GRID_ROWS, GRID_COLS in *. lia. Qed.

Lemma sizeU_searchFuel : (size U < searchFuel)%nat.
Proof. exact HUsize. Qed.


(** Walking the parent links from a cell of rank [d] gives the [d + 1]
    cells of a walk from [start]. *)
Lemma reconstructPath_chain (parent : gmap Point Point)
    (R : Point -> nat -> Prop) :
  parent !! start = None ->
  (forall d, R start d -> d = O) ->
  (forall v d, R v d -> v <> start ->
     exists p d', parent !! v = Some p /\ R p d' /\ d = S d' /\ v ∈ nbrs g p) ->
  forall d v fuel acc, R v d -> (d < fuel)%nat ->
    exists l, reconstructPath fuel parent v acc = Ok (l ++ acc) /\
              pathTo g start v l /\ length l = S d.
Proof.
  intros Hs H0 Hstep. induction d as [|d IH]; intros v fuel acc Hv Hf.
  - destruct fuel as [|fuel]; [lia|].
    destruct (decide (v = start)) as [->|Hne].
    + exists [start]. rewrite reconstructPath_root by exact Hs.
      split; [done|]. split; [constructor|done].
    + destruct (Hstep v O Hv Hne) as (p & d' & _ & _ & Hd & _). lia.
  - destruct fuel as [|fuel]; [lia|].
    destruct (decide (v = start)) as [->|Hne].
    + apply H0 in Hv. lia.
    + destruct (Hstep v (S d) Hv Hne) as (p & d' & Hp & Hr & Hd & Hn).
      injection Hd as <-.
      destruct (IH p fuel (v :: acc) Hr) as (l & Hrec & Hpath & Hlen); [lia|].
      exists (l ++ [v]). cbn [reconstructPath]. rewrite Hp, Hrec.
      split; [by rewrite <- app_assoc|].
      split; [by eapply pathTo_step|].
      rewrite length_app. simpl. lia.
Qed.

Lemma searchInv_bound depth cur todo frontier visited parent count :
  searchInv g start end_ U depth cur todo frontier visited parent count ->
  0 <= count /\
  count + Z.of_nat (length frontier) <= Z.of_nat (size U) /\
  (size visited <= size U)%nat.
Proof.
  intros H. pose proof (si_count _ _ _ _ _ _ _ _ _ _ _ H) as Hc.
  pose proof (subseteq_size _ _ (si_universe _ _ _ _ _ _ _ _ _ _ _ H)) as Hu.
  assert (length frontier <= size visited)%nat as Hle; [|lia].
  rewrite <- (size_list_to_set (C := gset Point) frontier)
    by (by eapply si_nodup).
  apply subseteq_size. intros q Hq. apply elem_of_list_to_set in Hq.
  by eapply si_frontier.
Qed.

Lemma searchInv_found depth cur todo frontier visited parent count v :
  searchInv g start end_ U depth cur todo frontier visited parent count ->
  v ∈ visited ->
  exists l, reconstructPath pathFuel parent v [] = Ok l /\
            pathTo g start v l /\ length l = S (depth v).
Proof.
  intros H Hv.
  destruct (reconstructPath_chain parent
              (fun v d => v ∈ visited /\ depth v = d)) with
    (d := depth v) (v := v) (fuel := pathFuel) (acc := @nil Point)
    as (l & Hrec & Hp & Hl).
  - by eapply si_parent_start.
  - intros d [_ <-]. by eapply si_parent_start.
  - intros w d [Hw <-] Hne.
    destruct (si_parent _ _ _ _ _ _ _ _ _ _ _ H w Hw Hne) as (p & Hp & Hpv & Hn & Hd).
    exists p, (depth p). auto.
  - auto.
  - pose proof (si_depth _ _ _ _ _ _ _ _ _ _ _ H v Hv).
    pose proof (searchInv_bound _ _ _ _ _ _ _ H). pose proof HUsize. lia.
  - exists l. by rewrite app_nil_r in Hrec.
Qed.

Lemma searchInv_reached depth cur todo frontier visited parent count v :
  searchInv g start end_ U depth cur todo frontier visited parent count ->
  v ∈ visited -> exists n, walk g start n v.
Proof.
  intros H Hv.
  destruct (searchInv_found _ _ _ _ _ _ _ v H Hv) as (l & _ & Hp & _).
  apply pathTo_walk in Hp as (n & _ & Hw). eauto.
Qed.

(** When the frontier is empty every reachable cell was visited, and
    none of them is [end_]. *)
Lemma searchInv_exhausted depth cur visited parent count :
  searchInv g start end_ U depth cur [] [] visited parent count ->
  forall n, ~ walk g start n end_.
Proof.
  intros H n Hw.
  assert (forall n v, walk g start n v -> v ∈ visited) as Hall.
  { clear n Hw. intros n v Hw. induction Hw as [|n u v _ IH Hv].
    - by eapply si_start.
    - destruct (si_done _ _ _ _ _ _ _ _ _ _ _ H u IH) as [_ Hn];
        [apply not_elem_of_nil|].
      destruct (Hn v Hv) as [[_ Hin]|Hin]; [by apply elem_of_nil in Hin|done]. }
  destruct (si_done _ _ _ _ _ _ _ _ _ _ _ H end_ (Hall n end_ Hw)) as [Hne _];
    [apply not_elem_of_nil|]. by apply Hne.
Qed.

(** When the frontier is empty the visited cells are the reachable ones,
    and the count is their number. *)
Lemma searchInv_all depth cur visited parent count :
  searchInv g start end_ U depth cur [] [] visited parent count ->
  (forall v, v ∈ visited <-> exists n, walk g start n v) /\
  count = Z.of_nat (size visited).
Proof.
  intros H. split.
  - intros v. split; [by eapply searchInv_reached|].
    intros [n Hw]. induction Hw as [|n u v _ IH Hv].
    + by eapply si_start.
    + destruct (si_done _ _ _ _ _ _ _ _ _ _ _ H u IH) as [_ Hn];
        [apply not_elem_of_nil|].
      destruct (Hn v Hv) as [[_ Hin]|Hin]; [by apply elem_of_nil in Hin|done].
  - pose proof (si_count _ _ _ _ _ _ _ _ _ _ _ H) as Hc. cbn [length] in Hc. lia.
Qed.

(** The cells of the walk along the parent links have ranks that go up
    one by one, so none comes twice. *)
Lemma reconstructPath_simple (parent : gmap Point Point)
    (R : Point -> nat -> Prop) :
  parent !! start = None ->
  (forall d, R start d -> d = O) ->
  (forall v d d', R v d -> R v d' -> d = d') ->
  (forall v d, R v d -> v <> start ->
     exists p d', parent !! v = Some p /\ R p d' /\ d = S d' /\ v ∈ nbrs g p) ->
  forall d v fuel acc, R v d -> (d < fuel)%nat ->
    exists l, reconstructPath fuel parent v acc = Ok (l ++ acc) /\
              NoDup l /\ forall w, w ∈ l -> exists d', R w d' /\ (d' <= d)%nat.
Proof.
  intros Hs H0 Hfun Hstep. induction d as [|d IH]; intros v fuel acc Hv Hf.
  - destruct fuel as [|fuel]; [lia|].
    destruct (decide (v = start)) as [->|Hne].
    + exists [start]. rewrite reconstructPath_root by exact Hs.
      split; [done|]. split; [apply NoDup_singleton|].
      intros w Hw % list_elem_of_singleton. subst w. by exists O.
    + destruct (Hstep v O Hv Hne) as (p & d' & _ & _ & Hd & _). lia.
  - destruct fuel as [|fuel]; [lia|].
    destruct (decide (v = start)) as [->|Hne].
    + apply H0 in Hv. lia.
    + destruct (Hstep v (S d) Hv Hne) as (p & d' & Hp & Hr & Hd & Hn).
      injection Hd as <-.
      destruct (IH p fuel (v :: acc) Hr) as (l & Hrec & Hnd & Hranks); [lia|].
      exists (l ++ [v]). cbn [reconstructPath]. rewrite Hp, Hrec.
      split; [by rewrite <- app_assoc|]. split.
      * apply NoDup_app. split; [exact Hnd|]. split; [|apply NoDup_singleton].
        intros w Hw Hwv % list_elem_of_singleton. subst w.
        destruct (Hranks v Hw) as (d' & Hd' & Hle).
        pose proof (Hfun v _ _ Hv Hd'). lia.
      * intros w Hw. apply elem_of_app in Hw as [Hw|Hw % list_elem_of_singleton].
        -- destruct (Hranks w Hw) as (d' & Hd' & Hle). exists d'. split; [done|lia].
        -- subst w. by exists (S d).
Qed.

Lemma searchInv_found_simple depth cur todo frontier visited parent count v :
  searchInv g start end_ U depth cur todo frontier visited parent count ->
  v ∈ visited ->
  exists l, reconstructPath pathFuel parent v [] = Ok l /\ NoDup l.
Proof.
  intros H Hv.
  destruct (reconstructPath_simple parent
              (fun v d => v ∈ visited /\ depth v = d)) with
    (d := depth v) (v := v) (fuel := pathFuel) (acc := @nil Point)
    as (l & Hrec & Hnd & _).
  - by eapply si_parent_start.
  - intros d [_ <-]. by eapply si_parent_start.
  - intros w d d' [_ <-] [_ <-]. done.
  - intros w d [Hw <-] Hne.
    destruct (si_parent _ _ _ _ _ _ _ _ _ _ _ H w Hw Hne) as (p & Hp & Hpv & Hn & Hd).
    exists p, (depth p). auto.
  - auto.
  - pose proof (si_depth _ _ _ _ _ _ _ _ _ _ _ H v Hv).
    pose proof (searchInv_bound _ _ _ _ _ _ _ H). pose proof HUsize. lia.
  - exists l. by rewrite app_nil_r in Hrec.
Qed.

(** Taking [cur], which is not [end_], out of the frontier. *)
Lemma searchInv_take depth c0 frontier rest cur visited parent count :
  searchInv g start end_ U depth c0 [] frontier visited parent count ->
  frontier ≡ₚ cur :: rest -> cur <> end_ ->
  searchInv g start end_ U depth cur (nbrs g cur) rest visited parent (count + 1) /\
  cur ∈ visited /\ cur ∉ rest.
Proof.
  intros H Hperm Hne.
  pose proof (si_nodup _ _ _ _ _ _ _ _ _ _ _ H) as Hnd.
  rewrite Hperm in Hnd. apply NoDup_cons in Hnd as [Hcur Hnd].
  assert (cur ∈ visited) as Hcv.
  { eapply si_frontier; [exact H|]. rewrite Hperm. by left. }
  split; [|by split].
  constructor.
  - by eapply si_start.
  - by eapply si_universe.
  - exact Hnd.
  - intros q Hq. eapply si_frontier; [exact H|]. rewrite Hperm. by right.
  - intros v Hv Hvr. destruct (decide (v = cur)) as [->|Hvc].
    + split; [exact Hne|]. intros w Hw. by left.
    + destruct (si_done _ _ _ _ _ _ _ _ _ _ _ H v Hv) as [Hve Hn].
      { rewrite Hperm. intros [?|?] % elem_of_cons; done. }
      split; [exact Hve|]. intros w Hw.
      destruct (Hn w Hw) as [[_ Hin]|Hin]; [by apply elem_of_nil in Hin|by right].
  - by eapply si_parent_start.
  - by eapply si_parent.
  - by eapply si_depth.
  - pose proof (si_count _ _ _ _ _ _ _ _ _ _ _ H) as Hc.
    rewrite Hperm in Hc. simpl in Hc. lia.
Qed.


(** A cell not visited yet is farther than some cell still to expand. *)
Lemma bfs_frontier depth lo cur todo frontier visited parent count :
  searchInv g start end_ U depth cur todo frontier visited parent count ->
  bfsInv g start depth lo frontier visited ->
  cur ∈ visited ->
  forall n w, walk g start n w -> w ∉ visited ->
    exists q, (q = cur \/ q ∈ frontier) /\ (depth q < n)%nat.
Proof.
  intros H Hb Hcur n w Hw. induction Hw as [|n u v Hu IH Hv]; intros Hout.
  - exfalso. apply Hout. by eapply si_start.
  - destruct (decide (u ∈ visited)) as [Huv|Huv].
    + assert (depth u <= n)%nat as Hdu.
      { destruct (bi_dist _ _ _ _ _ _ Hb u Huv) as [_ Hmin]. by apply Hmin. }
      destruct (decide (u ∈ frontier)) as [Huf|Huf].
      * exists u. split; [by right|lia].
      * destruct (si_done _ _ _ _ _ _ _ _ _ _ _ H u Huv Huf) as [_ Hn].
        destruct (Hn v Hv) as [[-> _]|Hin]; [|done].
        exists cur. split; [by left|lia].
    + destruct (IH Huv) as (q & Hq & Hlt). exists q. split; [done|lia].
Qed.

(** The loop over the neighbours keeps the invariant of the search and,
    for the BFS (where [B] holds), the invariant of the queue. *)
Lemma visitNeighbors_inv (B : Prop) todo :
  forall depth cur frontier visited parent count,
  cur ∈ visited -> cur ∉ frontier ->
  (forall w, w ∈ todo -> w ∈ nbrs g cur) ->
  searchInv g start end_ U depth cur todo frontier visited parent count ->
  (B -> bfsInv g start depth (depth cur) frontier visited) ->
  exists depth' frontier' visited' parent',
    visitNeighbors todo cur frontier visited parent = (frontier', visited', parent') /\
    searchInv g start end_ U depth' cur [] frontier' visited' parent' count /\
    (B -> bfsInv g start depth' (depth' cur) frontier' visited').
Proof.
  induction todo as [|w todo IH];
    intros depth cur frontier visited parent count Hcur Hcf Htodo H Hb.
  { exists depth, frontier, visited, parent. by split. }
  cbn [visitNeighbors].
  assert (forall w', w' ∈ todo -> w' ∈ nbrs g cur) as Htodo'
    by (intros w' Hw'; apply Htodo; by right).
  assert (w ∈ nbrs g cur) as Hw by (apply Htodo; by left).
  destruct (decide (w ∈ visited)) as [Hwv|Hwv].
  - apply (IH depth cur frontier visited parent count); auto.
    destruct H as [H1 H2 H3 H4 H5 H6 H7 H8 H9]. constructor; auto.
    intros v Hv Hvf. destruct (H5 v Hv Hvf) as [Hve Hn].
    split; [exact Hve|]. intros w' Hw'.
    destruct (Hn w' Hw') as [[-> Hin]|Hin]; [|by right].
    apply elem_of_cons in Hin as [->|Hin]; [by right|by left].
  - set (depth' := fun x => if decide (x = w) then S (depth cur) else depth x).
    assert (forall v, v ∈ visited -> depth' v = depth v) as Hsame.
    { intros v Hv. unfold depth'. destruct (decide (v = w)) as [->|]; done. }
    assert (depth' w = S (depth cur)) as Hdw.
    { unfold depth'. by destruct (decide (w = w)). }
    assert (w ∉ frontier) as Hwf'.
    { intros Hin. apply Hwv. by eapply si_frontier. }
    assert (size ({[w]} ∪ visited) = S (size visited)) as Hsize
      by (by apply size_add).
    destruct (IH depth' cur (frontier ++ [w]) ({[w]} ∪ visited)
                (<[w := cur]> parent) count) as (d2 & f2 & v2 & p2 & Heq & Hinv & Hb2).
    + by apply in_add_r.
    + intros [Hin|Hin % list_elem_of_singleton] % elem_of_app; [done|].
      subst. done.
    + exact Htodo'.
    + destruct H as [H1 H2 H3 H4 H5 H6 H7 H8 H9]. constructor.
      * by apply in_add_r.
      * apply add_subseteq; [by eapply HUnbrs|done].
      * apply NoDup_app. split; [done|]. split; [|apply NoDup_singleton].
        intros x Hx Hx' % list_elem_of_singleton. by subst.
      * intros q [Hq|Hq % list_elem_of_singleton] % elem_of_app.
        -- by apply in_add_r, H4.
        -- subst. apply in_add_l.
      * intros v Hv Hvf.
        assert (v <> w) as Hvw.
        { intros ->. apply Hvf, elem_of_app. right. by left. }
        assert (v ∈ visited) as Hv' by (by eapply in_add_inv).
        assert (v ∉ frontier) as Hvf'.
        { intros Hin. apply Hvf, elem_of_app. by left. }
        destruct (H5 v Hv' Hvf') as [Hve Hn].
        split; [exact Hve|]. intros w' Hw'.
        destruct (Hn w' Hw') as [[-> Hin]|Hin]; [|right; by apply in_add_r].
        apply elem_of_cons in Hin as [->|Hin]; [right; apply in_add_l|by left].
      * destruct H6 as [H6 H6']. split.
        -- rewrite lookup_insert_ne; [done|]. intros ->. done.
        -- by rewrite Hsame.
      * intros v Hv Hvs. destruct (decide (v = w)) as [->|Hvw].
        -- exists cur. rewrite lookup_insert_eq.
           split; [done|]. split; [by apply in_add_r|]. split; [done|].
           by rewrite Hdw, Hsame.
        -- assert (v ∈ visited) as Hv' by (by eapply in_add_inv).
           destruct (H7 v Hv' Hvs) as (p & Hp & Hpv & Hn & Hd).
           exists p. rewrite lookup_insert_ne by done.
           split; [done|]. split; [by apply in_add_r|]. split; [done|].
           by rewrite !Hsame.
      * intros v Hv. rewrite Hsize. destruct (decide (v = w)) as [->|Hvw].
        -- rewrite Hdw. specialize (H8 cur Hcur). lia.
        -- assert (v ∈ visited) as Hv' by (by eapply in_add_inv).
           rewrite Hsame by done. specialize (H8 v Hv'). lia.
      * rewrite Hsize, length_app. simpl. lia.
    + intros HB. specialize (Hb HB). rewrite (Hsame cur Hcur).
      destruct Hb as [Hdist (q1 & q2 & -> & Hq1 & Hq2)]. constructor.
      * intros v Hv. destruct (decide (v = w)) as [->|Hvw].
        -- rewrite Hdw. split.
           ++ eapply walk_S; [|exact Hw]. by apply Hdist.
           ++ intros n Hn.
              destruct (bfs_frontier depth (depth cur) cur (w :: todo)
                          (q1 ++ q2) visited parent count H) with (n := n) (w := w)
                as (q & Hq & Hlt); auto.
              { constructor; [exact Hdist|]. by exists q1, q2. }
              destruct Hq as [->|[Hq|Hq] % elem_of_app]; [lia|..].
              ** rewrite (Hq1 q Hq) in Hlt. lia.
              ** rewrite (Hq2 q Hq) in Hlt. lia.
        -- assert (v ∈ visited) as Hv' by (by eapply in_add_inv).
           rewrite Hsame by done. by apply Hdist.
      * exists q1, (q2 ++ [w]). split; [by rewrite app_assoc|].
        assert (forall q, q ∈ q1 ++ q2 -> q ∈ visited) as Hfv.
        { intros q Hq. by eapply si_frontier. }
        split.
        -- intros q Hq. rewrite Hsame; [by apply Hq1|].
           apply Hfv, elem_of_app. by left.
        -- intros q [Hq|Hq % list_elem_of_singleton] % elem_of_app.
           ++ rewrite Hsame; [by apply Hq2|]. apply Hfv, elem_of_app. by right.
           ++ by subst.
    + destruct (decide (w ∈ visited)); [done|].
      exists d2, f2, v2, p2. by split.
Qed.


Lemma dfsLoop_post fuel :
  forall depth c0 stack visited parent count,
  searchInv g start end_ U depth c0 [] stack visited parent count ->
  (size U < fuel + Z.to_nat count)%nat ->
  exists r, dfsLoop fuel g end_ stack visited parent count = Ok r /\
            foundOrNone g start end_ r /\ exploresAll g start r /\
            NoDup (path r).
Proof.
  induction fuel as [|fuel IH]; intros depth c0 stack visited parent count H Hf.
  { pose proof (searchInv_bound _ _ _ _ _ _ _ H). lia. }
  pose proof (searchInv_bound _ _ _ _ _ _ _ H) as (Hc0 & Hc1 & _).
  pose proof sizeU_Z as HU.
  cbn [dfsLoop]. destruct (pop stack) as [[stack' cur]|] eqn:Hpop.
  - apply pop_Some in Hpop. subst stack.
    rewrite length_app in Hc1. cbn [length] in Hc1.
    assert (cur ∈ visited) as Hcur.
    { eapply si_frontier; [exact H|]. apply elem_of_app. right. by left. }
    destruct (samePoint cur end_) eqn:Hs.
    + apply samePoint_spec in Hs. subst cur.
      destruct (searchInv_found _ _ _ _ _ _ _ end_ H Hcur)
        as (l & Hrec & Hp & _).
      destruct (searchInv_found_simple _ _ _ _ _ _ _ end_ H Hcur)
        as (l' & Hrec' & Hnd).
      assert (l' = l) as -> by congruence.
      rewrite Hrec. cbn [bind]. eexists. split; [reflexivity|].
      split; [split; cbn [exploredCount path]; [lia|by right]|].
      split; [|exact Hnd].
      intros Hnil. cbn [path] in Hnil. subst l. by apply pathTo_nonempty in Hp.
    + assert (cur <> end_) as Hne.
      { intros ->. by rewrite samePoint_refl in Hs. }
      rewrite getNeighbors_nbrs by exact Hwf. cbn [bind].
      destruct (searchInv_take depth c0 (stack' ++ [cur]) stack' cur
                  visited parent count H) as (Hin & _ & Hcs); [|exact Hne|].
      { by rewrite Permutation_app_comm. }
      destruct (visitNeighbors_inv False (nbrs g cur) depth cur stack'
                  visited parent (count + 1) Hcur Hcs) as (d' & f' & v' & p' & Heq & Hinv & _);
        [auto|exact Hin|tauto|].
      rewrite Heq. apply (IH d' cur f' v' p' (count + 1) Hinv). lia.
  - apply pop_None in Hpop. subst stack. eexists. split; [reflexivity|].
    split.
    { split; cbn [exploredCount path]; [cbn [length] in Hc1; lia|].
      left. split; [done|]. by eapply searchInv_exhausted. }
    split; [|apply NoDup_nil_2].
    intros _. exists visited. cbn [exploredCount]. by eapply searchInv_all.
Qed.

Lemma bfsLoop_post fuel :
  forall depth c0 lo queue visited parent count,
  searchInv g start end_ U depth c0 [] queue visited parent count ->
  bfsInv g start depth lo queue visited ->
  (size U < fuel + Z.to_nat count)%nat ->
  exists r, bfsLoop fuel g end_ queue visited parent count = Ok r /\
            shortestOrNone g start end_ r /\ exploresAll g start r.
Proof.
  induction fuel as [|fuel IH];
    intros depth c0 lo queue visited parent count H Hb Hf.
  { pose proof (searchInv_bound _ _ _ _ _ _ _ H). lia. }
  pose proof (searchInv_bound _ _ _ _ _ _ _ H) as (Hc0 & Hc1 & _).
  pose proof sizeU_Z as HU.
  cbn [bfsLoop]. destruct queue as [|cur queue].
  - eexists. split; [reflexivity|]. split.
    { split; cbn [exploredCount path]; [cbn [length] in Hc1; lia|].
      left. split; [done|]. by eapply searchInv_exhausted. }
    intros _. exists visited. cbn [exploredCount]. by eapply searchInv_all.
  - cbn [length] in Hc1.
    assert (cur ∈ visited) as Hcur.
    { eapply si_frontier; [exact H|]. by left. }
    destruct (samePoint cur end_) eqn:Hs.
    + apply samePoint_spec in Hs. subst cur.
      destruct (searchInv_found _ _ _ _ _ _ _ end_ H Hcur)
        as (l & Hrec & Hp & Hl).
      rewrite Hrec. cbn [bind]. eexists. split; [reflexivity|]. split.
      { split; cbn [exploredCount path]; [lia|]. right.
        exists (depth end_). split; [|by split].
        by eapply bi_dist. }
      intros Hnil. cbn [path] in Hnil. subst l. by apply pathTo_nonempty in Hp.
    + assert (cur <> end_) as Hne.
      { intros ->. by rewrite samePoint_refl in Hs. }
      rewrite getNeighbors_nbrs by exact Hwf. cbn [bind].
      destruct (searchInv_take depth c0 (cur :: queue) queue cur
                  visited parent count H) as (Hin & _ & Hcs); [done|exact Hne|].
      assert (bfsInv g start depth (depth cur) queue visited) as Hb'.
      { destruct Hb as [Hdist (q1 & q2 & Hq & Hq1 & Hq2)].
        constructor; [exact Hdist|].
        destruct q1 as [|c q1]; simpl in Hq.
        - subst q2. exists queue, []. split; [by rewrite app_nil_r|].
          split; [|intros q Hq; by apply elem_of_nil in Hq].
          intros q Hq. rewrite (Hq2 q) by (by right).
          symmetry. apply Hq2. by left.
        - injection Hq as <- ->. exists q1, q2. split; [done|].
          assert (depth cur = lo) as -> by (apply Hq1; by left).
          split; [|done]. intros q Hq. apply Hq1. by right. }
      destruct (visitNeighbors_inv True (nbrs g cur) depth cur queue
                  visited parent (count + 1) Hcur Hcs) as (d' & f' & v' & p' & Heq & Hinv & Hb2);
        [auto|exact Hin|auto|].
      rewrite Heq.
      apply (IH d' cur (d' cur) f' v' p' (count + 1) Hinv (Hb2 I)). lia.
Qed.

Lemma searchInv_init :
  searchInv g start end_ U (fun _ => O) start [] [start] {[start]} ∅ 0.
Proof.
  constructor.
  - by apply elem_of_singleton.
  - intros x Hx % elem_of_singleton. by subst.
  - apply NoDup_singleton.
  - intros q Hq % list_elem_of_singleton. subst. by apply elem_of_singleton.
  - intros v Hv % elem_of_singleton Hvf. subst. exfalso. apply Hvf. by left.
  - split; [apply lookup_empty|done].
  - intros v Hv % elem_of_singleton Hne. by subst.
  - intros v _. rewrite size_singleton. lia.
  - rewrite size_singleton. simpl. lia.
Qed.

Lemma runDFS_post :
  exists r, runDFS g start end_ = Ok r /\ foundOrNone g start end_ r /\
            exploresAll g start r /\ NoDup (path r).
Proof.
  unfold runDFS. eapply dfsLoop_post; [apply searchInv_init|].
  pose proof sizeU_searchFuel. lia.
Qed.

Lemma runDFS_ok :
  exists r, runDFS g start end_ = Ok r /\ foundOrNone g start end_ r.
Proof. destruct runDFS_post as (r & Hr & Hf & _). by exists r. Qed.

Lemma runBFS_post :
  exists r, runBFS g start end_ = Ok r /\ shortestOrNone g start end_ r /\
            exploresAll g start r.
Proof.
  unfold runBFS. eapply (bfsLoop_post _ _ _ O); [apply searchInv_init| |].
  - constructor.
    + intros v Hv % elem_of_singleton. subst. apply isDist_start.
    + exists [start], []. split; [done|]. split; [done|].
      intros q Hq. by apply elem_of_nil in Hq.
  - pose proof sizeU_searchFuel. lia.
Qed.

Lemma runBFS_ok :
  exists r, runBFS g start end_ = Ok r /\ shortestOrNone g start end_ r.
Proof. destruct runBFS_post as (r & Hr & Hf & _). by exists r. Qed.


(** ** Soundness of the Dijkstra loop *)


Lemma distLt_Some a b :
  distLt (Some a) b = true <-> (b = None \/ exists k, b = Some k /\ a < k).
Proof.
  destruct b as [k|]; simpl.
  - rewrite Z.ltb_lt. split; [eauto|]. intros [?|(k' & [= <-] & ?)]; done.
  - split; [auto|done].
Qed.

Lemma distLt_Some_false a b :
  distLt (Some a) b = false <-> exists k, b = Some k /\ k <= a.
Proof.
  destruct b as [k|]; simpl.
  - rewrite Z.ltb_ge. split; [eauto|]. by intros (k' & [= <-] & ?).
  - split; [done|]. by intros (k' & ? & _).
Qed.

Lemma dijkstraInv_visited_universe cur todo distances parent pq visited count :
  dijkstraInv g start end_ U cur todo distances parent pq visited count ->
  visited ⊆ U.
Proof.
  intros H v Hv.
  destruct (di_final _ _ _ _ _ _ _ _ _ _ _ H v Hv) as (_ & d & Hd & _).
  by apply (di_walk _ _ _ _ _ _ _ _ _ _ _ H) in Hd as (_ & _ & ?).
Qed.

(** A cell not finalised yet is at least as far as some cell that has a
    tentative distance and is not finalised. *)
Lemma dijkstra_frontier c0 distances parent pq visited count :
  dijkstraInv g start end_ U c0 [] distances parent pq visited count ->
  forall n w, walk g start n w -> w ∉ visited ->
    exists q k, (q ∉ visited) /\ distances !! q = Some k /\ k <= Z.of_nat n.
Proof.
  intros H n w Hw. induction Hw as [|n u v Hu IH Hv]; intros Hout.
  - exists start, 0. split; [done|]. split; [by eapply di_start|lia].
  - destruct (decide (u ∈ visited)) as [Huv|Huv].
    + destruct (di_final _ _ _ _ _ _ _ _ _ _ _ H u Huv)
        as (_ & d & Hd & [_ Hmin] & _ & Hn).
      destruct (Hn v Hv) as [[_ Hin]|(k & Hk & Hle)];
        [by apply elem_of_nil in Hin|].
      exists v, k. split; [done|]. split; [done|].
      specialize (Hmin n Hu). lia.
    + destruct (IH Huv) as (q & k & Hq & Hk & Hle).
      exists q, k. split; [done|]. split; [done|]. lia.
Qed.

Lemma dijkstraNeighbors_inv todo :
  forall cur d distances parent pq visited count,
  cur ∈ visited ->
  (forall w, w ∈ todo -> w ∈ nbrs g cur) ->
  distances !! cur = Some (Z.of_nat d) -> isDist g start cur d ->
  dijkstraInv g start end_ U cur todo distances parent pq visited count ->
  exists distances' parent' pq',
    dijkstraNeighbors todo cur distances parent pq visited =
      (distances', parent', pq') /\
    dijkstraInv g start end_ U cur [] distances' parent' pq' visited count /\
    (length pq' <= length pq + length todo)%nat.
Proof.
  induction todo as [|w todo IH];
    intros cur d distances parent pq visited count Hcur Htodo Hd Hdist H.
  { exists distances, parent, pq. split; [done|]. split; [done|]. simpl. lia. }
  cbn [dijkstraNeighbors].
  assert (forall w', w' ∈ todo -> w' ∈ nbrs g cur) as Htodo'
    by (intros w' Hw'; apply Htodo; by right).
  assert (w ∈ nbrs g cur) as Hw by (apply Htodo; by left).
  assert (forall D' P' pq',
    dijkstraInv g start end_ U cur todo D' P' pq' visited count ->
    D' !! cur = Some (Z.of_nat d) -> (length pq' <= S (length pq))%nat ->
    exists distances' parent' pq'',
      dijkstraNeighbors todo cur D' P' pq' visited = (distances', parent', pq'') /\
      dijkstraInv g start end_ U cur [] distances' parent' pq'' visited count /\
      (length pq'' <= length pq + length (w :: todo))%nat) as Hnext.
  { intros D' P' pq' Hinv HD' Hlen.
    destruct (IH cur d D' P' pq' visited count Hcur Htodo' HD' Hdist Hinv)
      as (D2 & P2 & pq2 & Heq & Hinv2 & Hlen2).
    exists D2, P2, pq2. split; [done|]. split; [done|]. cbn [length]. lia. }
  destruct H as [H1 H2 H3 H4 H5 H6 H7 H8].
  (* the neighbour is already within reach of [cur] *)
  assert (forall k, distances !! w = Some k -> k <= Z.of_nat d + 1 ->
          dijkstraInv g start end_ U cur todo distances parent pq visited count)
    as Hskip.
  { intros k Hk Hle. constructor; auto.
    intros v Hv. destruct (H3 v Hv) as (Hve & dv & Hdv & Hvd & Hsz & Hn).
    split; [exact Hve|]. exists dv. split; [done|]. split; [done|].
    split; [done|]. intros w' Hw'.
    destruct (Hn w' Hw') as [[-> Hin]|Hin]; [|by right].
    apply elem_of_cons in Hin as [->|Hin]; [|by left].
    right. exists k. split; [done|].
    assert (dv = d) as -> by (by eapply isDist_unique). lia. }
  destruct (decide (w ∈ visited)) as [Hwv|Hwv].
  - destruct (H3 w Hwv) as (_ & dw & Hdw & Hwd & _ & _).
    apply Hnext; [|done|lia].
    apply (Hskip (Z.of_nat dw) Hdw).
    pose proof (isDist_step g start cur w d dw Hdist Hw Hwd). lia.
  - rewrite Hd. cbn [fmap option_fmap option_map].
    destruct (distLt (Some (Z.of_nat d + 1)) (distances !! w)) eqn:Hlt.
    + apply distLt_Some in Hlt.
      assert (w <> start) as Hws.
      { intros ->. rewrite H1 in Hlt. destruct Hlt as [?|(k & [= <-] & ?)]; [done|lia]. }
      assert (w <> cur) as Hwc by (intros ->; done).
      assert (forall k, distances !! w = Some k -> Z.of_nat d + 1 < k) as Hold.
      { intros k Hk. rewrite Hk in Hlt. destruct Hlt as [?|(k' & [= <-] & ?)]; done. }
      apply Hnext.
      * constructor.
        -- by rewrite lookup_insert_ne.
        -- intros w' k. destruct (decide (w' = w)) as [->|Hne].
           ++ rewrite lookup_insert_eq. intros [= <-].
              split; [lia|]. split; [|by eapply HUnbrs].
              replace (Z.to_nat (Z.of_nat d + 1)) with (S d) by lia.
              eapply walk_S; [|exact Hw]. by destruct Hdist.
           ++ rewrite lookup_insert_ne by done. apply H2.
        -- intros v Hv. destruct (H3 v Hv) as (Hve & dv & Hdv & Hvd & Hsz & Hn).
           split; [exact Hve|]. exists dv.
           assert (v <> w) as Hvw by (intros ->; done).
           rewrite lookup_insert_ne by done.
           split; [done|]. split; [done|]. split; [done|]. intros w' Hw'.
           destruct (decide (w' = w)) as [->|Hne].
           ++ right. exists (Z.of_nat d + 1). rewrite lookup_insert_eq.
              split; [done|].
              destruct (Hn w Hw') as [[-> _]|(k & Hk & Hle)].
              ** assert (dv = d) as -> by (by eapply isDist_unique). lia.
              ** specialize (Hold k Hk). lia.
           ++ rewrite lookup_insert_ne by done.
              destruct (Hn w' Hw') as [[-> Hin]|Hin]; [|by right].
              apply elem_of_cons in Hin as [->|Hin]; [done|by left].
        -- intros e [He|He % list_elem_of_singleton] % elem_of_app.
           ++ destruct (H4 e He) as (k & Hk & Hle).
              destruct (decide (q_pt e = w)) as [Heq|Hne].
              ** rewrite Heq, lookup_insert_eq. eexists. split; [done|].
                 rewrite Heq in Hk. specialize (Hold k Hk). lia.
              ** rewrite lookup_insert_ne by done. eauto.
           ++ subst e. cbn [q_pt q_dist]. rewrite lookup_insert_eq.
              eexists. split; [done|lia].
        -- intros w' k Hk Hout. destruct (decide (w' = w)) as [->|Hne].
           ++ rewrite lookup_insert_eq in Hk. injection Hk as <-.
              eexists. split; [apply elem_of_app; right; by left|]. done.
           ++ rewrite lookup_insert_ne in Hk by done.
              destruct (H5 w' k Hk Hout) as (e & He & Hpt & Hdq).
              exists e. split; [apply elem_of_app; by left|]. done.
        -- by rewrite lookup_insert_ne.
        -- intros w' k Hk Hne'. destruct (decide (w' = w)) as [->|Hne].
           ++ rewrite lookup_insert_eq in Hk. injection Hk as <-.
              exists cur, d. rewrite lookup_insert_eq.
              rewrite lookup_insert_ne by done. done.
           ++ rewrite lookup_insert_ne in Hk by done.
              destruct (H7 w' k Hk Hne') as (p & dp & Hp & Hpv & Hdp & Hpd & Hkd & Hn).
              exists p, dp. rewrite !lookup_insert_ne; [done|..|done].
              intros ->. done.
        -- done.
      * by rewrite lookup_insert_ne.
      * rewrite length_app. simpl. lia.
    + apply distLt_Some_false in Hlt as (k & Hk & Hle).
      apply Hnext; [|done|lia]. by apply (Hskip k).
Qed.


Lemma dijkstraInv_exhausted c0 distances parent visited count :
  dijkstraInv g start end_ U c0 [] distances parent [] visited count ->
  forall n, ~ walk g start n end_.
Proof.
  intros H n Hw.
  destruct (decide (end_ ∈ visited)) as [Hin|Hout].
  - by destruct (di_final _ _ _ _ _ _ _ _ _ _ _ H end_ Hin) as [Hne _].
  - destruct (dijkstra_frontier _ _ _ _ _ _ H n end_ Hw Hout)
      as (q & k & Hq & Hk & _).
    destruct (di_pending _ _ _ _ _ _ _ _ _ _ _ H q k Hk Hq) as (e & He & _).
    by apply elem_of_nil in He.
Qed.

Lemma dijkstraInv_all c0 distances parent visited count :
  dijkstraInv g start end_ U c0 [] distances parent [] visited count ->
  (forall v, v ∈ visited <-> exists n, walk g start n v) /\
  count = Z.of_nat (size visited).
Proof.
  intros H. split; [|by eapply di_count]. intros v. split.
  - intros Hv.
    destruct (di_final _ _ _ _ _ _ _ _ _ _ _ H v Hv) as (_ & d & _ & [Hw _] & _).
    by exists d.
  - intros [n Hw]. destruct (decide (v ∈ visited)) as [Hin|Hout]; [done|].
    destruct (dijkstra_frontier _ _ _ _ _ _ H n v Hw Hout)
      as (q & k & Hq & Hk & _).
    destruct (di_pending _ _ _ _ _ _ _ _ _ _ _ H q k Hk Hq) as (e & He & _).
    by apply elem_of_nil in He.
Qed.

(** The entry with the least distance, when its cell is not finalised,
    carries the distance of the cell. *)
Lemma dijkstra_pop_dist c0 distances parent pq visited count cur rest :
  dijkstraInv g start end_ U c0 [] distances parent pq visited count ->
  sortBy q_dist pq = cur :: rest -> q_pt cur ∉ visited ->
  exists d, distances !! q_pt cur = Some (Z.of_nat d) /\
            isDist g start (q_pt cur) d /\ (d <= size visited)%nat.
Proof.
  intros H Hsort Hout.
  assert (cur ∈ pq) as Hcur.
  { rewrite <- (sortBy_perm q_dist pq), Hsort. by left. }
  destruct (di_queue _ _ _ _ _ _ _ _ _ _ _ H cur Hcur) as (k & Hk & Hle).
  destruct (di_walk _ _ _ _ _ _ _ _ _ _ _ H _ _ Hk) as (Hk0 & Hwalk & _).
  exists (Z.to_nat k). rewrite Z2Nat.id by done.
  split; [done|]. split; [split; [done|]|].
  - intros n Hn.
    destruct (dijkstra_frontier _ _ _ _ _ _ H n _ Hn Hout)
      as (q & k' & Hq & Hk' & Hle').
    destruct (di_pending _ _ _ _ _ _ _ _ _ _ _ H q k' Hk' Hq) as (e & He & _ & Hde).
    pose proof (sortBy_head_min q_dist pq cur rest Hsort e He). lia.
  - destruct (decide (q_pt cur = start)) as [Heq|Hne].
    + rewrite Heq in Hk. rewrite (di_start _ _ _ _ _ _ _ _ _ _ _ H) in Hk.
      injection Hk as <-. simpl. lia.
    + destruct (di_parent _ _ _ _ _ _ _ _ _ _ _ H _ _ Hk Hne)
        as (p & dp & _ & Hpv & Hdp & _ & -> & _).
      destruct (di_final _ _ _ _ _ _ _ _ _ _ _ H p Hpv) as (_ & dp' & Hdp' & _ & Hsz & _).
      rewrite Hdp in Hdp'. injection Hdp' as Heq. lia.
Qed.

Lemma dijkstraLoop_post fuel :
  forall c0 distances parent pq visited count,
  dijkstraInv g start end_ U c0 [] distances parent pq visited count ->
  (length pq + 4 * (size U - size visited) < fuel)%nat ->
  exists r, dijkstraLoop fuel g end_ distances parent pq visited count = Ok r /\
            shortestOrNone g start end_ r /\ exploresAll g start r.
Proof.
  induction fuel as [|fuel IH];
    intros c0 distances parent pq visited count H Hf; [lia|].
  pose proof (subseteq_size _ _ (dijkstraInv_visited_universe _ _ _ _ _ _ _ H)) as HV.
  pose proof (di_count _ _ _ _ _ _ _ _ _ _ _ H) as Hcount.
  cbn [dijkstraLoop]. destruct (sortBy q_dist pq) as [|cur rest] eqn:Hsort.
  - apply sortBy_nil in Hsort. subst pq. eexists. split; [reflexivity|].
    split.
    { split; cbn [exploredCount path]; [pose proof sizeU_Z; lia|].
      left. split; [done|]. by eapply dijkstraInv_exhausted. }
    intros _. exists visited. cbn [exploredCount]. by eapply dijkstraInv_all.
  - assert (pq ≡ₚ cur :: rest) as Hperm.
    { by rewrite <- (sortBy_perm q_dist pq), Hsort. }
    assert (length pq = S (length rest)) as Hlen.
    { by rewrite Hperm. }
    destruct (decide (q_pt cur ∈ visited)) as [Hin|Hout].
    + (* a stale entry *)
      apply (IH c0); [|lia].
      destruct H as [H1 H2 H3 H4 H5 H6 H7 H8]. constructor; auto.
      * intros e He. apply H4. rewrite Hperm. by right.
      * intros w k Hk Hw. destruct (H5 w k Hk Hw) as (e & He & Hpt & Hd).
        exists e. split; [|done].
        rewrite Hperm in He. apply elem_of_cons in He as [->|He]; [|done].
        by subst w.
    + destruct (dijkstra_pop_dist _ _ _ _ _ _ _ _ H Hsort Hout)
        as (d & Hd & Hdist & Hsz).
      assert (q_pt cur ∈ U) as HcU.
      { by apply (di_walk _ _ _ _ _ _ _ _ _ _ _ H) in Hd as (_ & _ & ?). }
      assert (size ({[q_pt cur]} ∪ visited) = S (size visited)) as Hsize
        by (by apply size_add).
      assert ({[q_pt cur]} ∪ visited ⊆ U) as HV'.
      { apply add_subseteq; [done|]. by eapply dijkstraInv_visited_universe. }
      apply subseteq_size in HV'. rewrite Hsize in HV'.
      destruct (samePoint (q_pt cur) end_) eqn:Hs.
      * apply samePoint_spec in Hs. rewrite point_eta. rewrite Hs in Hd, Hdist.
        destruct (reconstructPath_chain parent
                    (fun v d => distances !! v = Some (Z.of_nat d)))
          with (d := d) (v := end_) (fuel := pathFuel) (acc := @nil Point)
          as (l & Hrec & Hp & Hl).
        -- by eapply di_parent_start.
        -- intros d' Hd'. rewrite (di_start _ _ _ _ _ _ _ _ _ _ _ H) in Hd'.
           injection Hd' as Hd'. lia.
        -- intros v dv Hv Hne.
           destruct (di_parent _ _ _ _ _ _ _ _ _ _ _ H _ _ Hv Hne)
             as (p & dp & Hp & _ & Hdp & _ & Hk & Hn).
           exists p, dp. split; [done|]. split; [done|]. split; [lia|done].
        -- exact Hd.
        -- pose proof HUsize. lia.
        -- rewrite app_nil_r in Hrec. rewrite Hrec. cbn [bind].
           eexists. split; [reflexivity|]. split.
           { split; cbn [exploredCount path]; [pose proof sizeU_Z; lia|].
             right. exists d. split; [exact Hdist|]. split; [exact Hp|exact Hl]. }
           intros Hnil. cbn [path] in Hnil. subst l. by apply pathTo_nonempty in Hp.
      * assert (q_pt cur <> end_) as Hne.
        { intros Heq. by rewrite Heq, samePoint_refl in Hs. }
        rewrite getNeighbors_nbrs by exact Hwf. cbn [bind].
        assert (dijkstraInv g start end_ U (q_pt cur) (nbrs g (q_pt cur)) distances
                  parent rest ({[q_pt cur]} ∪ visited) (count + 1)) as Hinv0.
        { clear IH Hf. destruct H as [H1 H2 H3 H4 H5 H6 H7 H8].
          constructor; [exact H1|exact H2| | | |exact H6| |].
          - intros v Hv. destruct (decide (v = q_pt cur)) as [->|Hvc].
            + split; [done|]. exists d. split; [done|]. split; [done|].
                 split; [lia|]. intros w Hw. by left.
            + apply in_add_inv in Hv; [|done].
                 destruct (H3 v Hv) as (Hve & dv & Hdv & Hvd & Hsv & Hn).
                 split; [done|]. exists dv. split; [done|]. split; [done|].
                 split; [lia|]. intros w Hw.
                 destruct (Hn w Hw) as [[_ Hin]|Hin];
                   [by apply elem_of_nil in Hin|by right].
          - intros e He. apply H4. rewrite Hperm. by right.
          - intros w k Hk Hw. destruct (H5 w k Hk) as (e & He & Hpt & Hde).
              { intros Hin. apply Hw. by apply in_add_r. }
              exists e. split; [|done].
              rewrite Hperm in He. apply elem_of_cons in He as [->|He]; [|done].
              exfalso. apply Hw. rewrite <- Hpt. apply in_add_l.
          - intros w k Hk Hw.
              destruct (H7 w k Hk Hw) as (p & dp & Hp & Hpv & Hrest).
              exists p, dp. split; [done|]. split; [by apply in_add_r|done].
          - rewrite Hsize. lia. }
        destruct (dijkstraNeighbors_inv (nbrs g (q_pt cur)) (q_pt cur) d distances
                    parent rest ({[q_pt cur]} ∪ visited) (count + 1)
                    (in_add_l _ _) (fun w Hw => Hw) Hd Hdist Hinv0)
          as (D' & P' & pq' & Heq & Hinv & Hlen').
        rewrite Heq. apply (IH (q_pt cur)); [exact Hinv|].
           pose proof (nbrs_length g (q_pt cur)). rewrite Hsize. lia.
Qed.

Lemma dijkstraInv_init :
  dijkstraInv g start end_ U start [] {[start := 0]} ∅ [mkQEntry start 0] ∅ 0.
Proof.
  constructor.
  - apply lookup_singleton_eq.
  - intros w k Hk. apply lookup_singleton_Some in Hk as [<- <-].
    split; [lia|]. split; [constructor|exact HUstart].
  - intros v Hv. by apply not_elem_of_empty in Hv.
  - intros e He % list_elem_of_singleton. subst e. cbn [q_pt q_dist].
    exists 0. split; [apply lookup_singleton_eq|lia].
  - intros w k Hk _. apply lookup_singleton_Some in Hk as [<- <-].
    eexists. split; [by left|done].
  - apply lookup_empty.
  - intros w k Hk Hne. by apply lookup_singleton_Some in Hk as [<- _].
  - by rewrite size_empty.
Qed.

Lemma runDijkstra_post :
  exists r, runDijkstra g start end_ = Ok r /\ shortestOrNone g start end_ r /\
            exploresAll g start r.
Proof.
  unfold runDijkstra.
  pose proof (proj1 (in_bounds_spec start) Hstart) as [_ Hy].
  replace ((0 <=? pt_y start) && (pt_y start <? GRID_ROWS)) with true
    by (symmetry; rewrite andb_true_iff, Z.leb_le, Z.ltb_lt; lia).
  eapply dijkstraLoop_post; [apply dijkstraInv_init|].
  unfold dijkstraFuel. unfold pathFuel, GRID_ROWS, GRID_COLS in *. cbn [length]. lia.
Qed.

Lemma runDijkstra_ok :
  exists r, runDijkstra g start end_ = Ok r /\ shortestOrNone g start end_ r.
Proof. destruct runDijkstra_post as (r & Hr & Hf & _). by exists r. Qed.

(** ** Soundness of the A* loop *)

Lemma findNode_None w openSet :
  findNode w openSet = None -> forall n, n ∈ openSet -> a_pt n <> w.
Proof.
  unfold findNode. intros H n Hn Heq.
  apply list_elem_of_In in Hn.
  pose proof (find_none _ _ H n Hn) as Hf. cbn beta in Hf.
  by rewrite Heq, samePoint_refl in Hf.
Qed.

Lemma findNode_Some w openSet n :
  findNode w openSet = Some n -> n ∈ openSet /\ a_pt n = w.
Proof.
  unfold findNode. intros H. apply find_some in H as [Hin Hs].
  split; [by apply list_elem_of_In|by apply samePoint_spec].
Qed.

Lemma openSet_unique (openSet : list ANode) n1 n2 :
  NoDup (a_pt <$> openSet) -> n1 ∈ openSet -> n2 ∈ openSet ->
  a_pt n1 = a_pt n2 -> n1 = n2.
Proof.
  induction openSet as [|n l IH]; intros Hnd H1 H2 Heq.
  { by apply elem_of_nil in H1. }
  rewrite fmap_cons in Hnd. apply NoDup_cons in Hnd as [Hn Hnd].
  apply elem_of_cons in H1 as [->|H1], H2 as [->|H2]; auto.
  - exfalso. apply Hn. rewrite Heq. by apply list_elem_of_fmap_2.
  - exfalso. apply Hn. rewrite <- Heq. by apply list_elem_of_fmap_2.
Qed.

Lemma updateNode_pts w gv fv openSet :
  a_pt <$> updateNode w gv fv openSet = a_pt <$> openSet.
Proof.
  induction openSet as [|n l IH]; [done|]. cbn [updateNode].
  destruct (samePoint (a_pt n) w); [done|].
  rewrite !fmap_cons. by rewrite IH.
Qed.

Lemma updateNode_elem w gv fv openSet n' :
  NoDup (a_pt <$> openSet) -> n' ∈ updateNode w gv fv openSet ->
  (n' ∈ openSet /\ a_pt n' <> w) \/
  (a_pt n' = w /\ a_g n' = gv /\ a_f n' = fv).
Proof.
  induction openSet as [|n l IH]; intros Hnd Hin.
  { by apply elem_of_nil in Hin. }
  rewrite fmap_cons in Hnd. apply NoDup_cons in Hnd as [Hn Hnd].
  cbn [updateNode] in Hin. destruct (samePoint (a_pt n) w) eqn:Hs.
  - apply samePoint_spec in Hs.
    apply elem_of_cons in Hin as [->|Hin]; [by right|].
    left. split; [by right|]. intros Heq. apply Hn. rewrite Hs, <- Heq.
    by apply list_elem_of_fmap_2.
  - apply elem_of_cons in Hin as [->|Hin].
    + left. split; [by left|]. intros Heq.
      by rewrite Heq, samePoint_refl in Hs.
    + destruct (IH Hnd Hin) as [[? ?]|?]; [left|by right].
      split; [by right|done].
Qed.

Lemma updateNode_other w gv fv openSet n :
  n ∈ openSet -> a_pt n <> w -> n ∈ updateNode w gv fv openSet.
Proof.
  induction openSet as [|m l IH]; intros Hin Hne.
  { by apply elem_of_nil in Hin. }
  cbn [updateNode]. destruct (samePoint (a_pt m) w) eqn:Hs.
  - apply samePoint_spec in Hs.
    apply elem_of_cons in Hin as [->|Hin]; [done|by right].
  - apply elem_of_cons in Hin as [->|Hin]; [by left|].
    right. by apply IH.
Qed.

Lemma updateNode_hit w gv fv openSet n :
  n ∈ openSet -> a_pt n = w ->
  exists n', n' ∈ updateNode w gv fv openSet /\ a_pt n' = w /\ a_g n' = gv.
Proof.
  induction openSet as [|m l IH]; intros Hin Heq.
  { by apply elem_of_nil in Hin. }
  cbn [updateNode]. destruct (samePoint (a_pt m) w) eqn:Hs.
  - apply samePoint_spec in Hs. eexists. split; [by left|]. by split.
  - apply elem_of_cons in Hin as [->|Hin].
    + by rewrite Heq, samePoint_refl in Hs.
    + destruct (IH Hin Heq) as (n' & Hn' & ?). exists n'. split; [by right|done].
Qed.

(** A cell not closed yet lies, on any walk that reaches it, behind an
    open node whose [g] is at most its position on the walk. *)
Lemma astar_frontier c0 openSet closedSet cameFrom count :
  astarInv g start end_ U c0 [] openSet closedSet cameFrom count ->
  forall n w, walk g start n w -> w ∉ closedSet ->
    exists q m, q ∈ openSet /\ (m <= n)%nat /\ a_g q <= Z.of_nat m /\
                walk g (a_pt q) (n - m) w.
Proof.
  intros H n w Hw. induction Hw as [|n u v Hu IH Hv]; intros Hout.
  - exfalso. apply Hout. by eapply ai_start.
  - destruct (decide (u ∈ closedSet)) as [Huc|Huc].
    + destruct (ai_closed _ _ _ _ _ _ _ _ _ _ H u Huc)
        as (_ & d & [_ Hmin] & _ & Hn).
      destruct (Hn v Hv) as [[_ Hin]|[Hin|(q & Hq & Hpt & Hg)]];
        [by apply elem_of_nil in Hin|done|].
      exists q, (S n). split; [done|]. split; [lia|].
      specialize (Hmin n Hu). split; [lia|].
      rewrite Nat.sub_diag, Hpt. constructor.
    + destruct (IH Huc) as (q & m & Hq & Hm & Hg & Hwalk).
      exists q, m. split; [done|]. split; [lia|]. split; [done|].
      replace (S n - m)%nat with (S (n - m)) by lia. by eapply walk_S.
Qed.

(** The open node of least [f] carries the distance of its cell. *)
Lemma astar_pop_dist c0 openSet closedSet cameFrom count cur rest :
  astarInv g start end_ U c0 [] openSet closedSet cameFrom count ->
  sortBy a_f openSet = cur :: rest ->
  exists p d, cameFrom !! a_pt cur = Some p /\ p ∈ closedSet /\
              isDist g start p d /\ a_g cur = Z.of_nat (S d) /\
              isDist g start (a_pt cur) (S d).
Proof.
  intros H Hsort.
  assert (cur ∈ openSet) as Hcur.
  { rewrite <- (sortBy_perm a_f openSet), Hsort. by left. }
  destruct (ai_open _ _ _ _ _ _ _ _ _ _ H cur Hcur)
    as (Hout & _ & Hf & p & d & Hp & Hpc & Hpd & Hg & Hn).
  exists p, d. split; [done|]. split; [done|]. split; [done|].
  split; [lia|]. split.
  - eapply walk_S; [|exact Hn]. by destruct Hpd.
  - intros n Hw.
    destruct (astar_frontier _ _ _ _ _ H n _ Hw Hout)
      as (q & m & Hq & Hm & Hgq & Hwalk).
    destruct (ai_open _ _ _ _ _ _ _ _ _ _ H q Hq) as (_ & _ & Hfq & _).
    pose proof (sortBy_head_min a_f openSet cur rest Hsort q Hq) as Hmin.
    pose proof (heuristic_walk g end_ _ _ _ Hwalk) as Hh.
    lia.
Qed.

Lemma astarNeighbors_inv todo :
  forall current d openSet closedSet cameFrom count,
  a_pt current ∈ closedSet ->
  (forall w, w ∈ todo -> w ∈ nbrs g (a_pt current)) ->
  a_g current = Z.of_nat d -> isDist g start (a_pt current) d ->
  astarInv g start end_ U (a_pt current) todo openSet closedSet cameFrom count ->
  exists openSet' cameFrom',
    astarNeighbors todo current end_ openSet closedSet cameFrom =
      (openSet', cameFrom') /\
    astarInv g start end_ U (a_pt current) [] openSet' closedSet cameFrom' count.
Proof.
  induction todo as [|w todo IH];
    intros current d openSet closedSet cameFrom count Hcur Htodo Hg Hdist H.
  { exists openSet, cameFrom. by split. }
  cbn [astarNeighbors].
  assert (forall w', w' ∈ todo -> w' ∈ nbrs g (a_pt current)) as Htodo'
    by (intros w' Hw'; apply Htodo; by right).
  assert (w ∈ nbrs g (a_pt current)) as Hw by (apply Htodo; by left).
  destruct H as [H1 H2 H3 H4 H5 H6 H7].
  (* the neighbour is closed, or open with a [g] that is small enough *)
  assert ((w ∈ closedSet \/
           exists n, n ∈ openSet /\ a_pt n = w /\ a_g n <= Z.of_nat d + 1) ->
          astarInv g start end_ U (a_pt current) todo openSet closedSet cameFrom count)
    as Hskip.
  { intros Hcase. constructor; auto.
    intros v Hv. destruct (H5 v Hv) as (Hve & dv & Hvd & Hsz & Hn).
    split; [exact Hve|]. exists dv. split; [done|]. split; [done|].
    intros w' Hw'.
    destruct (Hn w' Hw') as [[-> Hin]|Hin]; [|by right].
    apply elem_of_cons in Hin as [->|Hin]; [|by left].
    right. assert (dv = d) as -> by (by eapply isDist_unique). done. }
  destruct (decide (w ∈ closedSet)) as [Hwc|Hwc].
  { apply (IH current d); auto. }
  assert (w <> start) as Hws by (intros ->; by destruct H3).
  (* after the neighbour got the node [n'] with [g = d + 1] *)
  assert (forall openSet' n',
    NoDup (a_pt <$> openSet') ->
    n' ∈ openSet' -> a_pt n' = w -> a_g n' = Z.of_nat d + 1 ->
    a_f n' = a_g n' + heuristic w end_ ->
    (forall n, n ∈ openSet' -> n = n' \/ (n ∈ openSet /\ a_pt n <> w)) ->
    (forall n, n ∈ openSet -> a_pt n <> w -> n ∈ openSet') ->
    (forall n, n ∈ openSet -> a_pt n = w -> Z.of_nat d + 1 < a_g n) ->
    astarInv g start end_ U (a_pt current) todo openSet' closedSet
      (<[w := a_pt current]> cameFrom) count) as Hset.
  { intros openSet' n' Hnd Hn' Hpt Hgn Hfn Hfrom Hkeep Hless. constructor.
    - exact Hnd.
    - intros n Hn. destruct (Hfrom n Hn) as [->|[Hin Hne]].
      + rewrite Hpt. split; [done|]. split; [by eapply HUnbrs|].
        split; [done|]. exists (a_pt current), d.
        rewrite lookup_insert_eq. done.
      + destruct (H2 n Hin) as (Hout & HU' & Hf & p & dp & Hp & Hrest).
        split; [done|]. split; [done|]. split; [done|].
        exists p, dp. rewrite lookup_insert_ne by done. done.
    - destruct H3 as [H3 H3']. split; [done|]. by rewrite lookup_insert_ne.
    - exact H4.
    - intros v Hv. destruct (H5 v Hv) as (Hve & dv & Hvd & Hsz & Hn).
      split; [exact Hve|]. exists dv. split; [done|]. split; [done|].
      intros w' Hw'. destruct (decide (w' = w)) as [->|Hne].
      + right. right. exists n'. split; [done|]. split; [done|].
        destruct (Hn w Hw') as [[-> _]|[Hin|(n & Hin & Hnpt & Hng)]].
        * assert (dv = d) as -> by (by eapply isDist_unique). lia.
        * done.
        * specialize (Hless n Hin Hnpt). lia.
      + destruct (Hn w' Hw') as [[-> Hin]|[Hin|(n & Hin & Hnpt & Hng)]].
        * apply elem_of_cons in Hin as [->|Hin]; [done|by left].
        * right. by left.
        * right. right. exists n. split; [|done].
          apply Hkeep; [done|]. by rewrite Hnpt.
    - intros v Hv Hvs. destruct (H6 v Hv Hvs) as (p & dp & Hp & Hrest).
      exists p, dp. rewrite lookup_insert_ne; [done|]. intros ->. done.
    - exact H7. }
  destruct (findNode w openSet) as [existingNode|] eqn:Hfind.
  - destruct (findNode_Some _ _ _ Hfind) as [Hex Hexpt].
    rewrite Hg.
    destruct (Z.of_nat d + 1 <? a_g existingNode) eqn:Hlt.
    + apply Z.ltb_lt in Hlt.
      destruct (updateNode_hit w (Z.of_nat d + 1)
                  (Z.of_nat d + 1 + heuristic w end_) openSet existingNode Hex Hexpt)
        as (n' & Hn' & Hn'pt & Hn'g).
      apply (IH current d); auto.
      apply (Hset _ n'); auto.
      * by rewrite updateNode_pts.
      * destruct (updateNode_elem _ _ _ _ _ H1 Hn') as [[_ Hne]|(_ & _ & Hf)];
          [done|]. by rewrite Hf, Hn'g.
      * intros n Hn.
        destruct (updateNode_elem _ _ _ _ _ H1 Hn) as [[Hin Hne]|(Hpt & Hgn & Hfn)];
          [by right|]. left.
        eapply (openSet_unique (updateNode w (Z.of_nat d + 1)
                  (Z.of_nat d + 1 + heuristic w end_) openSet)); auto.
        -- by rewrite updateNode_pts.
        -- by rewrite Hpt.
      * intros n Hn Hne. by apply updateNode_other.
      * intros n Hn Hpt.
        assert (n = existingNode) as ->; [|done].
        apply (openSet_unique openSet); auto. by rewrite Hpt.
    + apply Z.ltb_ge in Hlt. apply (IH current d); auto.
      apply Hskip. right. exists existingNode. split; [done|]. split; [done|lia].
  - pose proof (findNode_None _ _ Hfind) as Hnone.
    rewrite Hg. apply (IH current d); auto.
    apply (Hset _ (mkANode w (Z.of_nat d + 1 + heuristic w end_)
                     (Z.of_nat d + 1) (heuristic w end_))); auto.
    + rewrite fmap_app. apply NoDup_app. split; [done|].
      split; [|apply NoDup_singleton].
      intros x Hx Hx' % list_elem_of_singleton. subst x.
      apply list_elem_of_fmap in Hx as (n & Hpt & Hn). by apply (Hnone n).
    + apply elem_of_app. right. by left.
    + intros n [Hn|Hn % list_elem_of_singleton] % elem_of_app; [right|by left].
      split; [done|]. by apply Hnone.
    + intros n Hn _. apply elem_of_app. by left.
    + intros n Hn Hpt. by destruct (Hnone n Hn).
Qed.

Lemma astarInv_closed_universe cur todo openSet closedSet cameFrom count :
  astarInv g start end_ U cur todo openSet closedSet cameFrom count ->
  Z.of_nat (size closedSet) <= GRID_ROWS * GRID_COLS.
Proof.
  intros H. pose proof (subseteq_size _ _ (ai_universe _ _ _ _ _ _ _ _ _ _ H)).
  pose proof sizeU_Z. lia.
Qed.

Lemma astarInv_exhausted c0 closedSet cameFrom count :
  astarInv g start end_ U c0 [] [] closedSet cameFrom count ->
  forall n, ~ walk g start n end_.
Proof.
  intros H n Hw.
  destruct (decide (end_ ∈ closedSet)) as [Hin|Hout].
  - by destruct (ai_closed _ _ _ _ _ _ _ _ _ _ H end_ Hin) as [Hne _].
  - destruct (astar_frontier _ _ _ _ _ H n end_ Hw Hout) as (q & m & Hq & _).
    by apply elem_of_nil in Hq.
Qed.

Lemma astarInv_all c0 closedSet cameFrom count :
  astarInv g start end_ U c0 [] [] closedSet cameFrom count ->
  (forall v, v ∈ closedSet <-> exists n, walk g start n v) /\
  count = Z.of_nat (size closedSet).
Proof.
  intros H. split; [|by eapply ai_count]. intros v. split.
  - intros Hv.
    destruct (ai_closed _ _ _ _ _ _ _ _ _ _ H v Hv) as (_ & d & [Hw _] & _).
    by exists d.
  - intros [n Hw]. destruct (decide (v ∈ closedSet)) as [Hin|Hout]; [done|].
    destruct (astar_frontier _ _ _ _ _ H n v Hw Hout) as (q & m & Hq & _).
    by apply elem_of_nil in Hq.
Qed.

(** Walking [cameFrom] from an open or closed cell. *)
Lemma astarInv_found c0 openSet closedSet cameFrom count v d :
  astarInv g start end_ U c0 [] openSet closedSet cameFrom count ->
  (exists n, n ∈ openSet /\ a_pt n = v /\ a_g n = Z.of_nat d) ->
  exists l, reconstructPath pathFuel cameFrom v [] = Ok l /\
            pathTo g start v l /\ length l = S d.
Proof.
  intros H Hv.
  destruct (reconstructPath_chain cameFrom
              (fun v d => (v ∈ closedSet /\ isDist g start v d) \/
                          exists n, n ∈ openSet /\ a_pt n = v /\ a_g n = Z.of_nat d))
    with (d := d) (v := v) (fuel := pathFuel) (acc := @nil Point)
    as (l & Hrec & Hp & Hl).
  - by eapply ai_start.
  - intros d' [[_ Hd']|(n & Hn & Hpt & _)].
    + by eapply isDist_unique; [exact Hd'|apply isDist_start].
    + destruct (ai_open _ _ _ _ _ _ _ _ _ _ H n Hn) as (Hout & _).
      exfalso. apply Hout. rewrite Hpt. by eapply ai_start.
  - intros w dw [[Hw Hdw]|(n & Hn & Hpt & Hgn)] Hne.
    + destruct (ai_parent _ _ _ _ _ _ _ _ _ _ H w Hw Hne)
        as (p & dp & Hp & Hpc & Hpd & Hwd & Hnb).
      exists p, dp. split; [done|]. split; [by left|].
      split; [by eapply isDist_unique|done].
    + destruct (ai_open _ _ _ _ _ _ _ _ _ _ H n Hn)
        as (_ & _ & _ & p & dp & Hp & Hpc & Hpd & Hg & Hnb).
      rewrite Hpt in Hp, Hnb.
      exists p, dp. split; [done|]. split; [by left|]. split; [lia|done].
  - by right.
  - destruct Hv as (n & Hn & Hpt & Hgn).
    destruct (ai_open _ _ _ _ _ _ _ _ _ _ H n Hn)
      as (_ & _ & _ & p & dp & _ & Hpc & Hpd & Hg & _).
    destruct (ai_closed _ _ _ _ _ _ _ _ _ _ H p Hpc) as (_ & dp' & Hpd' & Hsz & _).
    assert (dp' = dp) as -> by (by eapply isDist_unique).
    pose proof (subseteq_size _ _ (ai_universe _ _ _ _ _ _ _ _ _ _ H)).
    lia.
  - exists l. by rewrite app_nil_r in Hrec.
Qed.

Lemma astarLoop_post fuel :
  forall c0 openSet closedSet cameFrom count,
  astarInv g start end_ U c0 [] openSet closedSet cameFrom count ->
  (size U < fuel + size closedSet)%nat ->
  exists r, astarLoop fuel g end_ openSet closedSet cameFrom count = Ok r /\
            shortestOrNone g start end_ r /\ exploresAll g start r.
Proof.
  induction fuel as [|fuel IH];
    intros c0 openSet closedSet cameFrom count H Hf.
  { pose proof (subseteq_size _ _ (ai_universe _ _ _ _ _ _ _ _ _ _ H)). lia. }
  pose proof (astarInv_closed_universe _ _ _ _ _ _ H) as HC.
  pose proof (ai_count _ _ _ _ _ _ _ _ _ _ H) as Hcount.
  cbn [astarLoop]. destruct (sortBy a_f openSet) as [|cur rest] eqn:Hsort.
  - apply sortBy_nil in Hsort. subst openSet. eexists. split; [reflexivity|].
    split.
    { split; cbn [exploredCount path]; [lia|].
      left. split; [done|]. by eapply astarInv_exhausted. }
    intros _. exists closedSet. cbn [exploredCount]. by eapply astarInv_all.
  - assert (openSet ≡ₚ cur :: rest) as Hperm.
    { by rewrite <- (sortBy_perm a_f openSet), Hsort. }
    assert (cur ∈ openSet) as Hcur by (rewrite Hperm; by left).
    destruct (astar_pop_dist _ _ _ _ _ _ _ H Hsort)
      as (p & dp & Hp & Hpc & Hpd & Hg & Hdist).
    destruct (samePoint (a_pt cur) end_) eqn:Hs.
    + apply samePoint_spec in Hs.
      destruct (astarInv_found _ _ _ _ _ (a_pt cur) (S dp) H) as (l & Hrec & Hpath & Hl).
      { by exists cur. }
      rewrite Hrec. cbn [bind]. eexists. split; [reflexivity|]. split.
      { split; cbn [exploredCount path]; [lia|]. right.
        exists (S dp). rewrite <- Hs. split; [exact Hdist|]. split; [exact Hpath|exact Hl]. }
      intros Hnil. cbn [path] in Hnil. subst l. by apply pathTo_nonempty in Hpath.
    + assert (a_pt cur <> end_) as Hne.
      { intros Heq. by rewrite Heq, samePoint_refl in Hs. }
      rewrite getNeighbors_nbrs by exact Hwf. cbn [bind].
      destruct (ai_open _ _ _ _ _ _ _ _ _ _ H cur Hcur) as (Hout & HcU & _).
      assert (size ({[a_pt cur]} ∪ closedSet) = S (size closedSet)) as Hsize
        by (by apply size_add).
      pose proof (ai_nodup _ _ _ _ _ _ _ _ _ _ H) as Hnd.
      rewrite Hperm, fmap_cons in Hnd. apply NoDup_cons in Hnd as [Hcr Hnd].
      assert (astarInv g start end_ U (a_pt cur) (nbrs g (a_pt cur)) rest
                ({[a_pt cur]} ∪ closedSet) cameFrom (count + 1)) as Hinv0.
      { clear IH Hf. destruct H as [H1 H2 H3 H4 H5 H6 H7]. constructor.
        - exact Hnd.
        - intros n Hn. destruct (H2 n) as (Hno & HnU & Hnf & q & dq & Hq & Hqc & Hrest).
          { rewrite Hperm. by right. }
          split.
          { intros [Heq % elem_of_singleton|Hin] % elem_of_union; [|done].
            apply Hcr. rewrite <- Heq. by apply list_elem_of_fmap_2. }
          split; [done|]. split; [done|]. exists q, dq.
          split; [done|]. split; [by apply in_add_r|done].
        - destruct H3. split; [by apply in_add_r|done].
        - by apply add_subseteq.
        - intros v Hv. destruct (decide (v = a_pt cur)) as [->|Hvc].
          + split; [done|]. exists (S dp). split; [done|].
            destruct (H5 p Hpc) as (_ & dp' & Hpd' & Hsz & _).
            assert (dp' = dp) as -> by (by eapply isDist_unique).
            split; [lia|]. intros w Hw. by left.
          + apply in_add_inv in Hv; [|done].
            destruct (H5 v Hv) as (Hve & dv & Hvd & Hsz & Hn).
            split; [done|]. exists dv. split; [done|]. split; [lia|].
            intros w Hw.
            destruct (Hn w Hw) as [[_ Hin]|[Hin|(n & Hin & Hpt & Hgn)]].
            * by apply elem_of_nil in Hin.
            * right. left. by apply in_add_r.
            * rewrite Hperm in Hin. apply elem_of_cons in Hin as [->|Hin].
              -- right. left. rewrite <- Hpt. apply in_add_l.
              -- right. right. by exists n.
        - intros v Hv Hvs. destruct (decide (v = a_pt cur)) as [->|Hvc].
          + exists p, dp. split; [done|]. split; [by apply in_add_r|].
            split; [done|]. split; [done|].
            destruct (H2 cur Hcur) as (_ & _ & _ & q & dq & Hq & _ & _ & _ & Hnb).
            congruence.
          + apply in_add_inv in Hv; [|done].
            destruct (H6 v Hv Hvs) as (q & dq & Hq & Hqc & Hrest).
            exists q, dq. split; [done|]. split; [by apply in_add_r|done].
        - rewrite Hsize. lia. }
      destruct (astarNeighbors_inv (nbrs g (a_pt cur)) cur (S dp) rest
                  ({[a_pt cur]} ∪ closedSet) cameFrom (count + 1)
                  (in_add_l _ _) (fun w Hw => Hw) Hg Hdist Hinv0)
        as (O' & P' & Heq & Hinv).
      rewrite Heq. apply (IH (a_pt cur)); [exact Hinv|].
      rewrite Hsize. lia.
Qed.

Lemma runAStar_post :
  exists r, runAStar g start end_ = Ok r /\ shortestOrNone g start end_ r /\
            exploresAll g start r.
Proof.
  unfold runAStar, searchFuel.
  destruct (decide (start = end_)) as [<-|Hne].
  - rewrite astarLoop_at_end by (done || apply lookup_empty).
    eexists. split; [reflexivity|]. split.
    { split; cbn [exploredCount path]; [unfold GRID_ROWS, GRID_COLS; lia|].
      right. exists O. split; [apply isDist_start|]. split; [constructor|done]. }
    intros Hnil. cbn [path] in Hnil. discriminate Hnil.
  - cbn [astarLoop sortBy foldr insertBy a_pt].
    rewrite samePoint_false by done.
    rewrite getNeighbors_nbrs by exact Hwf. cbn [bind].
    assert (size ({[start]} ∪ (∅ : gset Point)) = 1%nat) as Hsize.
    { rewrite size_add by apply not_elem_of_empty. by rewrite size_empty. }
    assert (astarInv g start end_ U start (nbrs g start) []
              ({[start]} ∪ ∅) ∅ (0 + 1)) as Hinv0.
    { constructor.
      - constructor.
      - intros n Hn. by apply elem_of_nil in Hn.
      - split; [apply in_add_l|apply lookup_empty].
      - apply add_subseteq; [done|]. intros x Hx. by apply not_elem_of_empty in Hx.
      - intros v Hv. apply elem_of_union in Hv as [Hv % elem_of_singleton|Hv];
          [|by apply not_elem_of_empty in Hv].
        subst v. split; [done|]. exists O. split; [apply isDist_start|].
        split; [lia|]. intros w Hw. by left.
      - intros v Hv Hvs. apply elem_of_union in Hv as [Hv % elem_of_singleton|Hv];
          [done|by apply not_elem_of_empty in Hv].
      - rewrite Hsize. lia. }
    destruct (astarNeighbors_inv (nbrs g start)
                (mkANode start 0 0 (heuristic start end_)) O []
                ({[start]} ∪ ∅) ∅ (0 + 1)
                (in_add_l _ _) (fun w Hw => Hw) eq_refl (isDist_start g start) Hinv0)
      as (O' & P' & Heq & Hinv).
    cbn [a_pt] in Heq. rewrite Heq.
    apply (astarLoop_post _ start); [exact Hinv|].
    rewrite Hsize. unfold pathFuel in HUsize. lia.
Qed.

Lemma runAStar_ok :
  exists r, runAStar g start end_ = Ok r /\ shortestOrNone g start end_ r.
Proof. destruct runAStar_post as (r & Hr & Hf & _). by exists r. Qed.

End Search.

(** ** The four searches on a grid *)

Lemma pathFuel_universe : (size universe < pathFuel)%nat.
Proof. unfold pathFuel. pose proof universe_size. lia. Qed.

Lemma runBFS_shortest g start end_ :
  wf_grid g = true -> in_bounds start = true ->
  exists r, runBFS g start end_ = Ok r /\ shortestOrNone g start end_ r.
Proof.
  intros Hwf Hb. apply (runBFS_ok g start end_ universe Hwf).
  - apply elem_of_universe, Hb.
  - apply nbrs_universe.
  - apply pathFuel_universe.
Qed.

Lemma runDijkstra_shortest g start end_ :
  wf_grid g = true -> in_bounds start = true ->
  exists r, runDijkstra g start end_ = Ok r /\ shortestOrNone g start end_ r.
Proof.
  intros Hwf Hb. apply (runDijkstra_ok g start end_ universe Hwf Hb).
  - apply elem_of_universe, Hb.
  - apply nbrs_universe.
  - apply pathFuel_universe.
Qed.

Lemma runAStar_shortest g start end_ :
  wf_grid g = true -> in_bounds start = true ->
  exists r, runAStar g start end_ = Ok r /\ shortestOrNone g start end_ r.
Proof.
  intros Hwf Hb. apply (runAStar_ok g start end_ universe Hwf).
  - apply elem_of_universe, Hb.
  - apply nbrs_universe.
  - apply pathFuel_universe.
Qed.

Lemma runDFS_found g start end_ :
  wf_grid g = true -> in_bounds start = true ->
  exists r, runDFS g start end_ = Ok r /\ foundOrNone g start end_ r.
Proof.
  intros Hwf Hb. apply (runDFS_ok g start end_ universe Hwf).
  - apply elem_of_universe, Hb.
  - apply nbrs_universe.
  - apply pathFuel_universe.
Qed.

Lemma shortestOrNone_found g start end_ r :
  shortestOrNone g start end_ r -> foundOrNone g start end_ r.
Proof.
  intros [Hc [Hn|(d & _ & Hp & _)]]; (split; [exact Hc|]); [by left|by right].
Qed.

Lemma route_start g start end_ r :
  is_route g start end_ r = true ->
  in_bounds start = true /\ traversable g start = true.
Proof.
  unfold is_route. rewrite !andb_true_iff, !bool_decide_eq_true.
  intros [[[Hh _] Hall] _]. destruct r as [|a r]; [discriminate|].
  injection Hh as ->. cbn [forallb] in Hall.
  apply andb_true_iff in Hall as [Ha _]. by apply andb_true_iff in Ha.
Qed.

(** With a route, a result with a shortest walk is a route as long as the
    distance. *)
Lemma shortest_with_route g start end_ route r :
  is_route g start end_ route = true ->
  shortestOrNone g start end_ r ->
  is_route g start end_ (path r) = true /\
  exists d, isDist g start end_ d /\ length (path r) = S d.
Proof.
  intros Hroute [_ [[_ Hno]|(d & Hd & Hp & Hl)]].
  - exfalso. by eapply Hno, route_walk.
  - destruct (route_start _ _ _ _ Hroute) as [Hb Ht].
    split; [by apply pathTo_route|]. by exists d.
Qed.

(** C1. On a snapshot of 60 rows of 120 cells with a route of traversable
    cells from [start] to [end_], the four searches return a route;
    the paths of [runBFS], [runDijkstra] and [runAStar] have the same
    length, which no route from [start] to [end_] goes below, and the path
    of [runDFS] is at least as long. *)
Theorem C1_shortest_paths g start end_ route :
  wf_grid g = true ->
  is_route g start end_ route = true ->
  exists bfs dijkstra astar dfs,
    runBFS g start end_ = Ok bfs /\
    runDijkstra g start end_ = Ok dijkstra /\
    runAStar g start end_ = Ok astar /\
    runDFS g start end_ = Ok dfs /\
    is_route g start end_ (path bfs) = true /\
    is_route g start end_ (path dijkstra) = true /\
    is_route g start end_ (path astar) = true /\
    is_route g start end_ (path dfs) = true /\
    length (path bfs) = length (path dijkstra) /\
    length (path bfs) = length (path astar) /\
    (forall r, is_route g start end_ r = true ->
               (length (path bfs) <= length r)%nat) /\
    (length (path bfs) <= length (path dfs))%nat.
Proof.
  intros Hwf Hroute.
  destruct (route_start _ _ _ _ Hroute) as [Hb Ht].
  destruct (runBFS_shortest g start end_ Hwf Hb) as (bfs & Hbfs & Sb).
  destruct (runDijkstra_shortest g start end_ Hwf Hb) as (dij & Hdij & Sd).
  destruct (runAStar_shortest g start end_ Hwf Hb) as (ast & Hast & Sa).
  destruct (runDFS_found g start end_ Hwf Hb) as (dfs & Hdfs & Sf).
  destruct (shortest_with_route _ _ _ _ _ Hroute Sb) as (Rb & db & Db & Lb).
  destruct (shortest_with_route _ _ _ _ _ Hroute Sd) as (Rd & dd & Dd & Ld).
  destruct (shortest_with_route _ _ _ _ _ Hroute Sa) as (Ra & da & Da & La).
  assert (dd = db) as -> by (by eapply isDist_unique).
  assert (da = db) as -> by (by eapply isDist_unique).
  assert (pathTo g start end_ (path dfs)) as Pf.
  { destruct Sf as [_ [[_ Hno]|Hp]]; [|exact Hp].
    exfalso. by eapply Hno, route_walk. }
  exists bfs, dij, ast, dfs.
  split; [exact Hbfs|]. split; [exact Hdij|]. split; [exact Hast|].
  split; [exact Hdfs|]. split; [exact Rb|]. split; [exact Rd|].
  split; [exact Ra|]. split; [by apply pathTo_route|].
  split; [lia|]. split; [lia|]. split.
  - intros r Hr. pose proof (route_walk _ _ _ _ Hr) as Hw.
    pose proof (route_nonempty _ _ _ _ Hr) as Hne.
    destruct Db as [_ Hmin]. specialize (Hmin _ Hw).
    destruct r; [done|]. cbn [length] in *. lia.
  - apply pathTo_walk in Pf as (n & Hl & Hw).
    destruct Db as [_ Hmin]. specialize (Hmin _ Hw). lia.
Qed.

Lemma C1_shortest_paths_witness :
  exists bfs dijkstra astar dfs,
    runBFS (initializeCityGrid tt) (mkPoint 8 8) (mkPoint 10 9) = Ok bfs /\
    runDijkstra (initializeCityGrid tt) (mkPoint 8 8) (mkPoint 10 9) = Ok dijkstra /\
    runAStar (initializeCityGrid tt) (mkPoint 8 8) (mkPoint 10 9) = Ok astar /\
    runDFS (initializeCityGrid tt) (mkPoint 8 8) (mkPoint 10 9) = Ok dfs /\
    is_route (initializeCityGrid tt) (mkPoint 8 8) (mkPoint 10 9) (path bfs) = true /\
    is_route (initializeCityGrid tt) (mkPoint 8 8) (mkPoint 10 9) (path dijkstra) = true /\
    is_route (initializeCityGrid tt) (mkPoint 8 8) (mkPoint 10 9) (path astar) = true /\
    is_route (initializeCityGrid tt) (mkPoint 8 8) (mkPoint 10 9) (path dfs) = true /\
    length (path bfs) = length (path dijkstra) /\
    length (path bfs) = length (path astar) /\
    (forall r, is_route (initializeCityGrid tt) (mkPoint 8 8) (mkPoint 10 9) r = true ->
               (length (path bfs) <= length r)%nat) /\
    (length (path bfs) <= length (path dfs))%nat.
Proof.
  apply (C1_shortest_paths (initializeCityGrid tt) (mkPoint 8 8) (mkPoint 10 9)
           [mkPoint 8 8; mkPoint 9 8; mkPoint 10 8; mkPoint 10 9]).
  - vm_compute. reflexivity.
  - vm_compute. reflexivity.
Defined.

(** C8. On a snapshot of 60 rows of 120 cells and from a start in the
    grid, each of the four searches returns: either an empty path, and
    then no walk leads from [start] to [end_], or the cells of a walk from
    [start] to [end_], each a neighbour of the one before; in both cases
    with a count between 0 and the number of cells. *)
Theorem C8_searches_terminate g start end_ :
  wf_grid g = true -> in_bounds start = true ->
  (exists r, runDFS g start end_ = Ok r /\ foundOrNone g start end_ r) /\
  (exists r, runBFS g start end_ = Ok r /\ foundOrNone g start end_ r) /\
  (exists r, runAStar g start end_ = Ok r /\ foundOrNone g start end_ r) /\
  (exists r, runDijkstra g start end_ = Ok r /\ foundOrNone g start end_ r).
Proof.
  intros Hwf Hb.
  split; [by apply runDFS_found|].
  split; [|split].
  - destruct (runBFS_shortest g start end_ Hwf Hb) as (r & Hr & Hs).
    exists r. split; [exact Hr|by apply shortestOrNone_found].
  - destruct (runAStar_shortest g start end_ Hwf Hb) as (r & Hr & Hs).
    exists r. split; [exact Hr|by apply shortestOrNone_found].
  - destruct (runDijkstra_shortest g start end_ Hwf Hb) as (r & Hr & Hs).
    exists r. split; [exact Hr|by apply shortestOrNone_found].
Qed.

Lemma C8_searches_terminate_witness :
  (exists r, runDFS (initializeCityGrid tt) (mkPoint 8 8) (mkPoint 100 8) = Ok r /\
             foundOrNone (initializeCityGrid tt) (mkPoint 8 8) (mkPoint 100 8) r) /\
  (exists r, runBFS (initializeCityGrid tt) (mkPoint 8 8) (mkPoint 100 8) = Ok r /\
             foundOrNone (initializeCityGrid tt) (mkPoint 8 8) (mkPoint 100 8) r) /\
  (exists r, runAStar (initializeCityGrid tt) (mkPoint 8 8) (mkPoint 100 8) = Ok r /\
             foundOrNone (initializeCityGrid tt) (mkPoint 8 8) (mkPoint 100 8) r) /\
  (exists r, runDijkstra (initializeCityGrid tt) (mkPoint 8 8) (mkPoint 100 8) = Ok r /\
             foundOrNone (initializeCityGrid tt) (mkPoint 8 8) (mkPoint 100 8) r).
Proof.
  apply C8_searches_terminate.
  - vm_compute. reflexivity.
  - vm_compute. reflexivity.
Defined.

Lemma no_route_empty g start end_ r :
  wf_grid g = true -> in_bounds start = true -> traversable g start = true ->
  (forall route, is_route g start end_ route = false) ->
  foundOrNone g start end_ r ->
  r = mkResult [] (exploredCount r) /\ 0 <= exploredCount r.
Proof.
  intros Hwf Hb Ht Hno [Hc [[Hp _]|Hp]].
  - split; [|lia]. destruct r as [p c]. cbn [path exploredCount] in *. by subst.
  - apply (pathTo_route g start end_ (path r) Hb Ht) in Hp.
    rewrite Hno in Hp. discriminate.
Qed.

(** C5. On a snapshot of 60 rows of 120 cells, from a traversable start
    in the grid and with no route of traversable cells from [start] to
    [end_], each of the four searches returns the empty path and a count
    that is not negative. *)
Theorem C5_no_route_empty_path g start end_ :
  wf_grid g = true -> in_bounds start = true -> traversable g start = true ->
  (forall route, is_route g start end_ route = false) ->
  exists cDFS cBFS cAStar cDijkstra,
    runDFS g start end_ = Ok (mkResult [] cDFS) /\
    runBFS g start end_ = Ok (mkResult [] cBFS) /\
    runAStar g start end_ = Ok (mkResult [] cAStar) /\
    runDijkstra g start end_ = Ok (mkResult [] cDijkstra) /\
    0 <= cDFS /\ 0 <= cBFS /\ 0 <= cAStar /\ 0 <= cDijkstra.
Proof.
  intros Hwf Hb Ht Hno.
  destruct (runDFS_found g start end_ Hwf Hb) as (r1 & E1 & F1).
  destruct (runBFS_shortest g start end_ Hwf Hb)
    as (r2 & E2 & F2 % shortestOrNone_found).
  destruct (runAStar_shortest g start end_ Hwf Hb)
    as (r3 & E3 & F3 % shortestOrNone_found).
  destruct (runDijkstra_shortest g start end_ Hwf Hb)
    as (r4 & E4 & F4 % shortestOrNone_found).
  destruct (no_route_empty _ _ _ _ Hwf Hb Ht Hno F1) as [R1 C1].
  destruct (no_route_empty _ _ _ _ Hwf Hb Ht Hno F2) as [R2 C2].
  destruct (no_route_empty _ _ _ _ Hwf Hb Ht Hno F3) as [R3 C3].
  destruct (no_route_empty _ _ _ _ Hwf Hb Ht Hno F4) as [R4 C4].
  exists (exploredCount r1), (exploredCount r2), (exploredCount r3),
    (exploredCount r4).
  rewrite <- R1, <- R2, <- R3, <- R4. by repeat split.
Qed.

Lemma islandGrid_no_route route :
  is_route islandGrid (mkPoint 0 0) (mkPoint 5 5) route = false.
Proof.
  destruct (is_route islandGrid (mkPoint 0 0) (mkPoint 5 5) route) eqn:E;
    [exfalso|reflexivity].
  unfold is_route in E. rewrite !andb_true_iff, !bool_decide_eq_true in E.
  destruct E as [[[Hh Hl] Hall] Hch].
  destruct route as [|a [|b r]]; [discriminate| |].
  - injection Hh as ->. discriminate.
  - injection Hh as ->.
    change (chain (mkPoint 0 0 :: b :: r))
      with (adjacent (mkPoint 0 0) b && chain (b :: r)) in Hch.
    apply andb_true_iff in Hch as [Hadj _].
    cbn [forallb] in Hall. apply andb_true_iff in Hall as [_ Hall].
    apply andb_true_iff in Hall as [Hb _].
    apply elem_of_candidates in Hadj. unfold candidates, directions in Hadj.
    cbn [map fst snd pt_x pt_y] in Hadj.
    repeat (apply elem_of_cons in Hadj as [->|Hadj]; [vm_compute in Hb; discriminate|]).
    by apply elem_of_nil in Hadj.
Qed.

Lemma C5_no_route_empty_path_witness :
  exists cDFS cBFS cAStar cDijkstra,
    runDFS islandGrid (mkPoint 0 0) (mkPoint 5 5) = Ok (mkResult [] cDFS) /\
    runBFS islandGrid (mkPoint 0 0) (mkPoint 5 5) = Ok (mkResult [] cBFS) /\
    runAStar islandGrid (mkPoint 0 0) (mkPoint 5 5) = Ok (mkResult [] cAStar) /\
    runDijkstra islandGrid (mkPoint 0 0) (mkPoint 5 5) = Ok (mkResult [] cDijkstra) /\
    0 <= cDFS /\ 0 <= cBFS /\ 0 <= cAStar /\ 0 <= cDijkstra.
Proof.
  apply C5_no_route_empty_path.
  - vm_compute. reflexivity.
  - vm_compute. reflexivity.
  - vm_compute. reflexivity.
  - exact islandGrid_no_route.
Defined.

(** ** More on the tick: what it keeps over any number of frames *)

Lemma rngOk_suffix rng r : rngOk rng -> rngSuffix rng r -> rngOk r.
Proof. intros H [k Hk] n. rewrite Hk. apply H. Qed.

Lemma moveOutcome_carOk grid prevCars car rng dx dy car' rng' :
  wf_grid grid = true -> rngOk rng ->
  moveOutcome grid prevCars car rng dx dy car' rng' ->
  carOk grid car = true -> carOk grid car' = true.
Proof.
  intros Hwf Hr Ho Hok.
  pose proof (moveOutcome_onRoad _ _ _ _ _ _ _ _ Hwf Ho) as Hroad.
  unfold carOk in *. rewrite !andb_true_iff in Hok.
  destruct Hok as [[[Hd Hon] Hs0] Hs1]. specialize (Hroad Hon).
  rewrite Hroad. apply validDirection_spec in Hd.
  apply Z.leb_le in Hs0, Hs1.
  assert (forall k, 0 <= Qfloor (rng k * 4) < 4) as H4.
  { intros k. destruct (Hr k). by apply (Qfloor_scaled_range (rng k) 4). }
  rewrite !andb_true_iff, !Z.leb_le, validDirection_spec.
  destruct Ho; cbn [setDirection setStuck moveTo car_direction car_stuckTime];
    try (split; [split; [split|]|]; first [done | lia | apply H4]).
  split; [split; [split|]|]; try done; try lia.
  apply Z.mod_pos_bound. lia.
Qed.

Lemma Forall2_tick_carOk grid prevCars rng cars cars' :
  wf_grid grid = true -> rngOk rng ->
  Forall2 (tickOf grid prevCars rng) cars cars' ->
  forallb (carOk grid) cars = true -> forallb (carOk grid) cars' = true.
Proof.
  intros Hwf Hr Hall. induction Hall as [|c c' l l' Hc _ IH]; [done|].
  cbn [forallb]. rewrite !andb_true_iff. intros [Hok Hl]. split; [|by apply IH].
  destruct Hc as (dx & dy & r & r' & _ & Hsuf & Ho).
  apply (moveOutcome_carOk grid prevCars c r dx dy c' r' Hwf); [|exact Ho|exact Hok].
  by eapply rngOk_suffix.
Qed.

Lemma Forall2_tick_ids grid prevCars rng cars cars' :
  Forall2 (tickOf grid prevCars rng) cars cars' ->
  map car_id cars' = map car_id cars.
Proof.
  induction 1 as [|c c' l l' Hc _ IH]; [done|].
  cbn [map]. rewrite IH. f_equal.
  destruct Hc as (dx & dy & r & r' & _ & _ & Ho).
  by apply moveOutcome_frame in Ho as [? _].
Qed.

Lemma carOk_validDirection g cars :
  forallb (carOk g) cars = true -> forallb validDirection cars = true.
Proof.
  rewrite !forallb_forall. intros H c Hc. specialize (H c Hc).
  unfold carOk in H. rewrite !andb_true_iff in H. tauto.
Qed.

Lemma moveCars_rng st rng st' rng' :
  forallb validDirection (st_cars st) = true ->
  moveCars st rng = Ok (st', rng') -> rngSuffix rng rng'.
Proof.
  intros Hv Hm. unfold moveCars in Hm.
  destruct (mapCars_outcome (st_grid st) (st_cars st) (st_cars st) rng Hv)
    as (cars' & r' & Hmap & Hsuf & _).
  rewrite Hmap in Hm. cbn [bind snd] in Hm. by injection Hm as _ <-.
Qed.

Lemma ticks_carOk n :
  forall st rng,
  wf_grid (st_grid st) = true -> rngOk rng ->
  forallb (carOk (st_grid st)) (st_cars st) = true ->
  exists st' rng',
    ticks n st rng = Ok (st', rng') /\
    forallb (carOk (st_grid st')) (st_cars st') = true /\
    map car_id (st_cars st') = map car_id (st_cars st) /\
    st_grid st' = st_grid st /\
    st_startPoint st' = st_startPoint st /\
    st_endPoint st' = st_endPoint st /\
    st_currentPath st' = st_currentPath st.
Proof.
  induction n as [|n IH]; intros st rng Hwf Hr Hok.
  { exists st, rng. by repeat split. }
  pose proof (carOk_validDirection _ _ Hok) as Hv.
  destruct (moveCars_outcome st rng Hv) as (cars1 & rng1 & Hm & Hall).
  cbn [ticks]. rewrite Hm. cbn [bind fst snd].
  set (st1 := mkAppState (st_grid st) cars1 (st_startPoint st) (st_endPoint st)
                (st_currentPath st)) in *.
  destruct (IH st1 rng1) as (st' & rng' & Ht & Hok' & Hids & Hg & Hs & He & Hp).
  - exact Hwf.
  - eapply rngOk_suffix; [exact Hr|]. by eapply moveCars_rng.
  - by eapply Forall2_tick_carOk.
  - exists st', rng'. split; [exact Ht|]. split; [exact Hok'|].
    split; [|by repeat split].
    rewrite Hids. by eapply Forall2_tick_ids.
Qed.

(** X1. Any number of frames from a state whose cars are all in order, on a
    grid of 60 rows of 120 cells and with random values in [0, 1): no
    frame throws, the cars stay in order (direction 0 to 3, on a cell of
    the grid that is not a wall, [stuckTime] at most 21), their [id]s stay
    the same in the same order, and the rest of the state is untouched. *)
Theorem ticks_keep_cars_in_order n :
  forall st rng,
  wf_grid (st_grid st) = true -> rngOk rng ->
  forallb (carOk (st_grid st)) (st_cars st) = true ->
  exists st' rng',
    ticks n st rng = Ok (st', rng') /\
    forallb (carOk (st_grid st')) (st_cars st') = true /\
    map car_id (st_cars st') = map car_id (st_cars st) /\
    st_grid st' = st_grid st /\
    st_startPoint st' = st_startPoint st /\
    st_endPoint st' = st_endPoint st /\
    st_currentPath st' = st_currentPath st.
Proof. exact (ticks_carOk n). Qed.

Lemma ticks_keep_cars_in_order_witness :
  exists st' rng',
    ticks 3 demoState demoRng = Ok (st', rng') /\
    forallb (carOk (st_grid st')) (st_cars st') = true /\
    map car_id (st_cars st') = map car_id (st_cars demoState) /\
    st_grid st' = st_grid demoState /\
    st_startPoint st' = st_startPoint demoState /\
    st_endPoint st' = st_endPoint demoState /\
    st_currentPath st' = st_currentPath demoState.
Proof.
  apply ticks_keep_cars_in_order.
  - vm_compute. reflexivity.
  - intros n. unfold demoRng, Qle, Qlt. simpl. lia.
  - vm_compute. reflexivity.
Defined.

(** ** More on [heuristic] and [getNeighbors] *)

(** X2. The Manhattan distance never exceeds the number of steps of a walk
    between two cells, whatever the walls and the cars, and it is 0 from a
    cell to itself. *)
Theorem heuristic_admissible g a b n :
  walk g a n b -> heuristic a b <= Z.of_nat n /\ heuristic b b = 0.
Proof.
  intros Hw. pose proof (heuristic_walk g b a n b Hw) as H.
  assert (heuristic b b = 0) as H0 by (unfold heuristic; lia).
  split; [lia|exact H0].
Qed.

Lemma heuristic_admissible_witness :
  heuristic (mkPoint 8 8) (mkPoint 9 8) <= Z.of_nat 1 /\
  heuristic (mkPoint 9 8) (mkPoint 9 8) = 0.
Proof.
  apply (heuristic_admissible openGrid (mkPoint 8 8) (mkPoint 9 8) 1).
  eapply walk_S; [constructor|].
  apply elem_of_nbrs. split; [|split]; [|vm_compute; reflexivity..].
  apply elem_of_candidates. reflexivity.
Defined.

Lemma neighborsLoop_ok g u dirs acc :
  (forall d, d ∈ dirs ->
     in_bounds (mkPoint (pt_x u + fst d) (pt_y u + snd d)) = true ->
     cell_at g (pt_x u + fst d) (pt_y u + snd d) <> None) ->
  neighborsLoop dirs u g acc =
    Ok (acc ++ List.filter (fun p => in_bounds p && traversable g p)
                 (map (fun d => mkPoint (pt_x u + fst d) (pt_y u + snd d)) dirs)).
Proof.
  revert acc. induction dirs as [|[dx dy] dirs IH]; intros acc Hall; simpl.
  - by rewrite app_nil_r.
  - assert (forall d, d ∈ dirs ->
      in_bounds (mkPoint (pt_x u + fst d) (pt_y u + snd d)) = true ->
      cell_at g (pt_x u + fst d) (pt_y u + snd d) <> None) as Hall'
      by (intros d Hd; apply Hall; by right).
    specialize (Hall (dx, dy) ltac:(by left)). cbn [fst snd] in Hall.
    unfold in_bounds at 1, traversable at 1. simpl.
    unfold in_bounds in Hall. cbn [pt_x pt_y] in Hall.
    destruct ((0 <=? pt_x u + dx) && (pt_x u + dx <? GRID_COLS) &&
              (0 <=? pt_y u + dy) && (pt_y u + dy <? GRID_ROWS)) eqn:Hb; simpl.
    + destruct (cell_at g (pt_x u + dx) (pt_y u + dy)) as [c|]; [|by destruct Hall].
      destruct (negb (isWall c) && negb (hasCar c)).
      * rewrite IH by exact Hall'. by rewrite <- app_assoc.
      * by apply IH.
    + by apply IH.
Qed.

Lemma neighborsLoop_error g u dirs acc d :
  d ∈ dirs ->
  in_bounds (mkPoint (pt_x u + fst d) (pt_y u + snd d)) = true ->
  cell_at g (pt_x u + fst d) (pt_y u + snd d) = None ->
  (forall d', d' ∈ dirs ->
     in_bounds (mkPoint (pt_x u + fst d') (pt_y u + snd d')) = true ->
     cell_at g (pt_x u + fst d') (pt_y u + snd d') <> None) \/
  neighborsLoop dirs u g acc = TypeError.
Proof.
  intros Hd Hb Hc. right. revert acc.
  induction dirs as [|[dx dy] dirs IH]; intros acc.
  { by apply elem_of_nil in Hd. }
  cbn [neighborsLoop].
  change ((0 <=? pt_x u + dx) && (pt_x u + dx <? GRID_COLS) &&
          (0 <=? pt_y u + dy) && (pt_y u + dy <? GRID_ROWS))
    with (in_bounds (mkPoint (pt_x u + dx) (pt_y u + dy))).
  apply elem_of_cons in Hd as [->|Hd].
  - cbn [fst snd] in Hb, Hc. by rewrite Hb, Hc.
  - destruct (in_bounds (mkPoint (pt_x u + dx) (pt_y u + dy))); [|by apply IH].
    destruct (cell_at g (pt_x u + dx) (pt_y u + dy)) as [c|]; [|done].
    destruct (negb (isWall c) && negb (hasCar c)); by apply IH.
Qed.

Lemma missing_candidate_dec g u (dirs : list (Z * Z)) :
  (exists d, d ∈ dirs /\
     in_bounds (mkPoint (pt_x u + fst d) (pt_y u + snd d)) = true /\
     cell_at g (pt_x u + fst d) (pt_y u + snd d) = None) \/
  (forall d, d ∈ dirs ->
     in_bounds (mkPoint (pt_x u + fst d) (pt_y u + snd d)) = true ->
     cell_at g (pt_x u + fst d) (pt_y u + snd d) <> None).
Proof.
  induction dirs as [|d dirs IH].
  { right. intros d Hd. by apply elem_of_nil in Hd. }
  destruct IH as [(d' & Hd' & H)|IH].
  { left. exists d'. split; [by right|done]. }
  destruct (in_bounds (mkPoint (pt_x u + fst d) (pt_y u + snd d))) eqn:Hb.
  - destruct (cell_at g (pt_x u + fst d) (pt_y u + snd d)) as [c|] eqn:Hc.
    + right. intros d' [->|Hd'] % elem_of_cons; [congruence|by apply IH].
    + left. exists d. split; [by left|done].
  - right. intros d' [->|Hd'] % elem_of_cons; [congruence|by apply IH].
Qed.

Lemma neighborsLoop_cases g u dirs acc :
  (neighborsLoop dirs u g acc = TypeError /\
   exists d, d ∈ dirs /\
     in_bounds (mkPoint (pt_x u + fst d) (pt_y u + snd d)) = true /\
     cell_at g (pt_x u + fst d) (pt_y u + snd d) = None) \/
  (neighborsLoop dirs u g acc =
     Ok (acc ++ List.filter (fun p => in_bounds p && traversable g p)
                  (map (fun d => mkPoint (pt_x u + fst d) (pt_y u + snd d)) dirs)) /\
   forall d, d ∈ dirs ->
     in_bounds (mkPoint (pt_x u + fst d) (pt_y u + snd d)) = true ->
     cell_at g (pt_x u + fst d) (pt_y u + snd d) <> None).
Proof.
  destruct (missing_candidate_dec g u dirs) as [(d & Hd & Hb & Hc)|Hall].
  - left. split; [|by exists d].
    destruct (neighborsLoop_error g u dirs acc d Hd Hb Hc) as [Hall|He]; [|exact He].
    by destruct (Hall d Hd Hb).
  - right. split; [by apply neighborsLoop_ok|exact Hall].
Qed.

(** X3. [getNeighbors] on any grid: it throws when one of the four cells
    around the node is within the 60 x 120 bounds and absent from the
    grid, and otherwise returns the traversable ones among the four cells
    that are within the bounds. *)
Theorem getNeighbors_cases node g :
  (getNeighbors node g = TypeError /\
   exists c, c ∈ candidates node /\ in_bounds c = true /\
             cell_at g (pt_x c) (pt_y c) = None) \/
  (getNeighbors node g = Ok (nbrs g node) /\
   forall c, c ∈ candidates node -> in_bounds c = true ->
             cell_at g (pt_x c) (pt_y c) <> None).
Proof.
  unfold getNeighbors.
  destruct (neighborsLoop_cases g node directions [])
    as [[He (d & Hd & Hdb & Hdc)]|[He Hall]].
  - left. split; [exact He|].
    exists (mkPoint (pt_x node + fst d) (pt_y node + snd d)).
    split; [|split; [exact Hdb|exact Hdc]].
    unfold candidates. apply list_elem_of_In.
    apply (in_map (fun d => mkPoint (pt_x node + fst d) (pt_y node + snd d))).
    by apply list_elem_of_In.
  - right. split; [exact He|]. intros c Hc Hb.
    unfold candidates in Hc. apply list_elem_of_In, in_map_iff in Hc as (d & <- & Hd).
    apply Hall; [by apply list_elem_of_In|exact Hb].
Qed.

Lemma candidate_in_bounds node :
  in_bounds node = true ->
  exists c, c ∈ candidates node /\ in_bounds c = true.
Proof.
  intros Hb. apply in_bounds_spec in Hb. unfold GRID_COLS, GRID_ROWS in Hb.
  destruct (decide (pt_y node < 59)) as [Hy|Hy].
  - exists (mkPoint (pt_x node + 0) (pt_y node + 1)). split.
    + unfold candidates, directions. cbn [map fst snd]. by left.
    + apply in_bounds_spec. unfold GRID_COLS, GRID_ROWS. cbn [pt_x pt_y]. lia.
  - exists (mkPoint (pt_x node + 0) (pt_y node + -1)). split.
    + unfold candidates, directions. cbn [map fst snd]. do 2 right. by left.
    + apply in_bounds_spec. unfold GRID_COLS, GRID_ROWS. cbn [pt_x pt_y]. lia.
Qed.

Lemma getNeighbors_empty_grid node :
  in_bounds node = true -> getNeighbors node [] = TypeError.
Proof.
  intros Hb. unfold getNeighbors.
  destruct (neighborsLoop_cases [] node directions []) as [[He _]|[_ Hall]]; [exact He|].
  destruct (candidate_in_bounds node Hb) as (c & Hc & Hcb).
  unfold candidates in Hc. apply list_elem_of_In, in_map_iff in Hc as (d & <- & Hd).
  exfalso. apply (Hall d); [by apply list_elem_of_In|exact Hcb|]. unfold cell_at.
  destruct ((0 <=? pt_y node + snd d) && (0 <=? pt_x node + fst d)); reflexivity.
Qed.

Lemma dfsLoop_throws n g e s visited (parent : gmap Point Point) count :
  samePoint s e = false -> getNeighbors s g = TypeError ->
  dfsLoop (S n) g e [s] visited parent count = TypeError.
Proof. intros Hs Hg. cbn [dfsLoop pop]. by rewrite Hs, Hg. Qed.

Lemma bfsLoop_throws n g e s queue visited (parent : gmap Point Point) count :
  samePoint s e = false -> getNeighbors s g = TypeError ->
  bfsLoop (S n) g e (s :: queue) visited parent count = TypeError.
Proof. intros Hs Hg. cbn [bfsLoop]. by rewrite Hs, Hg. Qed.

Lemma astarLoop_throws n g e node closed (cameFrom : gmap Point Point) count :
  samePoint (a_pt node) e = false -> getNeighbors (a_pt node) g = TypeError ->
  astarLoop (S n) g e [node] closed cameFrom count = TypeError.
Proof.
  intros Hs Hg. cbn [astarLoop sortBy foldr insertBy]. by rewrite Hs, Hg.
Qed.

Lemma dijkstraLoop_throws n g e s distances (parent : gmap Point Point) count :
  samePoint s e = false -> getNeighbors s g = TypeError ->
  dijkstraLoop (S n) g e distances parent [mkQEntry s 0] ∅ count = TypeError.
Proof.
  intros Hs Hg. cbn [dijkstraLoop sortBy foldr insertBy q_pt].
  destruct (decide (s ∈ (∅ : gset Point))) as [Hin|_];
    [by apply not_elem_of_empty in Hin|].
  by rewrite Hs, Hg.
Qed.

(** X4. On the empty grid the component starts with, a search from a cell
    within the bounds to another cell throws: the first node it expands
    has a neighbour within the bounds that the grid does not hold. *)
Theorem searches_throw_on_empty_grid start end_ :
  in_bounds start = true -> start <> end_ ->
  runDFS [] start end_ = TypeError /\
  runBFS [] start end_ = TypeError /\
  runAStar [] start end_ = TypeError /\
  runDijkstra [] start end_ = TypeError.
Proof.
  intros Hb Hne. pose proof (getNeighbors_empty_grid start Hb) as Hg.
  pose proof (samePoint_false _ _ Hne) as Hs.
  split; [|split; [|split]].
  - unfold runDFS, searchFuel. by apply dfsLoop_throws.
  - unfold runBFS, searchFuel. by apply bfsLoop_throws.
  - unfold runAStar, searchFuel. by apply astarLoop_throws.
  - unfold runDijkstra, dijkstraFuel.
    apply in_bounds_spec in Hb.
    replace ((0 <=? pt_y start) && (pt_y start <? GRID_ROWS)) with true
      by (symmetry; rewrite andb_true_iff, Z.leb_le, Z.ltb_lt; lia).
    by apply dijkstraLoop_throws.
Qed.

Lemma searches_throw_on_empty_grid_witness :
  runDFS [] (mkPoint 8 8) (mkPoint 9 8) = TypeError /\
  runBFS [] (mkPoint 8 8) (mkPoint 9 8) = TypeError /\
  runAStar [] (mkPoint 8 8) (mkPoint 9 8) = TypeError /\
  runDijkstra [] (mkPoint 8 8) (mkPoint 9 8) = TypeError.
Proof.
  apply searches_throw_on_empty_grid; [reflexivity|discriminate].
Defined.

Lemma candidates_NoDup u : NoDup (candidates u).
Proof.
  unfold candidates, directions. cbn [map fst snd].
  repeat (apply NoDup_cons; split;
          [rewrite ?elem_of_cons, elem_of_nil;
           intros H; repeat (destruct H as [H|H]); try (injection H; lia); done|]).
  apply NoDup_nil_2.
Qed.

Lemma filter_NoDup {A} (f : A -> bool) (l : list A) :
  NoDup l -> NoDup (List.filter f l).
Proof.
  induction 1 as [|a l Ha _ IH]; [constructor|]. cbn [List.filter].
  destruct (f a); [|exact IH]. apply NoDup_cons. split; [|exact IH].
  intros Hin. apply Ha. apply list_elem_of_In in Hin.
  apply filter_In in Hin as [Hin _]. by apply list_elem_of_In.
Qed.

(** X5. On a grid of 60 rows of 120 cells [getNeighbors] returns at most four
    cells, all different and none the node itself: exactly the cells that
    share a side with the node, lie within the grid, and are neither a
    wall nor under a car. *)
Theorem getNeighbors_sound g node :
  wf_grid g = true ->
  exists l, getNeighbors node g = Ok l /\
    (length l <= 4)%nat /\ NoDup l /\ (node ∉ l) /\
    forall v, v ∈ l <->
      adjacent node v = true /\ in_bounds v = true /\ traversable g v = true.
Proof.
  intros Hwf. exists (nbrs g node). split; [by apply getNeighbors_nbrs|].
  split; [apply nbrs_length|]. split; [apply filter_NoDup, candidates_NoDup|].
  split.
  - intros Hin % nbrs_adjacent. unfold adjacent in Hin.
    apply Z.eqb_eq in Hin. lia.
  - intros v. rewrite elem_of_nbrs, elem_of_candidates. tauto.
Qed.

Lemma getNeighbors_sound_witness :
  exists l, getNeighbors (mkPoint 8 8) (initializeCityGrid tt) = Ok l /\
    (length l <= 4)%nat /\ NoDup l /\ (mkPoint 8 8 ∉ l) /\
    forall v, v ∈ l <->
      adjacent (mkPoint 8 8) v = true /\ in_bounds v = true /\
      traversable (initializeCityGrid tt) v = true.
Proof. apply getNeighbors_sound. vm_compute. reflexivity. Defined.

(** ** Routes can be walked back *)

Lemma adjacent_sym a b : adjacent a b = adjacent b a.
Proof. unfold adjacent. f_equal. lia. Qed.

Lemma chain_app_inv l1 l2 : chain (l1 ++ l2) = true -> chain l1 = true /\ chain l2 = true.
Proof.
  induction l1 as [|a l1 IH]; [done|].
  destruct l1 as [|b l1].
  - simpl. destruct l2; [done|]. intros [_ ?] % andb_true_iff. done.
  - change (chain ((a :: b :: l1) ++ l2))
      with (adjacent a b && chain ((b :: l1) ++ l2)).
    change (chain (a :: b :: l1)) with (adjacent a b && chain (b :: l1)).
    intros [-> H] % andb_true_iff. by apply IH in H as [-> ->].
Qed.

Lemma chain_reverse l : chain l = true -> chain (reverse l) = true.
Proof.
  induction l as [|a l IH]; [done|]. intros Hch.
  rewrite reverse_cons. destruct l as [|b l]; [done|].
  change (chain (a :: b :: l)) with (adjacent a b && chain (b :: l)) in Hch.
  apply andb_true_iff in Hch as [Hadj Hch].
  eapply chain_snoc; [|by apply IH|by rewrite adjacent_sym].
  rewrite reverse_cons. apply last_snoc.
Qed.

Lemma route_reverse g a b r :
  is_route g a b r = true -> is_route g b a (reverse r) = true.
Proof.
  unfold is_route. rewrite !andb_true_iff, !bool_decide_eq_true.
  intros [[[Hh Hl] Hall] Hch]. split; [split; [split|]|].
  - by rewrite head_reverse.
  - by rewrite last_reverse.
  - rewrite forallb_forall in Hall. apply forallb_forall. intros p Hp.
    apply Hall. apply list_elem_of_In. apply list_elem_of_In in Hp.
    by rewrite elem_of_reverse in Hp.
  - by apply chain_reverse.
Qed.

Lemma shortest_is_least g start end_ r route :
  is_route g start end_ route = true ->
  shortestOrNone g start end_ r -> (length (path r) <= length route)%nat.
Proof.
  intros Hroute Hs.
  destruct (shortest_with_route _ _ _ _ _ Hroute Hs) as (_ & d & [_ Hmin] & Hl).
  pose proof (route_walk _ _ _ _ Hroute) as Hw. specialize (Hmin _ Hw).
  pose proof (route_nonempty _ _ _ _ Hroute).
  destruct route; [done|]. cbn [length] in *. lia.
Qed.

(** X6. On a snapshot with a route from [a] to [b], the shortest path from
    [a] to [b] and the one from [b] to [a] have the same length: [runBFS],
    [runDijkstra] and [runAStar] return paths of one length in the two
    directions. *)
Theorem shortest_length_symmetric g a b route :
  wf_grid g = true -> is_route g a b route = true ->
  exists ab ba dab dba aab aba,
    runBFS g a b = Ok ab /\ runBFS g b a = Ok ba /\
    runDijkstra g a b = Ok dab /\ runDijkstra g b a = Ok dba /\
    runAStar g a b = Ok aab /\ runAStar g b a = Ok aba /\
    length (path ab) = length (path ba) /\
    length (path dab) = length (path dba) /\
    length (path aab) = length (path aba).
Proof.
  intros Hwf Hr. pose proof (route_reverse _ _ _ _ Hr) as Hr'.
  destruct (route_start _ _ _ _ Hr) as [Ha _].
  destruct (route_start _ _ _ _ Hr') as [Hb _].
  destruct (runBFS_shortest g a b Hwf Ha) as (ab & E1 & S1).
  destruct (runBFS_shortest g b a Hwf Hb) as (ba & E2 & S2).
  destruct (runDijkstra_shortest g a b Hwf Ha) as (dab & E3 & S3).
  destruct (runDijkstra_shortest g b a Hwf Hb) as (dba & E4 & S4).
  destruct (runAStar_shortest g a b Hwf Ha) as (aab & E5 & S5).
  destruct (runAStar_shortest g b a Hwf Hb) as (aba & E6 & S6).
  exists ab, ba, dab, dba, aab, aba.
  do 6 (split; [assumption|]).
  assert (forall r1 r2, shortestOrNone g a b r1 -> shortestOrNone g b a r2 ->
            length (path r1) = length (path r2)) as Hsym.
  { intros r1 r2 H1 H2.
    destruct (shortest_with_route _ _ _ _ _ Hr H1) as (R1 & _).
    destruct (shortest_with_route _ _ _ _ _ Hr' H2) as (R2 & _).
    pose proof (shortest_is_least _ _ _ _ _ (route_reverse _ _ _ _ R2) H1) as L1.
    pose proof (shortest_is_least _ _ _ _ _ (route_reverse _ _ _ _ R1) H2) as L2.
    rewrite length_reverse in L1, L2. lia. }
  split; [by apply Hsym|]. split; by apply Hsym.
Qed.

Lemma shortest_length_symmetric_witness :
  exists ab ba dab dba aab aba,
    runBFS (initializeCityGrid tt) (mkPoint 8 8) (mkPoint 10 9) = Ok ab /\
    runBFS (initializeCityGrid tt) (mkPoint 10 9) (mkPoint 8 8) = Ok ba /\
    runDijkstra (initializeCityGrid tt) (mkPoint 8 8) (mkPoint 10 9) = Ok dab /\
    runDijkstra (initializeCityGrid tt) (mkPoint 10 9) (mkPoint 8 8) = Ok dba /\
    runAStar (initializeCityGrid tt) (mkPoint 8 8) (mkPoint 10 9) = Ok aab /\
    runAStar (initializeCityGrid tt) (mkPoint 10 9) (mkPoint 8 8) = Ok aba /\
    length (path ab) = length (path ba) /\
    length (path dab) = length (path dba) /\
    length (path aab) = length (path aba).
Proof.
  apply (shortest_length_symmetric (initializeCityGrid tt) (mkPoint 8 8)
           (mkPoint 10 9) [mkPoint 8 8; mkPoint 9 8; mkPoint 10 8; mkPoint 10 9]).
  - vm_compute. reflexivity.
  - vm_compute. reflexivity.
Defined.

(** ** The snapshot of [runPathfinding] *)

Lemma snapshot_cell grid cars x y :
  cell_at (snapshotGrid grid cars) x y =
    (fun c => mkCell (isWall c) (isRoad c) (isVisited c) (isPath c)
                (carAt cars x y) (carId c)) <$> cell_at grid x y.
Proof.
  unfold cell_at, snapshotGrid.
  destruct ((0 <=? y) && (0 <=? x)) eqn:Hb; [|done].
  apply andb_true_iff in Hb as [Hy Hx]. apply Z.leb_le in Hy, Hx.
  rewrite list_lookup_imap.
  destruct (grid !! Z.to_nat y) as [row|]; [|done]. cbn [fmap option_fmap option_map].
  rewrite list_lookup_imap.
  destruct (row !! Z.to_nat x) as [c|]; [|done]. cbn [fmap option_fmap option_map].
  by rewrite !Z2Nat.id by done.
Qed.

Lemma carAt_spec cars x y :
  carAt cars x y = true <-> exists c, c ∈ cars /\ carCell c = mkPoint x y.
Proof.
  unfold carAt, carCell. rewrite existsb_exists. split.
  - intros (c & Hin & H). apply andb_true_iff in H as [Hx Hy].
    apply Z.eqb_eq in Hx, Hy. exists c. split; [by apply list_elem_of_In|].
    by rewrite Hx, Hy.
  - intros (c & Hin & [= Hx Hy]). exists c. split; [by apply list_elem_of_In|].
    by rewrite Hx, Hy, !Z.eqb_refl.
Qed.

(** X7. In the snapshot [runPathfinding] searches, a cell is traversable
    exactly when the grid holds it, it is not a wall, and no car stands on
    it (no car whose position has that cell as its floor); the [hasCar]
    flags stored in the grid play no part. *)
Theorem snapshot_traversable grid cars p :
  traversable (snapshotGrid grid cars) p = true <->
  (exists c, cell_at grid (pt_x p) (pt_y p) = Some c /\ isWall c = false) /\
  (forall car, car ∈ cars -> carCell car <> p).
Proof.
  unfold traversable. rewrite snapshot_cell.
  destruct (cell_at grid (pt_x p) (pt_y p)) as [c|]; cbn [fmap option_fmap option_map].
  - cbn [isWall hasCar]. rewrite andb_true_iff, !negb_true_iff. split.
    + intros [Hw Hc]. split; [by exists c|]. intros car Hin Heq.
      assert (carAt cars (pt_x p) (pt_y p) = true) as Ht; [|congruence].
      apply carAt_spec. exists car. split; [done|]. by rewrite Heq, point_eta.
    + intros [(c' & [= <-] & Hw) Hno]. split; [done|].
      destruct (carAt cars (pt_x p) (pt_y p)) eqn:E; [|done].
      apply carAt_spec in E as (car & Hin & Heq). rewrite point_eta in Heq.
      by destruct (Hno car Hin).
  - split; [done|]. by intros [(c & ? & _) _].
Qed.

Lemma snapshot_wf grid cars :
  wf_grid grid = true -> wf_grid (snapshotGrid grid cars) = true.
Proof.
  unfold wf_grid, snapshotGrid. rewrite !andb_true_iff, !forallb_forall.
  intros [Hl Hrows]. split; [by rewrite length_imap|].
  intros row Hrow. apply list_elem_of_In, list_elem_of_lookup in Hrow as [i Hi].
  rewrite list_lookup_imap in Hi.
  destruct (grid !! i) as [r|] eqn:Hr; [|done]. injection Hi as <-.
  rewrite length_imap. apply Hrows, list_elem_of_In, list_elem_of_lookup. eauto.
Qed.

(** ** More on clicks *)

Lemma click_cases offsetX offsetY st :
  handleCanvasClick offsetX offsetY st = st \/
  exists p, selectable (st_grid st) p /\
    ((st_startPoint st = None /\
      handleCanvasClick offsetX offsetY st =
        mkAppState (st_grid st) (st_cars st) (Some p) (st_endPoint st)
          (st_currentPath st)) \/
     (st_startPoint st <> None /\ st_endPoint st = None /\
      handleCanvasClick offsetX offsetY st =
        mkAppState (st_grid st) (st_cars st) (st_startPoint st) (Some p)
          (st_currentPath st)) \/
     (st_startPoint st <> None /\ st_endPoint st <> None /\
      handleCanvasClick offsetX offsetY st =
        mkAppState (st_grid st) (st_cars st) (Some p) None [])).
Proof.
  unfold handleCanvasClick. destruct (clickedCell offsetX offsetY) as [x y].
  destruct ((x <? 0) || (x >=? GRID_COLS) || (y <? 0) || (y >=? GRID_ROWS)) eqn:Hb;
    [by left|].
  destruct (cell_at (st_grid st) x y) as [c|] eqn:Hc; [|by left].
  destruct (negb (isWall c) && negb (carAt (st_cars st) x y)) eqn:Hok; [|by left].
  apply andb_true_iff in Hok as [Hw _]. apply negb_true_iff in Hw.
  right. exists (mkPoint x y). split.
  { split; [|by exists c].
    rewrite !orb_false_iff, !Z.geb_leb, !Z.ltb_ge, !Z.leb_gt in Hb.
    apply in_bounds_spec. cbn [pt_x pt_y]. lia. }
  destruct (st_startPoint st) as [s|]; [|by left].
  destruct (st_endPoint st) as [e|]; right; [right|left]; done.
Qed.

(** X8. Whatever the clicks, a selection in order stays in order (selected
    points are cells of the grid that are not walls, no end point without a
    start point), and the grid and the cars are never changed by a click. *)
Theorem clicks_keep_selection l :
  forall st, selectionOk st ->
  selectionOk (clicks l st) /\
  st_grid (clicks l st) = st_grid st /\ st_cars (clicks l st) = st_cars st.
Proof.
  induction l as [|[ox oy] l IH]; intros st Hok; [done|].
  unfold clicks. cbn [foldl fst snd]. fold (clicks l (handleCanvasClick ox oy st)).
  assert (selectionOk (handleCanvasClick ox oy st) /\
          st_grid (handleCanvasClick ox oy st) = st_grid st /\
          st_cars (handleCanvasClick ox oy st) = st_cars st) as (Hok' & Hg & Hc).
  { destruct Hok as (Hs & He & Hn).
    destruct (click_cases ox oy st)
      as [->|(p & Hp & [[Hs0 ->]|[(Hs1 & He0 & ->)|(Hs1 & He1 & ->)]])];
      (split; [|done]); [done|..]; unfold selectionOk;
      cbn [st_startPoint st_endPoint st_grid].
    - split; [by intros ? [= <-]|]. split; [done|]. done.
    - split; [done|]. split; [by intros ? [= <-]|]. done.
    - split; [by intros ? [= <-]|]. split; done. }
  destruct (IH _ Hok') as (H1 & H2 & H3).
  split; [done|]. split; congruence.
Qed.

Lemma clicks_keep_selection_witness :
  selectionOk (clicks [(165 # 1, 70 # 1); (2 # 1, 2 # 1); (-5 # 1, 3 # 1);
                       (800 # 1, 70 # 1); (70 # 1, 36 # 1)]%Q demoState) /\
  st_grid (clicks [(165 # 1, 70 # 1); (2 # 1, 2 # 1); (-5 # 1, 3 # 1);
                   (800 # 1, 70 # 1); (70 # 1, 36 # 1)]%Q demoState) =
    st_grid demoState /\
  st_cars (clicks [(165 # 1, 70 # 1); (2 # 1, 2 # 1); (-5 # 1, 3 # 1);
                   (800 # 1, 70 # 1); (70 # 1, 36 # 1)]%Q demoState) =
    st_cars demoState.
Proof.
  apply clicks_keep_selection. unfold selectionOk, demoState.
  cbn [st_startPoint st_endPoint]. by repeat split.
Defined.

(** ** The road network is connected *)

Lemma traversable_in_bounds g p :
  wf_grid g = true -> traversable g p = true -> in_bounds p = true.
Proof.
  unfold wf_grid, traversable, cell_at. intros Hwf Ht.
  apply andb_true_iff in Hwf as [Hlen Hrows]. apply Z.eqb_eq in Hlen.
  destruct ((0 <=? pt_y p) && (0 <=? pt_x p)) eqn:Hb; [|done].
  apply andb_true_iff in Hb as [Hy Hx]. apply Z.leb_le in Hy, Hx.
  destruct (g !! Z.to_nat (pt_y p)) as [row|] eqn:Hrow; [|done].
  destruct (row !! Z.to_nat (pt_x p)) as [c|] eqn:Hc; [|done].
  pose proof (lookup_lt_Some _ _ _ Hrow) as Hlt1.
  pose proof (lookup_lt_Some _ _ _ Hc) as Hlt2.
  rewrite forallb_forall in Hrows.
  assert (In row g) as Hin.
  { apply list_elem_of_In, list_elem_of_lookup. by exists (Z.to_nat (pt_y p)). }
  apply Hrows, Z.eqb_eq in Hin.
  apply in_bounds_spec. lia.
Qed.

Lemma walk_cons g u v n w :
  v ∈ nbrs g u -> walk g v n w -> walk g u (S n) w.
Proof.
  intros Hv Hw. induction Hw as [|n a b _ IH Hb].
  - eapply walk_S; [constructor|exact Hv].
  - eapply walk_S; [exact IH|exact Hb].
Qed.

Section Connected.

Variable g : Grid.
Hypothesis Hwf : wf_grid g = true.
Hypothesis Hhub : hubStepsOk g = true.

Lemma hub_step p :
  traversable g p = true -> p <> mkPoint 8 8 ->
  towardHub p ∈ nbrs g p /\ p ∈ nbrs g (towardHub p) /\
  heuristic (towardHub p) (mkPoint 8 8) < heuristic p (mkPoint 8 8).
Proof.
  intros Ht Hne. pose proof (traversable_in_bounds g p Hwf Ht) as Hb.
  unfold hubStepsOk in Hhub. rewrite forallb_forall in Hhub.
  specialize (Hhub p). unfold hubStepOk in Hhub.
  rewrite Ht in Hhub. cbn [negb orb] in Hhub.
  rewrite bool_decide_eq_false_2 in Hhub by exact Hne. cbn [orb] in Hhub.
  assert (In p allPoints) as Hin by (by apply list_elem_of_In, elem_of_allPoints).
  apply Hhub in Hin. rewrite !andb_true_iff in Hin.
  destruct Hin as [[[Hqb Hqt] Hadj] Hlt]. apply Z.ltb_lt in Hlt.
  split; [|split; [|exact Hlt]].
  - apply elem_of_nbrs. split; [by apply elem_of_candidates|done].
  - apply elem_of_nbrs. split; [|done].
    apply elem_of_candidates. by rewrite adjacent_sym.
Qed.

Lemma hub_walks k :
  forall p, traversable g p = true ->
  heuristic p (mkPoint 8 8) <= Z.of_nat k ->
  exists n, walk g (mkPoint 8 8) n p /\ walk g p n (mkPoint 8 8).
Proof.
  induction k as [|k IH]; intros p Ht Hk.
  - assert (p = mkPoint 8 8) as ->.
    { unfold heuristic in Hk. cbn [pt_x pt_y] in Hk.
      destruct p as [x y]. cbn [pt_x pt_y] in Hk. f_equal; lia. }
    exists O. split; constructor.
  - destruct (decide (p = mkPoint 8 8)) as [->|Hne].
    { exists O. split; constructor. }
    destruct (hub_step p Ht Hne) as (Hq & Hp & Hlt).
    destruct (IH (towardHub p)) as (n & Hfrom & Hto).
    + by apply elem_of_nbrs in Hq as (_ & _ & ?).
    + lia.
    + exists (S n). split; [by eapply walk_S|by eapply walk_cons].
Qed.

Lemma hub_connected a b :
  traversable g a = true -> traversable g b = true ->
  exists route, is_route g a b route = true.
Proof.
  intros Ha Hb.
  destruct (hub_walks (Z.to_nat (heuristic a (mkPoint 8 8))) a Ha) as (n & _ & Hah).
  { unfold heuristic. lia. }
  destruct (hub_walks (Z.to_nat (heuristic b (mkPoint 8 8))) b Hb) as (m & Hhb & _).
  { unfold heuristic. lia. }
  pose proof (walk_trans g _ _ _ _ _ Hah Hhb) as Hw.
  apply walk_pathTo in Hw as (l & Hp & _).
  exists l. apply pathTo_route; [|done..].
  by apply (traversable_in_bounds g).
Qed.

End Connected.

Lemma cityGrid_hubSteps : hubStepsOk (initializeCityGrid tt) = true.
Proof. vm_compute. reflexivity. Qed.

(** X9. Any two cells of the city grid that are not walls are joined by a
    route along such cells. So, while no car is in the way, each of the
    four searches returns a route between any two points that can be
    selected: [runBFS], [runDijkstra] and [runAStar] one of the same
    length, which no route between the two points goes below, and
    [runDFS] one that is at least as long. *)
Theorem cityGrid_connected a b :
  traversable (initializeCityGrid tt) a = true ->
  traversable (initializeCityGrid tt) b = true ->
  exists bfs dijkstra astar dfs,
    runBFS (initializeCityGrid tt) a b = Ok bfs /\
    runDijkstra (initializeCityGrid tt) a b = Ok dijkstra /\
    runAStar (initializeCityGrid tt) a b = Ok astar /\
    runDFS (initializeCityGrid tt) a b = Ok dfs /\
    is_route (initializeCityGrid tt) a b (path bfs) = true /\
    is_route (initializeCityGrid tt) a b (path dijkstra) = true /\
    is_route (initializeCityGrid tt) a b (path astar) = true /\
    is_route (initializeCityGrid tt) a b (path dfs) = true /\
    length (path bfs) = length (path dijkstra) /\
    length (path bfs) = length (path astar) /\
    (forall r, is_route (initializeCityGrid tt) a b r = true ->
               (length (path bfs) <= length r)%nat) /\
    (length (path bfs) <= length (path dfs))%nat.
Proof.
  generalize cityGrid_wf cityGrid_hubSteps.
  generalize (initializeCityGrid tt). intros g Hwf Hhub Ha Hb.
  destruct (hub_connected g Hwf Hhub a b Ha Hb) as (route & Hroute).
  destruct (route_start _ _ _ _ Hroute) as [Hab Hta].
  destruct (runBFS_shortest g a b Hwf Hab) as (bfs & Hbfs & Sb).
  destruct (runDijkstra_shortest g a b Hwf Hab) as (dij & Hdij & Sd).
  destruct (runAStar_shortest g a b Hwf Hab) as (ast & Hast & Sa).
  destruct (runDFS_found g a b Hwf Hab) as (dfs & Hdfs & Sf).
  destruct (shortest_with_route _ _ _ _ _ Hroute Sb) as (Rb & db & Db & Lb).
  destruct (shortest_with_route _ _ _ _ _ Hroute Sd) as (Rd & dd & Dd & Ld).
  destruct (shortest_with_route _ _ _ _ _ Hroute Sa) as (Ra & da & Da & La).
  assert (dd = db) as -> by (by eapply isDist_unique).
  assert (da = db) as -> by (by eapply isDist_unique).
  assert (pathTo g a b (path dfs)) as Pf.
  { destruct Sf as [_ [[_ Hno]|Hp]]; [|exact Hp].
    exfalso. by eapply Hno, route_walk. }
  exists bfs, dij, ast, dfs.
  do 4 (split; [assumption|]). split; [exact Rb|]. split; [exact Rd|].
  split; [exact Ra|]. split; [by apply pathTo_route|].
  split; [lia|]. split; [lia|]. split.
  - intros r Hr. by eapply shortest_is_least.
  - apply pathTo_walk in Pf as (n & Hl & Hw).
    destruct Db as [_ Hmin]. specialize (Hmin _ Hw). lia.
Qed.

Lemma cityGrid_connected_witness :
  exists bfs dijkstra astar dfs,
    runBFS (initializeCityGrid tt) (mkPoint 4 55) (mkPoint 105 3) = Ok bfs /\
    runDijkstra (initializeCityGrid tt) (mkPoint 4 55) (mkPoint 105 3) = Ok dijkstra /\
    runAStar (initializeCityGrid tt) (mkPoint 4 55) (mkPoint 105 3) = Ok astar /\
    runDFS (initializeCityGrid tt) (mkPoint 4 55) (mkPoint 105 3) = Ok dfs /\
    is_route (initializeCityGrid tt) (mkPoint 4 55) (mkPoint 105 3) (path bfs) = true /\
    is_route (initializeCityGrid tt) (mkPoint 4 55) (mkPoint 105 3) (path dijkstra) = true /\
    is_route (initializeCityGrid tt) (mkPoint 4 55) (mkPoint 105 3) (path astar) = true /\
    is_route (initializeCityGrid tt) (mkPoint 4 55) (mkPoint 105 3) (path dfs) = true /\
    length (path bfs) = length (path dijkstra) /\
    length (path bfs) = length (path astar) /\
    (forall r, is_route (initializeCityGrid tt) (mkPoint 4 55) (mkPoint 105 3) r = true ->
               (length (path bfs) <= length r)%nat) /\
    (length (path bfs) <= length (path dfs))%nat.
Proof.
  apply cityGrid_connected.
  - vm_compute. reflexivity.
  - vm_compute. reflexivity.
Defined.

(** ** Spawning the cars *)

Lemma for_loop_foldl {S : Type} (body : Z -> S -> S) bound fuel :
  forall i s, (Z.to_nat (bound - i) <= fuel)%nat ->
  for_loop fuel i bound 1 body s =
    foldl (fun s i => body i s) s (seqZ i (bound - i)).
Proof.
  induction fuel as [|fuel IH]; intros i s Hf.
  - cbn [for_loop]. replace (seqZ i (bound - i)) with (@nil Z); [done|].
    symmetry. apply seqZ_nil. lia.
  - cbn [for_loop]. destruct (i <? bound) eqn:Hlt.
    + apply Z.ltb_lt in Hlt. rewrite IH by lia.
      rewrite (seqZ_cons i (bound - i)) by lia. cbn [foldl].
      do 2 f_equal; lia.
    + apply Z.ltb_ge in Hlt. rewrite seqZ_nil by lia. done.
Qed.

Lemma for_foldl {S : Type} (body : Z -> S -> S) from bound s :
  for_ from bound 1 body s =
    foldl (fun s i => body i s) s (seqZ from (bound - from)).
Proof. unfold for_. by apply for_loop_foldl. Qed.

Lemma roadRow_fold g y xs cells :
  (forall x, x ∈ xs -> cell_at g x y <> None) ->
  foldl (fun (acc : result (list Point)) x =>
           roadCells <- acc ;;
           match cell_at g x y with
           | Some c => Ok (if isRoad c then roadCells ++ [mkPoint x y] else roadCells)
           | None => TypeError
           end) (Ok cells) xs =
  Ok (cells ++ List.filter (fun p => match cell_at g (pt_x p) (pt_y p) with
                                     | Some c => isRoad c
                                     | None => false
                                     end) ((fun x => mkPoint x y) <$> xs)).
Proof.
  revert cells. induction xs as [|x xs IH]; intros cells Hall.
  { cbn. by rewrite app_nil_r. }
  cbn [foldl bind fmap list_fmap List.filter pt_x pt_y].
  assert (cell_at g x y <> None) as Hx by (apply Hall; by left).
  destruct (cell_at g x y) as [c|]; [|done].
  rewrite IH by (intros x' Hx'; apply Hall; by right).
  destruct (isRoad c); [|done]. by rewrite <- app_assoc.
Qed.

Lemma roadCellsOf_spec g :
  wf_grid g = true -> roadCellsOf g = Ok (roadPoints g).
Proof.
  intros Hwf. unfold roadCellsOf, roadPoints, allPoints.
  rewrite for_foldl. rewrite Z.sub_0_r.
  assert (forall ys cells, (forall y, y ∈ ys -> 0 <= y < GRID_ROWS) ->
    foldl (fun (s : result (list Point)) y =>
             for_ 0 GRID_COLS 1 (fun x acc =>
               roadCells <- acc ;;
               match cell_at g x y with
               | Some c => Ok (if isRoad c then roadCells ++ [mkPoint x y] else roadCells)
               | None => TypeError
               end) s) (Ok cells) ys =
    Ok (cells ++ List.filter (fun p => match cell_at g (pt_x p) (pt_y p) with
                                       | Some c => isRoad c
                                       | None => false
                                       end)
                   (y ← ys; (fun x => mkPoint x y) <$> seqZ 0 GRID_COLS))) as H.
  { induction ys as [|y ys IH]; intros cells Hys.
    { cbn. by rewrite app_nil_r. }
    cbn [foldl]. rewrite for_foldl, Z.sub_0_r, roadRow_fold.
    - rewrite IH by (intros y' Hy'; apply Hys; by right).
      rewrite bind_cons, List.filter_app. by rewrite <- app_assoc.
    - intros x Hx % elem_of_seqZ.
      destruct (wf_grid_cell g x y Hwf) as [c Hc]; [lia|apply Hys; by left|].
      by rewrite Hc. }
  rewrite H; [done|]. intros y Hy % elem_of_seqZ. lia.
Qed.

Lemma roadPoints_spec g p :
  p ∈ roadPoints g <->
  in_bounds p = true /\ exists c, cell_at g (pt_x p) (pt_y p) = Some c /\ isRoad c = true.
Proof.
  unfold roadPoints. rewrite list_elem_of_In, filter_In, <- list_elem_of_In.
  rewrite elem_of_allPoints. split.
  - intros [Hb Hc]. split; [done|].
    destruct (cell_at g (pt_x p) (pt_y p)) as [c|]; [by exists c|done].
  - intros [Hb (c & -> & Hc)]. done.
Qed.

Lemma lookupIndex_random {A} (l : list A) r :
  l <> [] -> (0 <= r)%Q -> (r < 1)%Q ->
  exists a, lookupIndex l (Qfloor (r * inject_Z (Z.of_nat (length l)))) = Some a /\ a ∈ l.
Proof.
  intros Hl H0 H1.
  pose proof (Qfloor_scaled_range r (Z.of_nat (length l))) as Hr.
  destruct l as [|a0 l0]; [done|].
  specialize (Hr ltac:(cbn [length]; lia) H0 H1).
  unfold lookupIndex. set (i := Qfloor _) in *.
  replace (0 <=? i) with true by (symmetry; apply Z.leb_le; lia).
  destruct (lookup_lt_is_Some_2 (a0 :: l0) (Z.to_nat i)) as [a Ha]; [lia|].
  exists a. split; [done|]. apply list_elem_of_lookup. eauto.
Qed.

Lemma lookupIndex_nil {A} i : lookupIndex (@nil A) i = None.
Proof. unfold lookupIndex. by destruct (0 <=? i). Qed.

(** The draw of a road cell ends within the ten attempts. *)
Lemma pickRoad_spec roadCells occupied fuel :
  roadCells <> [] ->
  forall attempts rng,
  rngOk rng -> 0 <= attempts -> (10 - attempts <= Z.of_nat fuel) ->
  (attempts < 10) ->
  exists road attempts' rng',
    pickRoad fuel roadCells occupied attempts rng = Ok (road, attempts', rng') /\
    road ∈ roadCells /\ attempts < attempts' <= 10 /\
    (attempts' < 10 -> road ∉ occupied) /\
    rngSuffix rng rng' /\ rngOk rng'.
Proof.
  intros Hne. induction fuel as [|fuel IH]; intros attempts rng Hr Ha Hf Hlt; [lia|].
  cbn [pickRoad random].
  destruct (lookupIndex_random roadCells (rng O) Hne) as (road & Hroad & Hin);
    [apply Hr..|].
  rewrite Hroad.
  assert (rngSuffix rng (fun n => rng (S n))) as Hsuf by (by exists 1%nat).
  destruct (bool_decide (road ∈ occupied) && (attempts + 1 <? 10)) eqn:Hloop.
  - apply andb_true_iff in Hloop as [_ Hlt']. apply Z.ltb_lt in Hlt'.
    destruct (IH (attempts + 1) (fun n => rng (S n)))
      as (road' & a' & rng' & Heq & Hin' & Hrange & Hfree & Hsuf' & Hok');
      [by eapply rngOk_suffix|lia|lia|lia|].
    exists road', a', rng'. split; [done|]. split; [done|]. split; [lia|].
    split; [done|]. split; [by eapply rngSuffix_trans|done].
  - exists road, (attempts + 1), (fun n => rng (S n)).
    split; [done|]. split; [done|]. split; [lia|].
    split; [|split; [done|by eapply rngOk_suffix]].
    intros Hlt' Hocc. apply andb_false_iff in Hloop as [Hd|Hd].
    + by apply bool_decide_eq_false in Hd.
    + apply Z.ltb_ge in Hd. lia.
Qed.

Lemma speed_range r :
  (0 <= r)%Q -> (r < 1)%Q ->
  ((2 # 10) <= fadd (roundDouble (2 # 10)) (fmul r (roundDouble (5 # 10))))%Q /\
  (fadd (roundDouble (2 # 10)) (fmul r (roundDouble (5 # 10))) < (7 # 10))%Q.
Proof.
  intros H0 H1. unfold fadd, fmul.
  change (roundDouble (5 # 10)) with (1 # 2)%Q.
  set (p := roundDouble (r * (1 # 2))).
  assert (0 <= p)%Q as Hp0 by (apply roundDouble_nonneg; lra).
  assert (p <= 1 # 2)%Q as Hp1.
  { apply Qle_trans with (roundDouble (1 # 2)); [|by vm_compute].
    apply roundDouble_mono. lra. }
  split.
  - apply Qle_trans with (roundDouble (roundDouble (2 # 10))); [by vm_compute|].
    apply roundDouble_mono. lra.
  - apply Qle_lt_trans with (roundDouble (roundDouble (2 # 10) + (1 # 2))); [|by vm_compute].
    apply roundDouble_mono. lra.
Qed.

Lemma color_in_palette i :
  0 <= i ->
  nth (Z.to_nat (i mod Z.of_nat (length CAR_COLORS))) CAR_COLORS ""%string ∈ CAR_COLORS.
Proof.
  intros Hi. apply list_elem_of_In, nth_In.
  change (length CAR_COLORS) with 15%nat.
  pose proof (Z.mod_pos_bound i (Z.of_nat 15) ltac:(lia)). lia.
Qed.

Lemma spawnedCar_mono roadCells i j c :
  i <= j -> spawnedCar roadCells i c -> spawnedCar roadCells j c.
Proof.
  unfold spawnedCar. intros Hij H. repeat split; try tauto; lia.
Qed.

Lemma carCell_integer x y i d sp col st :
  carCell (mkCar i (inject_Z x) (inject_Z y) d sp col st) = mkPoint x y.
Proof. unfold carCell. cbn [car_x car_y]. by rewrite !Qfloor_Z. Qed.

(** One round of the spawning loop keeps the invariant. *)
Lemma spawnCar_inv roadCells rng i s :
  roadCells <> [] -> rngOk rng -> 0 <= i ->
  spawnInv roadCells rng i s ->
  exists s', spawnCar roadCells i s = Ok s' /\ spawnInv roadCells rng (i + 1) s'.
Proof.
  intros Hne Hok Hi. destruct s as [[cars occ] r]. unfold spawnInv. cbn [fst snd].
  intros (Hsuf & Hocc & Hnd & Hids & Hlen & Hall).
  assert (rngOk r) as Hr by (by eapply rngOk_suffix).
  destruct (pickRoad_spec roadCells occ 10 Hne 0 r Hr)
    as (road & att & r' & Hpick & Hin & Hatt & Hfree & Hsuf' & Hok'); [lia..|].
  unfold spawnCar. rewrite Hpick. cbn [bind].
  assert (Forall (spawnedCar roadCells (i + 1)) cars) as Hall'.
  { eapply Forall_impl; [exact Hall|]. intros c. apply spawnedCar_mono. lia. }
  destruct (att >=? 10) eqn:Hge.
  - eexists. split; [reflexivity|]. cbn [fst snd].
    split; [by eapply rngSuffix_trans|]. repeat split; try done; try apply Hocc; lia.
  - assert (att < 10) as Hlt by (rewrite Z.geb_leb in Hge; apply Z.leb_gt in Hge; lia).
    specialize (Hfree Hlt). cbn [random].
    eexists. split; [reflexivity|]. cbn [fst snd].
    split.
    { eapply rngSuffix_trans; [exact Hsuf|]. eapply rngSuffix_trans; [exact Hsuf'|].
      exists 2%nat. done. }
    rewrite !map_app. cbn [map]. rewrite carCell_integer. cbn [car_id].
    replace (mkPoint (pt_x road) (pt_y road)) with road by (by destruct road).
    split.
    { intros p. rewrite elem_of_union, elem_of_singleton, elem_of_app,
        list_elem_of_singleton, Hocc. tauto. }
    split.
    { apply NoDup_app. split; [exact Hnd|]. split; [|apply NoDup_singleton].
      intros p Hp ->%list_elem_of_singleton. by apply Hfree, Hocc. }
    split.
    { apply NoDup_app. split; [exact Hids|]. split; [|apply NoDup_singleton].
      intros k Hk ->%list_elem_of_singleton.
      apply list_elem_of_In, in_map_iff in Hk as (c & Hc & Hcin).
      apply list_elem_of_In in Hcin.
      rewrite Forall_forall in Hall. specialize (Hall c Hcin).
      unfold spawnedCar in Hall. lia. }
    split; [rewrite length_app; cbn [length]; lia|].
    apply Forall_app. split; [exact Hall'|]. apply Forall_singleton.
    unfold spawnedCar. rewrite carCell_integer.
    cbn [car_x car_y car_direction car_speed car_stuckTime car_id car_color pt_x pt_y].
    replace (mkPoint (pt_x road) (pt_y road)) with road by (by destruct road).
    destruct (Hok' O) as [Ha0 Ha1]. destruct (Hok' 1%nat) as [Hb0 Hb1].
    destruct (speed_range (r' 1%nat) Hb0 Hb1) as [Hs0 Hs1].
    pose proof (roundDouble_idem (roundDouble (2 # 10) +
                                  fmul (r' 1%nat) (roundDouble (5 # 10)))) as Hnum.
    fold (fadd (roundDouble (2 # 10)) (fmul (r' 1%nat) (roundDouble (5 # 10)))) in Hnum.
    remember (fadd (roundDouble (2 # 10)) (fmul (r' 1%nat) (roundDouble (5 # 10))))
      as speed eqn:Hspeed. clear Hspeed.
    pose proof (Qfloor_scaled_range (r' O) 4 ltac:(lia) Ha0 Ha1) as Hd.
    change (inject_Z 4) with 4%Q in Hd.
    repeat split; try done; try lia. by apply color_in_palette.
Qed.

Lemma spawnLoop_inv roadCells rng :
  roadCells <> [] -> rngOk rng ->
  forall k i s, 0 <= i -> 0 <= k ->
  spawnInv roadCells rng i s ->
  exists s',
    foldl (fun acc i => s <- acc ;; spawnCar roadCells i s) (Ok s) (seqZ i k) = Ok s' /\
    spawnInv roadCells rng (i + k) s'.
Proof.
  intros Hne Hok k i s Hi Hk. revert i s Hi.
  pattern k. apply natlike_ind; [| |exact Hk]; clear k Hk.
  - intros i s Hi Hinv. exists s. rewrite seqZ_nil by lia. split; [done|].
    by rewrite Z.add_0_r.
  - intros k Hk IH i s Hi Hinv. rewrite seqZ_cons by lia. cbn [foldl bind].
    destruct (spawnCar_inv roadCells rng i s Hne Hok Hi Hinv) as (s1 & -> & Hinv1).
    destruct (IH (i + 1) s1 ltac:(lia) Hinv1) as (s' & Heq & Hinv').
    exists s'. replace (Z.succ i) with (i + 1) by lia.
    replace (Z.pred (Z.succ k)) with k by lia. split; [exact Heq|].
    by replace (i + Z.succ k) with (i + 1 + k) by lia.
Qed.

(** What [generateCars] returns on a rectangular grid with a road cell. *)
Lemma generateCars_inv g rng :
  wf_grid g = true -> roadPoints g <> [] -> rngOk rng ->
  exists cars rng' numCars,
    generateCars g rng = Ok (cars, rng') /\
    50 <= numCars <= 75 /\
    spawnInv (roadPoints g) rng numCars (cars, list_to_set (map carCell cars), rng').
Proof.
  intros Hwf Hne Hok. unfold generateCars. rewrite roadCellsOf_spec by exact Hwf.
  cbn [bind random]. rewrite for_foldl, Z.sub_0_r.
  destruct (Hok O) as [H0 H1].
  pose proof (Qfloor_scaled_range (rng O) 26 ltac:(lia) H0 H1) as Hn.
  change (inject_Z 26) with 26%Q in Hn.
  set (numCars := 50 + Qfloor (rng O * 26)).
  set (rng1 := fun n => rng (S n)).
  assert (rngSuffix rng rng1) as Hsuf1 by (by exists 1%nat).
  assert (rngOk rng1) as Hok1 by (by eapply rngOk_suffix).
  destruct (spawnLoop_inv (roadPoints g) rng1 Hne Hok1 numCars 0 ([], ∅, rng1))
    as ([[cars occ] rng'] & Heq & Hinv); [lia|lia| |].
  { unfold spawnInv. cbn [fst snd map length]. split; [apply rngSuffix_refl|].
    split; [intros p; rewrite elem_of_empty, elem_of_nil; tauto|].
    repeat split; try apply NoDup_nil_2; try lia. apply Forall_nil_2. }
  match goal with
  | |- context [foldl ?f ?a ?l] =>
      replace (foldl f a l) with (Ok (A:=list Car * gset Point * Rng) (cars, occ, rng'))
        by (symmetry; exact Heq)
  end.
  cbn [bind fst snd]. exists cars, rng', numCars. split; [done|]. split; [lia|].
  rewrite Z.add_0_l in Hinv. unfold spawnInv in *. cbn [fst snd] in *.
  destruct Hinv as (Hs & Hocc & Hrest). split; [by eapply rngSuffix_trans|].
  split; [|exact Hrest]. intros p. by rewrite elem_of_list_to_set.
Qed.

Lemma foldl_TypeError {S : Type} (f : Z -> S -> result S) l :
  foldl (fun acc i => s <- acc ;; f i s) TypeError l = TypeError.
Proof. induction l as [|i l IH]; [done|]. cbn [foldl bind]. exact IH. Qed.

Lemma pickRoad_nil n occ a rng : pickRoad (S n) [] occ a rng = TypeError.
Proof.
  cbn [pickRoad random length]. unfold lookupIndex.
  by destruct (0 <=? Qfloor (rng O * inject_Z (Z.of_nat 0))).
Qed.

Lemma spawnCar_nil i s : spawnCar [] i s = TypeError.
Proof. destruct s as [[cars occ] rng]. unfold spawnCar. by rewrite pickRoad_nil. Qed.

Lemma rngOk_cycleRng : rngOk cycleRng.
Proof.
  intros n. unfold cycleRng.
  pose proof (Nat.mod_upper_bound n 4 ltac:(lia)) as Hm.
  destruct (n mod 4)%nat as [|[|[|[|k]]]]; [..|lia];
    cbn [nth]; unfold Qle, Qlt; cbn; lia.
Qed.

Lemma roadPoints_has_road g p :
  p ∈ roadPoints g -> roadPoints g <> [].
Proof. intros Hp Hnil. rewrite Hnil in Hp. by apply elem_of_nil in Hp. Qed.

Lemma cellsOk_has_road g : cellsOk g = true -> roadPoints g <> [].
Proof.
  intros Hok. apply (roadPoints_has_road g (mkPoint 8 8)).
  apply roadPoints_spec. split; [reflexivity|].
  cbn [pt_x pt_y]. rewrite (cellsOk_cell g 8 8 Hok) by (unfold GRID_COLS, GRID_ROWS; lia).
  eexists. split; [reflexivity|]. reflexivity.
Qed.

Lemma cityGrid_has_road : roadPoints (initializeCityGrid tt) <> [].
Proof. exact (cellsOk_has_road _ cityGrid_cells). Qed.

Lemma wallGrid_no_road : roadPoints wallGrid = [].
Proof. vm_compute. reflexivity. Qed.

Lemma wallGrid_wf : wf_grid wallGrid = true.
Proof. vm_compute. reflexivity. Qed.

(** X10. [generateCars] on a grid of 60 rows of 120 cells with a road cell,
    with random values in [0, 1): it returns at most 75 cars, no two on
    the same cell and no two with the same [id]; each car stands on a road
    cell with whole coordinates, has a direction from 0 to 3, a speed in
    [0.2, 0.7) that is a binary64 value, [stuckTime] 0, an [id] from 0 to
    74 and a colour of the palette. *)
Theorem generateCars_spawns g rng :
  wf_grid g = true -> roadPoints g <> [] -> rngOk rng ->
  exists cars rng',
    generateCars g rng = Ok (cars, rng') /\
    rngSuffix rng rng' /\
    (length cars <= 75)%nat /\
    NoDup (map carCell cars) /\
    NoDup (map car_id cars) /\
    Forall (spawnedCar (roadPoints g) 75) cars.
Proof.
  intros Hwf Hne Hok.
  destruct (generateCars_inv g rng Hwf Hne Hok)
    as (cars & rng' & numCars & Heq & Hn & Hinv).
  unfold spawnInv in Hinv. cbn [fst snd] in Hinv.
  destruct Hinv as (Hsuf & _ & Hnd & Hids & Hlen & Hall).
  exists cars, rng'. split; [exact Heq|]. split; [exact Hsuf|].
  split; [lia|]. split; [exact Hnd|]. split; [exact Hids|].
  eapply Forall_impl; [exact Hall|]. intros c. apply spawnedCar_mono. lia.
Qed.

Lemma generateCars_spawns_witness :
  exists cars rng',
    generateCars (initializeCityGrid tt) cycleRng = Ok (cars, rng') /\
    rngSuffix cycleRng rng' /\
    (length cars <= 75)%nat /\
    NoDup (map carCell cars) /\
    NoDup (map car_id cars) /\
    Forall (spawnedCar (roadPoints (initializeCityGrid tt)) 75) cars.
Proof.
  apply generateCars_spawns.
  - vm_compute. reflexivity.
  - exact cityGrid_has_road.
  - exact rngOk_cycleRng.
Defined.

(** X11. [generateCars] on a grid of 60 rows of 120 cells without a road cell
    throws: [roadCells] is empty, so the first draw gives [undefined] and
    reading its [x] fails. *)
Theorem generateCars_no_road g rng :
  wf_grid g = true -> roadPoints g = [] -> rngOk rng ->
  generateCars g rng = TypeError.
Proof.
  intros Hwf Hnil Hok. unfold generateCars.
  rewrite roadCellsOf_spec by exact Hwf. rewrite Hnil.
  cbn [bind random]. rewrite for_foldl, Z.sub_0_r.
  destruct (Hok O) as [H0 H1].
  pose proof (Qfloor_scaled_range (rng O) 26 ltac:(lia) H0 H1) as Hn.
  change (inject_Z 26) with 26%Q in Hn.
  rewrite seqZ_cons by lia. cbn [foldl bind].
  rewrite spawnCar_nil.
  match goal with
  | |- context [foldl ?f TypeError ?l] =>
      replace (foldl f TypeError l) with (@TypeError (list Car * gset Point * Rng))
  end; [done|].
  symmetry. apply (foldl_TypeError (fun i s => spawnCar [] i s)).
Qed.

Lemma generateCars_no_road_witness : generateCars wallGrid cycleRng = TypeError.
Proof.
  apply generateCars_no_road.
  - vm_compute. reflexivity.
  - vm_compute. reflexivity.
  - exact rngOk_cycleRng.
Defined.

Lemma spawned_carOk g i c :
  cellsOk g = true -> spawnedCar (roadPoints g) i c -> carOk g c = true.
Proof.
  intros Hok (Hin & _ & _ & Hd & _ & _ & Hst & _).
  apply roadPoints_spec in Hin as (Hb & cell & Hc & Hroad).
  unfold carOk, validDirection, onRoad. rewrite Hb, Hc, Hst.
  pose proof Hb as Hb'. apply in_bounds_spec in Hb'.
  rewrite (cellsOk_cell g _ _ Hok) in Hc by lia.
  injection Hc as <-. cbn [isRoad] in Hroad. cbn [isWall]. rewrite Hroad.
  replace (0 <=? car_direction c) with true by (symmetry; apply Z.leb_le; lia).
  replace (car_direction c <? 4) with true by (symmetry; apply Z.ltb_lt; lia).
  reflexivity.
Qed.

Lemma spawned_carNumbers g i c :
  spawnedCar (roadPoints g) i c -> carNumbers c = true.
Proof.
  intros (Hin & Hx & Hy & _ & _ & _ & _ & _ & _ & Hs).
  apply roadPoints_spec in Hin as (Hb & _). apply in_bounds_spec in Hb.
  unfold GRID_COLS, GRID_ROWS in Hb.
  unfold carNumbers. rewrite Hx, Hy, Hs, !isDouble_Z; [done|lia..].
Qed.

(** X12. [resetSimulation] with random values in [0, 1) does not throw. It
    leaves the city grid, no selection, no path, zeroed statistics and the
    simulation stopped, keeps the algorithm, and its cars (at most 75, on
    distinct cells) are all in order; any number of frames of the
    animation loop run from there without a throw, and keep the cars in
    order. The first effect of the component gives the state of a reset
    of the state the component is created with. *)
Theorem resetSimulation_then_ticks s rng :
  rngOk rng ->
  initialState rng = resetSimulation mountState rng /\
  exists cars rng',
    resetSimulation s rng =
      Ok (mkSimState (mkAppState (initializeCityGrid tt) cars None None [])
            (ss_algorithm s) false (ss_isPathfinding s) (ss_visitedNodes s)
            (mkStats 0 0 0 0), rng') /\
    (length cars <= 75)%nat /\
    NoDup (map carCell cars) /\
    forallb (carOk (initializeCityGrid tt)) cars = true /\
    forall n, exists st' rng'',
      ticks n (mkAppState (initializeCityGrid tt) cars None None []) rng' =
        Ok (st', rng'') /\
      forallb (carOk (initializeCityGrid tt)) (st_cars st') = true /\
      map car_id (st_cars st') = map car_id cars.
Proof.
  intros Hok. split.
  { unfold initialState, resetSimulation. cbv zeta.
    generalize (initializeCityGrid tt). intros g. reflexivity. }
  unfold resetSimulation.
  generalize cityGrid_wf cityGrid_cells. generalize (initializeCityGrid tt) as g.
  intros g Hwf Hcells.
  destruct (generateCars_inv g rng Hwf (cellsOk_has_road g Hcells) Hok)
    as (cars & rng' & numCars & Heq & Hn & Hinv).
  unfold spawnInv in Hinv. cbn [fst snd] in Hinv.
  destruct Hinv as (Hsuf & _ & Hnd & _ & Hlen & Hall).
  rewrite Heq. cbn [bind fst snd]. exists cars, rng'. split; [reflexivity|].
  split; [lia|]. split; [exact Hnd|].
  assert (forallb (carOk g) cars = true) as Hcars.
  { apply forallb_forall. intros c Hc. apply list_elem_of_In in Hc.
    rewrite Forall_forall in Hall. eapply spawned_carOk; [exact Hcells|]. by apply Hall. }
  split; [exact Hcars|]. intros n.
  destruct (ticks_carOk n (mkAppState g cars None None []) rng')
    as (st' & rng'' & Ht & Hok' & Hids & Hg & _); [exact Hwf| |exact Hcars|].
  { by eapply rngOk_suffix. }
  exists st', rng''. split; [exact Ht|]. cbn [st_grid st_cars] in *.
  rewrite Hg in Hok'. by split.
Qed.

Lemma resetSimulation_then_ticks_witness :
  initialState cycleRng = resetSimulation mountState cycleRng /\
  exists cars rng',
    resetSimulation (mkSimState demoState "bfs" true false ∅ (mkStats 5 7 0 3)) cycleRng =
      Ok (mkSimState (mkAppState (initializeCityGrid tt) cars None None [])
            "bfs" false false ∅ (mkStats 0 0 0 0), rng') /\
    (length cars <= 75)%nat /\
    NoDup (map carCell cars) /\
    forallb (carOk (initializeCityGrid tt)) cars = true /\
    forall n, exists st' rng'',
      ticks n (mkAppState (initializeCityGrid tt) cars None None []) rng' =
        Ok (st', rng'') /\
      forallb (carOk (initializeCityGrid tt)) (st_cars st') = true /\
      map car_id (st_cars st') = map car_id cars.
Proof.
  apply (resetSimulation_then_ticks
           (mkSimState demoState "bfs" true false ∅ (mkStats 5 7 0 3)) cycleRng).
  exact rngOk_cycleRng.
Defined.

(** ** Path finding from the state *)

Lemma runAlgorithm_known algorithm g a b :
  wf_grid g = true -> in_bounds a = true ->
  algorithm ∈ ["astar"; "bfs"; "dfs"; "dijkstra"]%string ->
  exists r, runAlgorithm algorithm g a b = Ok (Some r) /\
    foundOrNone g a b r /\
    (algorithm <> "dfs"%string -> shortestOrNone g a b r).
Proof.
  intros Hwf Hb Hin.
  repeat (apply elem_of_cons in Hin as [->|Hin]); [..|by apply elem_of_nil in Hin].
  - destruct (runAStar_shortest g a b Hwf Hb) as (r & Hr & Hs).
    exists r. unfold runAlgorithm. cbn [String.eqb Ascii.eqb Bool.eqb].
    rewrite Hr. split; [done|]. split; [by apply shortestOrNone_found|done].
  - destruct (runBFS_shortest g a b Hwf Hb) as (r & Hr & Hs).
    exists r. unfold runAlgorithm. cbn [String.eqb Ascii.eqb Bool.eqb].
    rewrite Hr. split; [done|]. split; [by apply shortestOrNone_found|done].
  - destruct (runDFS_found g a b Hwf Hb) as (r & Hr & Hs).
    exists r. unfold runAlgorithm. cbn [String.eqb Ascii.eqb Bool.eqb].
    rewrite Hr. split; [done|]. split; [done|]. intros Hne. by destruct Hne.
  - destruct (runDijkstra_shortest g a b Hwf Hb) as (r & Hr & Hs).
    exists r. unfold runAlgorithm. cbn [String.eqb Ascii.eqb Bool.eqb].
    rewrite Hr. split; [done|]. split; [by apply shortestOrNone_found|done].
Qed.

Lemma runAlgorithm_unknown algorithm g a b :
  algorithm ∉ ["astar"; "bfs"; "dfs"; "dijkstra"]%string ->
  runAlgorithm algorithm g a b = Ok None.
Proof.
  intros Hnot. unfold runAlgorithm.
  destruct (String.eqb_spec algorithm "astar") as [->|_].
  { exfalso. apply Hnot. by left. }
  destruct (String.eqb_spec algorithm "bfs") as [->|_].
  { exfalso. apply Hnot. right. by left. }
  destruct (String.eqb_spec algorithm "dfs") as [->|_].
  { exfalso. apply Hnot. do 2 right. by left. }
  destruct (String.eqb_spec algorithm "dijkstra") as [->|_].
  { exfalso. apply Hnot. do 3 right. by left. }
  reflexivity.
Qed.

(** X13. [runPathfinding], run to its end with nothing in between, from a state
    with a grid of 60 rows of 120 cells, both points selected, the start
    within the bounds, no search under way and one of the four algorithms:
    it does not throw; the grid, the cars and the two points are left as
    they were; the new path is empty when the end cannot be reached in
    the snapshot of the grid with the cars, and else lists the cells of a
    walk from the start to the end in that snapshot, a shortest one for
    every algorithm but DFS; [pathLength] is its length, [nodesExplored]
    the count of the search, and [recalculations] goes up by one. *)
Theorem runPathfinding_result startTime endTime s a b :
  wf_grid (st_grid (ss_app s)) = true ->
  st_startPoint (ss_app s) = Some a ->
  st_endPoint (ss_app s) = Some b ->
  in_bounds a = true ->
  ss_isPathfinding s = false ->
  ss_algorithm s ∈ ["astar"; "bfs"; "dfs"; "dijkstra"]%string ->
  exists r,
    runPathfinding startTime endTime s =
      (mkSimState
         (mkAppState (st_grid (ss_app s)) (st_cars (ss_app s)) (Some a) (Some b)
            (path r))
         (ss_algorithm s) (ss_isSimulationRunning s) false ∅
         (mkStats (exploredCount r) (Z.of_nat (length (path r)))
            (inject_Z (endTime - startTime) / 1000)%Q
            (recalculations (ss_stats s) + 1)),
       Ok tt) /\
    foundOrNone (snapshotGrid (st_grid (ss_app s)) (st_cars (ss_app s))) a b r /\
    (ss_algorithm s <> "dfs"%string ->
     shortestOrNone (snapshotGrid (st_grid (ss_app s)) (st_cars (ss_app s))) a b r).
Proof.
  intros Hwf Hs He Hb Hp Halg.
  destruct (runAlgorithm_known (ss_algorithm s)
              (snapshotGrid (st_grid (ss_app s)) (st_cars (ss_app s))) a b)
    as (r & Hr & Hfound & Hshort); [by apply snapshot_wf|exact Hb|exact Halg|].
  exists r. split; [|by split].
  unfold runPathfinding. rewrite Hs, He, Hp, Hr. reflexivity.
Qed.

Lemma runPathfinding_result_witness :
  exists r,
    runPathfinding 1000 1250 (demoSim "dijkstra") =
      (mkSimState
         (mkAppState (st_grid (ss_app (demoSim "dijkstra")))
            (st_cars (ss_app (demoSim "dijkstra"))) (Some (mkPoint 8 8))
            (Some (mkPoint 40 8)) (path r))
         (ss_algorithm (demoSim "dijkstra"))
         (ss_isSimulationRunning (demoSim "dijkstra")) false ∅
         (mkStats (exploredCount r) (Z.of_nat (length (path r)))
            (inject_Z (1250 - 1000) / 1000)%Q
            (recalculations (ss_stats (demoSim "dijkstra")) + 1)),
       Ok tt) /\
    foundOrNone
      (snapshotGrid (st_grid (ss_app (demoSim "dijkstra")))
         (st_cars (ss_app (demoSim "dijkstra"))))
      (mkPoint 8 8) (mkPoint 40 8) r /\
    (ss_algorithm (demoSim "dijkstra") <> "dfs"%string ->
     shortestOrNone
       (snapshotGrid (st_grid (ss_app (demoSim "dijkstra")))
          (st_cars (ss_app (demoSim "dijkstra"))))
       (mkPoint 8 8) (mkPoint 40 8) r).
Proof.
  apply (runPathfinding_result 1000 1250 (demoSim "dijkstra")).
  - vm_compute. reflexivity.
  - reflexivity.
  - reflexivity.
  - reflexivity.
  - reflexivity.
  - do 3 right. left.
Defined.

Lemma runPathfinding_cases startTime endTime s :
  runPathfinding startTime endTime s = (s, Ok tt) \/
  (exists r,
     runPathfinding startTime endTime s =
       (mkSimState
          (mkAppState (st_grid (ss_app s)) (st_cars (ss_app s))
             (st_startPoint (ss_app s)) (st_endPoint (ss_app s)) (path r))
          (ss_algorithm s) (ss_isSimulationRunning s) false ∅
          (mkStats (exploredCount r) (Z.of_nat (length (path r)))
             (inject_Z (endTime - startTime) / 1000)%Q
             (recalculations (ss_stats s) + 1)),
        Ok tt)) \/
  (exists e a b,
     runPathfinding startTime endTime s =
       (mkSimState
          (mkAppState (st_grid (ss_app s)) (st_cars (ss_app s))
             (st_startPoint (ss_app s)) (st_endPoint (ss_app s)) [])
          (ss_algorithm s) (ss_isSimulationRunning s) true ∅ (ss_stats s),
        e) /\
     st_startPoint (ss_app s) = Some a /\ st_endPoint (ss_app s) = Some b).
Proof.
  unfold runPathfinding.
  destruct (st_startPoint (ss_app s)) as [a|]; [|by left].
  destruct (st_endPoint (ss_app s)) as [b|]; [|by left].
  destruct (ss_isPathfinding s); [by left|].
  destruct (runAlgorithm _ _ a b) as [[r|]| |].
  - right. left. by exists r.
  - right. right. by exists TypeError, a, b.
  - right. right. by exists TypeError, a, b.
  - right. right. by exists OutOfFuel, a, b.
Qed.

(** X14. When [runPathfinding] throws, whatever the cause, the state it leaves
    behind has [isPathfinding] set and an empty path, and every later call
    of [runPathfinding] from that state returns at once without a change:
    the flag is never cleared again. *)
Theorem runPathfinding_throw_latches startTime endTime s :
  snd (runPathfinding startTime endTime s) <> Ok tt ->
  ss_isPathfinding (fst (runPathfinding startTime endTime s)) = true /\
  st_currentPath (ss_app (fst (runPathfinding startTime endTime s))) = [] /\
  ss_stats (fst (runPathfinding startTime endTime s)) = ss_stats s /\
  forall startTime' endTime',
    runPathfinding startTime' endTime' (fst (runPathfinding startTime endTime s)) =
      (fst (runPathfinding startTime endTime s), Ok tt).
Proof.
  destruct (runPathfinding_cases startTime endTime s)
    as [->|[(r & ->)|(e & a & b & -> & Hs & He)]]; cbn [fst snd]; [done..|].
  intros _. repeat split. intros t2 t3. unfold runPathfinding.
  cbn [ss_app st_startPoint st_endPoint ss_isPathfinding]. by rewrite Hs, He.
Qed.

Lemma runPathfinding_throw_latches_witness :
  ss_isPathfinding (fst (runPathfinding 0 1 (demoSim "greedy"))) = true /\
  st_currentPath (ss_app (fst (runPathfinding 0 1 (demoSim "greedy")))) = [] /\
  ss_stats (fst (runPathfinding 0 1 (demoSim "greedy"))) = ss_stats (demoSim "greedy") /\
  forall startTime' endTime',
    runPathfinding startTime' endTime' (fst (runPathfinding 0 1 (demoSim "greedy"))) =
      (fst (runPathfinding 0 1 (demoSim "greedy")), Ok tt).
Proof.
  apply runPathfinding_throw_latches. vm_compute. discriminate.
Defined.

(** X15. With both points selected, no search under way and an algorithm that
    is none of "astar", "bfs", "dfs" and "dijkstra", [runPathfinding]
    throws on reading [result.path], whatever the grid and the cars, after
    it has set [isPathfinding] and cleared the path and the visited
    cells. *)
Theorem runPathfinding_unknown_algorithm startTime endTime s a b :
  st_startPoint (ss_app s) = Some a ->
  st_endPoint (ss_app s) = Some b ->
  ss_isPathfinding s = false ->
  ss_algorithm s ∉ ["astar"; "bfs"; "dfs"; "dijkstra"]%string ->
  runPathfinding startTime endTime s =
    (mkSimState
       (mkAppState (st_grid (ss_app s)) (st_cars (ss_app s)) (Some a) (Some b) [])
       (ss_algorithm s) (ss_isSimulationRunning s) true ∅ (ss_stats s),
     TypeError).
Proof.
  intros Hs He Hp Halg. unfold runPathfinding.
  rewrite Hs, He, Hp, (runAlgorithm_unknown _ _ a b Halg). reflexivity.
Qed.

Lemma runPathfinding_unknown_algorithm_witness :
  runPathfinding 0 1 (demoSim "greedy") =
    (mkSimState
       (mkAppState (st_grid (ss_app (demoSim "greedy")))
          (st_cars (ss_app (demoSim "greedy"))) (Some (mkPoint 8 8))
          (Some (mkPoint 40 8)) [])
       (ss_algorithm (demoSim "greedy")) (ss_isSimulationRunning (demoSim "greedy"))
       true ∅ (ss_stats (demoSim "greedy")),
     TypeError).
Proof.
  apply (runPathfinding_unknown_algorithm 0 1 (demoSim "greedy")).
  - reflexivity.
  - reflexivity.
  - reflexivity.
  - cbn [demoSim ss_algorithm]. intros H.
    repeat (apply elem_of_cons in H as [H|H]; [discriminate H|]).
    by apply elem_of_nil in H.
Defined.

(** ** More on the frames *)

Lemma carDirection_invalid d :
  ~ 0 <= d < 4 -> carDirection d = None.
Proof.
  intros Hd. unfold carDirection. destruct (0 <=? d) eqn:H0; [|done].
  apply Z.leb_le in H0. apply lookup_ge_None_2. cbn [carDirections length]. lia.
Qed.

Lemma mapCars_throws grid prevCars cars rng :
  forallb validDirection cars = false ->
  mapCars grid prevCars cars rng = TypeError.
Proof.
  revert rng. induction cars as [|car cars IH]; intros rng Hv; [done|].
  cbn [forallb] in Hv. cbn [mapCars].
  destruct (validDirection car) eqn:Hd.
  - apply validDirection_spec, carDirection_valid in Hd as (dx & dy & Hd).
    destruct (moveCar_outcome grid prevCars car rng dx dy Hd) as (car' & rng1 & -> & _).
    cbn [bind snd fst]. by rewrite IH.
  - rewrite moveCar_error; [done|]. apply carDirection_invalid.
    intros H. apply validDirection_spec in H. congruence.
Qed.

(** X16. A frame throws exactly when some car has a direction that is not 0, 1,
    2 or 3: [directions[car.direction]] is then [undefined] and reading its
    [dx] fails. The grid, the positions and the random values play no
    part in it. *)
Theorem moveCars_throws_iff st rng :
  moveCars st rng = TypeError <-> forallb validDirection (st_cars st) = false.
Proof.
  split.
  - intros Ht. destruct (forallb validDirection (st_cars st)) eqn:Hv; [|done].
    destruct (moveCars_outcome st rng Hv) as (cars' & rng' & Hm & _). congruence.
  - intros Hv. unfold moveCars. by rewrite mapCars_throws.
Qed.

Lemma candidate_still x s :
  isDouble x = true -> Qfloor (fadd x (fmul (inject_Z 0) s)) = Qfloor x.
Proof.
  intros Hx. apply isDouble_spec in Hx. apply Qfloor_comp. unfold fadd, fmul.
  rewrite (roundDouble_0 (inject_Z 0 * s)) by (change (inject_Z 0) with 0%Q; ring).
  rewrite <- Hx at 2. apply roundDouble_comp. ring.
Qed.

Lemma candidate_forward x s :
  isDouble x = true -> isDouble s = true -> (0 <= s)%Q -> (s < 1)%Q ->
  Qfloor x <= Qfloor (fadd x (fmul (inject_Z 1) s)) <= Qfloor x + 1.
Proof.
  intros Hx Hs Hs0 Hs1. pose proof (step_up x s Hx Hs Hs0 Hs1) as H.
  apply isDouble_spec in Hs.
  rewrite (Qfloor_comp (fadd x (fmul (inject_Z 1) s)) (roundDouble (x + s))); [exact H|].
  unfold fadd, fmul. apply roundDouble_comp.
  rewrite (roundDouble_comp (inject_Z 1 * s) s) by (change (inject_Z 1) with 1%Q; ring).
  by rewrite Hs.
Qed.

Lemma candidate_backward x s :
  isDouble x = true -> isDouble s = true -> (0 <= s)%Q -> (s < 1)%Q ->
  Qfloor x - 1 <= Qfloor (fadd x (fmul (inject_Z (-1)) s)) <= Qfloor x.
Proof.
  intros Hx Hs Hs0 Hs1. pose proof (step_down x s Hx Hs0 Hs1) as H.
  apply isDouble_spec in Hs.
  rewrite (Qfloor_comp (fadd x (fmul (inject_Z (-1)) s)) (roundDouble (x - s))); [exact H|].
  unfold fadd, fmul. apply roundDouble_comp.
  rewrite (roundDouble_comp (inject_Z (-1) * s) (- s))
    by (change (inject_Z (-1)) with (- (1))%Q; ring).
  rewrite roundDouble_opp, Hs. ring.
Qed.

Lemma moveOutcome_step grid prevCars car rng dx dy car' rng' :
  carDirection (car_direction car) = Some (dx, dy) ->
  carNumbers car = true ->
  (0 <= car_speed car)%Q -> (car_speed car < 1)%Q ->
  moveOutcome grid prevCars car rng dx dy car' rng' ->
  Z.abs (pt_x (carCell car') - pt_x (carCell car)) +
  Z.abs (pt_y (carCell car') - pt_y (carCell car)) <= 1.
Proof.
  intros Hd Hnum H0 H1 Ho.
  unfold carNumbers in Hnum. rewrite !andb_true_iff in Hnum.
  destruct Hnum as [[Hx Hy] Hs].
  assert (Z.abs (Qfloor (candidateX car dx) - Qfloor (car_x car)) +
          Z.abs (Qfloor (candidateY car dy) - Qfloor (car_y car)) <= 1) as Hmove.
  { unfold carDirection in Hd. destruct (0 <=? car_direction car); [|done].
    unfold candidateX, candidateY.
    pose proof (candidate_still (car_x car) (car_speed car) Hx) as Hx0.
    pose proof (candidate_still (car_y car) (car_speed car) Hy) as Hy0.
    pose proof (candidate_forward (car_x car) (car_speed car) Hx Hs H0 H1) as Hxp.
    pose proof (candidate_forward (car_y car) (car_speed car) Hy Hs H0 H1) as Hyp.
    pose proof (candidate_backward (car_x car) (car_speed car) Hx Hs H0 H1) as Hxm.
    pose proof (candidate_backward (car_y car) (car_speed car) Hy Hs H0 H1) as Hym.
    destruct (Z.to_nat (car_direction car)) as [|[|[|[|k]]]]; cbn in Hd; [..|done];
      injection Hd as <- <-; lia. }
  unfold carCell.
  destruct Ho; cbn [setDirection setStuck moveTo car_x car_y pt_x pt_y];
    try exact Hmove; rewrite !Z.sub_diag; cbn; lia.
Qed.

Lemma moveOutcome_carNumbers grid prevCars car rng dx dy car' rng' :
  moveOutcome grid prevCars car rng dx dy car' rng' ->
  carNumbers car = true -> carNumbers car' = true.
Proof.
  unfold carNumbers. intros Ho Hnum. rewrite !andb_true_iff in Hnum.
  destruct Hnum as [[Hx Hy] Hs].
  destruct Ho; cbn [setDirection setStuck moveTo car_x car_y car_speed];
    rewrite ?candidateX_double, ?candidateY_double, ?Hx, ?Hy, ?Hs; reflexivity.
Qed.

(** The numbers of the cars stay binary64 values over a frame. *)
Lemma moveCars_carNumbers st rng st' rng' :
  forallb validDirection (st_cars st) = true ->
  moveCars st rng = Ok (st', rng') ->
  forallb carNumbers (st_cars st) = true ->
  forallb carNumbers (st_cars st') = true.
Proof.
  intros Hv Hm Hnum.
  destruct (moveCars_outcome st rng Hv) as (cars' & rng2 & Hm' & Hall).
  rewrite Hm in Hm'. injection Hm' as -> ->. cbn [st_cars].
  rewrite forallb_forall in Hnum. apply forallb_forall. intros c' Hin.
  apply list_elem_of_In, list_elem_of_lookup in Hin as [i Hi].
  destruct (Forall2_lookup_r _ _ _ _ _ Hall Hi) as (c & Hc & Ht).
  destruct Ht as (dx & dy & r & r' & _ & _ & Ho).
  eapply moveOutcome_carNumbers; [exact Ho|].
  apply Hnum, list_elem_of_In, list_elem_of_lookup. eauto.
Qed.

(** X17. A car slower than one cell per frame never jumps over a cell:
    when every car has one of the four directions, numbers that are
    binary64 values, as all numbers of the source are, and a speed in
    [0, 1), a frame leaves each car on its cell or on one of the four cells
    next to it. The rounding of the sum never takes a car further. *)
Theorem frame_moves_one_cell st rng :
  forallb validDirection (st_cars st) = true ->
  forallb carNumbers (st_cars st) = true ->
  (forall c, c ∈ st_cars st -> (0 <= car_speed c)%Q /\ (car_speed c < 1)%Q) ->
  exists st' rng',
    moveCars st rng = Ok (st', rng') /\
    forall i c c',
      st_cars st !! i = Some c -> st_cars st' !! i = Some c' ->
      Z.abs (pt_x (carCell c') - pt_x (carCell c)) +
      Z.abs (pt_y (carCell c') - pt_y (carCell c)) <= 1.
Proof.
  intros Hv Hnum Hsp.
  destruct (moveCars_outcome st rng Hv) as (cars' & rng' & Hm & Hall).
  eexists _, rng'. split; [exact Hm|]. cbn [st_cars].
  intros i c c' Hc Hc'.
  destruct (Forall2_lookup_l _ _ _ _ _ Hall Hc) as (c2 & Hc2 & Ht).
  assert (c2 = c') as -> by congruence.
  destruct Ht as (dx & dy & r & r' & Hd & _ & Ho).
  assert (c ∈ st_cars st) as Hin by (apply list_elem_of_lookup; eauto).
  destruct (Hsp c Hin) as [H0 H1].
  rewrite forallb_forall in Hnum. specialize (Hnum c (proj1 (list_elem_of_In _ _) Hin)).
  by eapply moveOutcome_step.
Qed.

Lemma frame_moves_one_cell_witness :
  exists st' rng',
    moveCars demoState demoRng = Ok (st', rng') /\
    forall i c c',
      st_cars demoState !! i = Some c -> st_cars st' !! i = Some c' ->
      Z.abs (pt_x (carCell c') - pt_x (carCell c)) +
      Z.abs (pt_y (carCell c') - pt_y (carCell c)) <= 1.
Proof.
  apply frame_moves_one_cell.
  - vm_compute. reflexivity.
  - vm_compute. reflexivity.
  - intros c Hc. unfold demoState, demoCars in Hc. cbn [st_cars] in Hc.
    repeat (apply elem_of_cons in Hc as [->|Hc]; [cbn [car_speed]; unfold Qle, Qlt; cbn; lia|]).
    by apply elem_of_nil in Hc.
Defined.

(** Two frames where the rounding of binary64 decides. In the first the exact
    sum 4.25 - 0.25000000000000006 lies below 4, in the wall cell (3, 3), and
    the rounded sum is 4: the car moves to the road cell (4, 3). *)
Example moveCar_rounded_sum :
  let car := mkCar 0 (17 # 4) 3 2 ((1 # 4) + pow2 (-54)) "#FF6B6B"%string 0 in
  carNumbers car = true /\
  (candidateX car (-1) == 4)%Q /\
  (car_x car - car_speed car < 4)%Q /\
  exists rng', moveCar (initializeCityGrid tt) [car] car demoRng
               = Ok (moveTo car 4 3 2, rng').
Proof.
  cbv zeta. split; [by vm_compute|]. split; [by vm_compute|]. split; [by vm_compute|].
  eexists. vm_compute. reflexivity.
Qed.

(** In the second the exact distance to the other car is below 0.8 while the
    computed one, 0.8000000000000007, is not: the car moves. *)
Example moveCar_rounded_distance :
  let car := mkCar 0 20 8 0 (roundDouble (2 # 10) + pow2 (-55)) "#FF6B6B"%string 0 in
  let other := mkCar 1 21 8 0 (1 # 2) "#4ECDC4"%string 0 in
  carNumbers car = true /\
  (Qabs (car_x other - (car_x car + car_speed car)) < 8 # 10)%Q /\
  collides [car; other] car (candidateX car 1) (candidateY car 0) = false /\
  exists rng', moveCar (initializeCityGrid tt) [car; other] car demoRng
               = Ok (moveTo car (candidateX car 1) 8 0, rng').
Proof.
  cbv zeta. split; [by vm_compute|]. split; [by vm_compute|]. split; [by vm_compute|].
  eexists. vm_compute. reflexivity.
Qed.

(** ** Simple paths and the cells a failed search explores *)

Lemma pathTo_prefix_walk g start v l w :
  pathTo g start v l -> w ∈ l ->
  exists n, (S n <= length l)%nat /\ walk g start n w.
Proof.
  induction 1 as [|u v l Hp IH Hv]; intros Hw.
  - apply list_elem_of_singleton in Hw as ->. exists O. split; [done|constructor].
  - apply elem_of_app in Hw as [Hw|Hw % list_elem_of_singleton].
    + destruct (IH Hw) as (n & Hn & Hwalk). exists n.
      split; [rewrite length_app; lia|done].
    + subst w. destruct (pathTo_walk g start u l Hp) as (n & Hl & Hwalk).
      exists (S n). split; [rewrite length_app; cbn [length]; lia|].
      by eapply walk_S.
Qed.

(** A walk of the least length goes through no cell twice. *)
Lemma shortest_path_simple g start v l :
  pathTo g start v l ->
  forall d, isDist g start v d -> length l = S d -> NoDup l.
Proof.
  induction 1 as [|u v l Hp IH Hv]; intros d Hd Hl.
  - apply NoDup_singleton.
  - rewrite length_app in Hl. cbn [length] in Hl.
    destruct (pathTo_walk g start u l Hp) as (n & Hn & Hwalk).
    destruct Hd as [Hdw Hmin].
    assert (isDist g start u n) as Hu.
    { split; [exact Hwalk|]. intros m Hm.
      assert (d <= S m)%nat by (apply Hmin; by eapply walk_S). lia. }
    apply NoDup_app. split; [by apply (IH n)|]. split; [|apply NoDup_singleton].
    intros w Hw Hwv % list_elem_of_singleton. subst w.
    destruct (pathTo_prefix_walk g start u l v Hp Hw) as (k & Hk & Hkw).
    apply Hmin in Hkw. lia.
Qed.

Lemma shortestOrNone_simple g start end_ r :
  shortestOrNone g start end_ r -> NoDup (path r).
Proof.
  intros [_ [[-> _]|(d & Hd & Hp & Hl)]]; [apply NoDup_nil_2|].
  by eapply shortest_path_simple.
Qed.

Lemma runDFS_simple g start end_ :
  wf_grid g = true -> in_bounds start = true ->
  exists r, runDFS g start end_ = Ok r /\ foundOrNone g start end_ r /\
            exploresAll g start r /\ NoDup (path r).
Proof.
  intros Hwf Hb. apply (runDFS_post g start end_ universe Hwf).
  - apply elem_of_universe, Hb.
  - apply nbrs_universe.
  - apply pathFuel_universe.
Qed.

Lemma runBFS_explores g start end_ :
  wf_grid g = true -> in_bounds start = true ->
  exists r, runBFS g start end_ = Ok r /\ shortestOrNone g start end_ r /\
            exploresAll g start r.
Proof.
  intros Hwf Hb. apply (runBFS_post g start end_ universe Hwf).
  - apply elem_of_universe, Hb.
  - apply nbrs_universe.
  - apply pathFuel_universe.
Qed.

Lemma runDijkstra_explores g start end_ :
  wf_grid g = true -> in_bounds start = true ->
  exists r, runDijkstra g start end_ = Ok r /\ shortestOrNone g start end_ r /\
            exploresAll g start r.
Proof.
  intros Hwf Hb. apply (runDijkstra_post g start end_ universe Hwf Hb).
  - apply elem_of_universe, Hb.
  - apply nbrs_universe.
  - apply pathFuel_universe.
Qed.

Lemma runAStar_explores g start end_ :
  wf_grid g = true -> in_bounds start = true ->
  exists r, runAStar g start end_ = Ok r /\ shortestOrNone g start end_ r /\
            exploresAll g start r.
Proof.
  intros Hwf Hb. apply (runAStar_post g start end_ universe Hwf).
  - apply elem_of_universe, Hb.
  - apply nbrs_universe.
  - apply pathFuel_universe.
Qed.

(** X18. On a snapshot of 60 rows of 120 cells and from a start within the
    bounds, the path each of the four searches returns goes through no
    cell twice. *)
Theorem search_paths_simple g start end_ :
  wf_grid g = true -> in_bounds start = true ->
  exists rDFS rBFS rAStar rDijkstra,
    runDFS g start end_ = Ok rDFS /\
    runBFS g start end_ = Ok rBFS /\
    runAStar g start end_ = Ok rAStar /\
    runDijkstra g start end_ = Ok rDijkstra /\
    NoDup (path rDFS) /\ NoDup (path rBFS) /\
    NoDup (path rAStar) /\ NoDup (path rDijkstra).
Proof.
  intros Hwf Hb.
  destruct (runDFS_simple g start end_ Hwf Hb) as (r1 & E1 & _ & _ & N1).
  destruct (runBFS_shortest g start end_ Hwf Hb)
    as (r2 & E2 & N2 % shortestOrNone_simple).
  destruct (runAStar_shortest g start end_ Hwf Hb)
    as (r3 & E3 & N3 % shortestOrNone_simple).
  destruct (runDijkstra_shortest g start end_ Hwf Hb)
    as (r4 & E4 & N4 % shortestOrNone_simple).
  exists r1, r2, r3, r4. by repeat split.
Qed.

Lemma search_paths_simple_witness :
  exists rDFS rBFS rAStar rDijkstra,
    runDFS (initializeCityGrid tt) (mkPoint 8 8) (mkPoint 40 28) = Ok rDFS /\
    runBFS (initializeCityGrid tt) (mkPoint 8 8) (mkPoint 40 28) = Ok rBFS /\
    runAStar (initializeCityGrid tt) (mkPoint 8 8) (mkPoint 40 28) = Ok rAStar /\
    runDijkstra (initializeCityGrid tt) (mkPoint 8 8) (mkPoint 40 28) = Ok rDijkstra /\
    NoDup (path rDFS) /\ NoDup (path rBFS) /\
    NoDup (path rAStar) /\ NoDup (path rDijkstra).
Proof.
  apply search_paths_simple.
  - vm_compute. reflexivity.
  - reflexivity.
Defined.

Lemma reachable_route g start v :
  in_bounds start = true -> traversable g start = true ->
  (exists n, walk g start n v) <-> exists route, is_route g start v route = true.
Proof.
  intros Hb Ht. split.
  - intros [n Hw]. destruct (walk_pathTo g start n v Hw) as (l & Hp & _).
    exists l. by apply pathTo_route.
  - intros [route Hr]. eexists. by eapply route_walk.
Qed.

Lemma exploresAll_count g start end_ r (V : gset Point) :
  (forall v, v ∈ V <-> exists n, walk g start n v) ->
  (forall n, ~ walk g start n end_) ->
  foundOrNone g start end_ r -> exploresAll g start r ->
  r = mkResult [] (Z.of_nat (size V)).
Proof.
  intros HV Hno [_ [[Hnil _]|Hp]] Hall.
  - destruct (Hall Hnil) as (V' & HV' & Hc).
    assert (V' = V) as ->.
    { apply set_eq. intros v. by rewrite HV, HV'. }
    destruct r as [p c]. cbn [path exploredCount] in *. by subst.
  - exfalso. apply pathTo_walk in Hp as (n & _ & Hw). by apply (Hno n).
Qed.

(** X19. When no route leads from the start to the end, the four searches
    report the same [exploredCount]: the number of cells that a route
    from the start does reach, the start among them. *)
Theorem no_route_explores_reachable g start end_ :
  wf_grid g = true -> in_bounds start = true -> traversable g start = true ->
  (forall route, is_route g start end_ route = false) ->
  exists V : gset Point,
    (forall v, v ∈ V <-> exists route, is_route g start v route = true) /\
    start ∈ V /\
    runDFS g start end_ = Ok (mkResult [] (Z.of_nat (size V))) /\
    runBFS g start end_ = Ok (mkResult [] (Z.of_nat (size V))) /\
    runAStar g start end_ = Ok (mkResult [] (Z.of_nat (size V))) /\
    runDijkstra g start end_ = Ok (mkResult [] (Z.of_nat (size V))).
Proof.
  intros Hwf Hb Ht Hno.
  assert (forall n, ~ walk g start n end_) as Hnw.
  { intros n Hw.
    destruct (proj1 (reachable_route g start end_ Hb Ht) (ex_intro _ n Hw))
      as (route & Hr).
    by rewrite Hno in Hr. }
  destruct (runDFS_simple g start end_ Hwf Hb) as (r1 & E1 & F1 & A1 & _).
  destruct (runBFS_explores g start end_ Hwf Hb)
    as (r2 & E2 & F2 % shortestOrNone_found & A2).
  destruct (runAStar_explores g start end_ Hwf Hb)
    as (r3 & E3 & F3 % shortestOrNone_found & A3).
  destruct (runDijkstra_explores g start end_ Hwf Hb)
    as (r4 & E4 & F4 % shortestOrNone_found & A4).
  destruct F1 as [Hc1 [[Hnil _]|Hp]];
    [|exfalso; apply pathTo_walk in Hp as (n & _ & Hw); by apply (Hnw n)].
  destruct (A1 Hnil) as (V & HV & _).
  assert (foundOrNone g start end_ r1) as F1.
  { split; [exact Hc1|]. left. by split. }
  exists V. split.
  { intros v. rewrite HV. by apply reachable_route. }
  split; [apply HV; exists O; constructor|].
  rewrite E1, E2, E3, E4.
  rewrite (exploresAll_count g start end_ r1 V HV Hnw F1 A1).
  rewrite (exploresAll_count g start end_ r2 V HV Hnw F2 A2).
  rewrite (exploresAll_count g start end_ r3 V HV Hnw F3 A3).
  rewrite (exploresAll_count g start end_ r4 V HV Hnw F4 A4).
  done.
Qed.

Lemma no_route_explores_reachable_witness :
  exists V : gset Point,
    (forall v, v ∈ V <->
       exists route, is_route islandGrid (mkPoint 0 0) v route = true) /\
    mkPoint 0 0 ∈ V /\
    runDFS islandGrid (mkPoint 0 0) (mkPoint 5 5) = Ok (mkResult [] (Z.of_nat (size V))) /\
    runBFS islandGrid (mkPoint 0 0) (mkPoint 5 5) = Ok (mkResult [] (Z.of_nat (size V))) /\
    runAStar islandGrid (mkPoint 0 0) (mkPoint 5 5) = Ok (mkResult [] (Z.of_nat (size V))) /\
    runDijkstra islandGrid (mkPoint 0 0) (mkPoint 5 5) = Ok (mkResult [] (Z.of_nat (size V))).
Proof.
  apply no_route_explores_reachable.
  - vm_compute. reflexivity.
  - reflexivity.
  - vm_compute. reflexivity.
  - exact islandGrid_no_route.
Defined.
